(** * Pattern-matching engine: a shallow embedding and its specification

    The development follows the Python sources of the repository:
    - [AdvancedPatternMatcher] (wildcard_match, motif_distance, kmp_search,
      fuzzy_regex_search, analyze_all, parallel_search),
    - the stand-alone [find_dna_motifs] of "DNA motif.py",
    - the stand-alone [wildcard_match] of "Pattern matcher i.py",
    - the games "Logic Labyrinth.py", "TicTacToe.py" and
      "Faster TicTacToe.py",
    - the class [LibraryManagementSystem] of
      "Library management system.py".

    Python strings are sequences of symbols; they are modelled as lists of
    characters, positions as natural numbers.  Python exceptions are
    modelled by the [result] type; [while] loops and recursive calls carry a
    fuel argument and every entry point supplies the fuel itself, so that a
    statement [f x = Ok v] says that the call returns [v].  The limits of
    the interpreter (recursion depth, memory) are not modelled. *)

From Stdlib Require Import Ascii String.
From stdpp Require Import list gmap strings sorting pretty.

Local Open Scope nat_scope.

(** ** Python values and exceptions *)

Abbreviation char := ascii.
Abbreviation str := (list ascii).

(** [s_ "abc"] is the Python string literal "abc". *)
Definition s_ (s : string) : str := list_ascii_of_string s.

Inductive exn : Type :=
| IndexError   (* sequence index out of range *)
| ValueError   (* raised by multiprocessing.Pool for a worker count < 1 *)
| OverflowError (* int(float('inf')) *)
| OutOfFuel.   (* artefact of the model: a loop ran past its fuel *)

Inductive result (A : Type) : Type :=
| Ok (a : A)
| Raise (e : exn).
Arguments Ok {A} a.
Arguments Raise {A} e.

#[global] Instance exn_eq_dec : EqDecision exn.
Proof. solve_decision. Defined.
#[global] Instance result_eq_dec {A} `{EqDecision A} : EqDecision (result A).
Proof. solve_decision. Defined.

#[global] Instance result_ret : MRet result := λ A x, Ok x.
#[global] Instance result_bind : MBind result := λ A B f m,
  match m with
  | Ok a => f a
  | Raise e => Raise e
  end.

(** [l[i]] for a non-negative index. *)
Definition index {A} (l : list A) (i : nat) : result A :=
  match l !! i with
  | Some x => Ok x
  | None => Raise IndexError
  end.

(** [l[i] = x] for a non-negative index. *)
Definition setitem {A} (l : list A) (i : nat) (x : A) : result (list A) :=
  if decide (i < length l) then Ok (<[i:=x]> l) else Raise IndexError.

(** [l[a:b]] for non-negative bounds: slicing never raises. *)
Definition slice {A} (l : list A) (a b : nat) : list A :=
  take (b - a) (drop a l).

(** [l[a:]] *)
Definition slice_from {A} (l : list A) (a : nat) : list A := drop a l.

(** A [while cond: body] loop on an explicit state. *)
Fixpoint while {St : Type} (fuel : nat) (cond : St → bool)
    (body : St → result St) (s : St) : result St :=
  if cond s then
    match fuel with
    | 0 => Raise OutOfFuel
    | S fuel' => s' ← body s; while fuel' cond body s'
    end
  else Ok s.

(** ** Algorithm 3: KMP (AdvancedPatternMatcher.kmp_search) *)

Module KMP.

(** State of the first loop: [(lps, length, i)]. *)
Definition lps_state : Type := list nat * nat * nat.

Definition lps_cond (pattern : str) (st : lps_state) : bool :=
  let '(_, _, i) := st in bool_decide (i < length pattern).

Definition lps_body (pattern : str) (st : lps_state) : result lps_state :=
  let '(lps, len, i) := st in
  pi ← index pattern i;
  pl ← index pattern len;
  if decide (pi = pl) then
    lps' ← setitem lps i (len + 1);
    Ok (lps', len + 1, i + 1)
  else if decide (len ≠ 0) then
    len' ← index lps (len - 1);
    Ok (lps, len', i)
  else
    lps' ← setitem lps i 0;
    Ok (lps', len, i + 1).

(** The prefix table of a non-empty pattern. *)
Definition compute_lps (pattern : str) : result (list nat) :=
  '(lps, _, _) ← while (2 * length pattern) (lps_cond pattern)
                    (lps_body pattern) (replicate (length pattern) 0, 0, 1);
  Ok lps.

(** State of the second loop: [(i, j, matches)]. *)
Definition search_state : Type := nat * nat * list nat.

Definition search_cond (text : str) (st : search_state) : bool :=
  let '(i, _, _) := st in bool_decide (i < length text).

Definition search_body (text pattern : str) (lps : list nat)
    (st : search_state) : result search_state :=
  let '(i, j, matches) := st in
  pj ← index pattern j;
  ti ← index text i;
  let '(i, j) := if decide (pj = ti) then (i + 1, j + 1) else (i, j) in
  if decide (j = length pattern) then
    j' ← index lps (j - 1);
    Ok (i, j', matches ++ [i - j])
  else if decide (i < length text) then
    pj ← index pattern j;
    ti ← index text i;
    if decide (pj ≠ ti) then
      if decide (j ≠ 0) then
        j' ← index lps (j - 1);
        Ok (i, j', matches)
      else Ok (i + 1, j, matches)
    else Ok (i, j, matches)
  else Ok (i, j, matches).

Definition kmp_search (text pattern : str) : result (list nat) :=
  if bool_decide (pattern = [] ∨ text = []) then Ok []
  else
    lps ← compute_lps pattern;
    '(_, _, matches) ← while (2 * length text) (search_cond text)
                          (search_body text pattern lps) (0, 0, []);
    Ok matches.

End KMP.

(** ** Stateful code: the state-and-exception monad *)

(** A computation that reads and updates a state [St] and either returns a
    value or raises; the state reached when the exception is raised is kept,
    as in Python. *)
Definition M (St A : Type) : Type := St → result A * St.

#[global] Instance M_ret {St} : MRet (M St) := λ A x s, (Ok x, s).
#[global] Instance M_bind {St} : MBind (M St) := λ A B f m s,
  match m s with
  | (Ok a, s') => f a s'
  | (Raise e, s') => (Raise e, s')
  end.

Definition raise {St A} (e : exn) : M St A := λ s, (Raise e, s).

Definition lift {St A} (r : result A) : M St A := λ s, (r, s).

Definition run {St A} (m : M St A) (s : St) : result A * St := m s.

(** [for x in l: acc = body(acc, x)] *)
Fixpoint for_each {St A B} (l : list A) (acc : B) (body : B → A → M St B)
    : M St B :=
  match l with
  | [] => mret acc
  | x :: l' => acc' ← body acc x; for_each l' acc' body
  end.

(** ** functools.lru_cache *)

Module LRU.
Section lru.
Context {K V : Type} `{EqDecision K}.

(** The entries of a bounded cache, most recently used first. *)
Definition cache : Type := list (K * V).

(** A hit returns the value and moves the entry to the front. *)
Definition lookup (key : K) (c : cache) : option (V * cache) :=
  match list_find (λ kv, kv.1 = key) c with
  | Some (idx, kv) => Some (kv.2, kv :: delete idx c)
  | None => None
  end.

(** Storing after a miss: a key that a recursive call has stored in the
    meantime is left alone; a full cache drops its oldest entry. *)
Definition store (maxsize : nat) (key : K) (v : V) (c : cache) : cache :=
  if decide (key ∈ c.*1) then c
  else if decide (maxsize ≤ length c) then (key, v) :: take (length c - 1) c
  else (key, v) :: c.

(** The wrapper that [@lru_cache(maxsize)] puts around [body]; [get] and
    [set] select the cache inside the state.  Exceptions are not cached. *)
Definition cached {St} (maxsize : nat) (get : St → cache)
    (set : cache → St → St) (key : K) (body : M St V) : M St V := λ s,
  match lookup key (get s) with
  | Some (v, c') => (Ok v, set c' s)
  | None =>
      match body s with
      | (Ok v, s') => (Ok v, set (store maxsize key v (get s')) s')
      | (Raise e, s') => (Raise e, s')
      end
  end.
End lru.
End LRU.

(** ** Costs: a Python int or float('inf') *)

Inductive cost : Type :=
| Fin (n : nat)
| Inf.

#[global] Instance cost_eq_dec : EqDecision cost.
Proof. solve_decision. Defined.

(** [a + b] *)
Definition cost_add (a b : cost) : cost :=
  match a, b with
  | Fin x, Fin y => Fin (x + y)
  | _, _ => Inf
  end.

(** [min(a, b)] *)
Definition cost_min (a b : cost) : cost :=
  match a, b with
  | Fin x, Fin y => Fin (x `min` y)
  | Fin x, Inf => Fin x
  | Inf, b => b
  end.

(** [a <= k] for an int [k] *)
Definition cost_le (a : cost) (k : Z) : bool :=
  match a with
  | Fin x => bool_decide (Z.of_nat x ≤ k)%Z
  | Inf => false
  end.

(** [0 if a == b else 1] *)
Definition mismatch (a b : char) : cost :=
  if decide (a = b) then Fin 0 else Fin 1.

(** [all(c == '*' for c in s)] *)
Definition all_stars (s : str) : bool :=
  forallb (λ c, bool_decide (c = "*"%char)) s.

(** ** The class AdvancedPatternMatcher *)

Record MatchResult : Type := mkMatchResult {
  start_pos : nat;
  end_pos : nat;
  score : nat;
  pattern_type : string;
  explanation : string
}.

#[global] Instance MatchResult_eq_dec : EqDecision MatchResult.
Proof. solve_decision. Defined.

Module Matcher.

(** Keys of the two method caches: the arguments of the call. *)
Definition key : Type := str * str * nat * nat.

(** The hidden state of a matcher: [self.stats] and the two caches that
    [@lru_cache(maxsize=10000)] attaches to wildcard_match and
    motif_distance. *)
Record state : Type := mkState {
  calls : nat;
  cache_hits : nat;
  total_time : nat;
  wm_cache : list (key * bool);
  md_cache : list (key * cost)
}.

(** [__init__] and empty caches. *)
Definition init : state :=
  {| calls := 0; cache_hits := 0; total_time := 0;
     wm_cache := []; md_cache := [] |}.

Definition set_wm_cache (c : list (key * bool)) (s : state) : state :=
  {| calls := calls s; cache_hits := cache_hits s; total_time := total_time s;
     wm_cache := c; md_cache := md_cache s |}.

Definition set_md_cache (c : list (key * cost)) (s : state) : state :=
  {| calls := calls s; cache_hits := cache_hits s; total_time := total_time s;
     wm_cache := wm_cache s; md_cache := c |}.

(** [self.stats["calls"] += 1] *)
Definition incr_calls : M state () := λ s,
  (Ok (),
   {| calls := calls s + 1; cache_hits := cache_hits s;
      total_time := total_time s;
      wm_cache := wm_cache s; md_cache := md_cache s |}).

Definition maxsize : nat := 10000.

(** Algorithm 1 *)
Fixpoint wildcard_match_rec (fuel : nat) (text pattern : str) (i j : nat)
    : M state bool :=
  match fuel with
  | 0 => raise OutOfFuel
  | S fuel' =>
    LRU.cached maxsize wm_cache set_wm_cache (text, pattern, i, j) (
      incr_calls;;
      if decide (i = length text ∧ j = length pattern) then mret true
      else if decide (i = length text) then
        mret (all_stars (slice_from pattern j))
      else if decide (j = length pattern) then mret false
      else
        pj ← lift (index pattern j);
        if decide (pj = "*"%char) then
          a ← wildcard_match_rec fuel' text pattern i (j + 1);
          if (a : bool) then mret true
          else if decide (i < length text) then
            wildcard_match_rec fuel' text pattern (i + 1) j
          else mret false
        else
          c ← (if decide (pj = "?"%char) then mret true
               else ti ← lift (index text i); mret (bool_decide (pj = ti)));
          if (c : bool) then wildcard_match_rec fuel' text pattern (i + 1) (j + 1)
          else mret false)
  end.

Definition wildcard_match (text pattern : str) (i j : nat) : M state bool :=
  wildcard_match_rec (S ((length pattern - j) + (length text - i)))
    text pattern i j.

(** Algorithm 2 *)
Fixpoint motif_distance_rec (fuel : nat) (dna motif : str) (i j : nat)
    : M state cost :=
  match fuel with
  | 0 => raise OutOfFuel
  | S fuel' =>
    LRU.cached maxsize md_cache set_md_cache (dna, motif, i, j) (
      if decide (j = length motif) then mret (Fin 0)
      else if decide (Z.of_nat i + Z.of_nat (length motif) - Z.of_nat j
                      > Z.of_nat (length dna))%Z then mret Inf
      else
        d ← lift (index dna i);
        c ← lift (index motif j);
        a ← motif_distance_rec fuel' dna motif (i + 1) (j + 1);
        b ← motif_distance_rec fuel' dna motif (i + 1) j;
        mret (cost_min (cost_add (mismatch d c) a) b))
  end.

Definition motif_distance (dna motif : str) (i j : nat) : M state cost :=
  motif_distance_rec (S (length dna - i)) dna motif i j.

(** Algorithm 3 does not touch the state: see [KMP.kmp_search]. *)

(** [sum(c1 != c2 for c1, c2 in zip(snippet, pattern))] *)
Definition hamming (snippet pattern : str) : nat :=
  sum_list ((λ p : char * char, if decide (p.1 ≠ p.2) then 1 else 0)
              <$> zip snippet pattern).

(** Algorithm 4; it neither touches the state nor raises. *)
Definition fuzzy_regex_search (text pattern : str) (max_distance : Z)
    : list MatchResult :=
  foldl (λ results i,
           let snippet := slice text i (i + length pattern) in
           let distance := hamming snippet pattern in
           if bool_decide (Z.of_nat distance ≤ max_distance)%Z then
             results ++ [mkMatchResult i (i + length pattern) distance
                           "fuzzy_regex" (pretty distance +:+ " mismatches")]
           else results)
        [] (seq 0 (length text + 1 - length pattern)).

(** [int(dist)] *)
Definition int_of_cost (c : cost) : result nat :=
  match c with
  | Fin d => Ok d
  | Inf => Raise OverflowError
  end.

(** The dictionary that analyze_all returns, one field per key. *)
Record report : Type := mkReport {
  wildcard : list (nat * str);
  motifs : list (nat * nat);
  kmp : gmap str (list nat);
  fuzzy_regex : list MatchResult
}.

Definition analyze_all (text : str) (patterns : list str)
    (max_motif_dist : Z) : M state report :=
  wc_results ←
    for_each patterns [] (λ wc_results pattern,
      for_each (seq 0 (length text)) wc_results (λ wc_results start,
        b ← wildcard_match text pattern start 0;
        if (b : bool) then
          mret (wc_results
                  ++ [(start, slice text start (start + 10) ++ s_ "...")])
        else mret wc_results));
  motif_results ←
    for_each patterns [] (λ motif_results pattern,
      for_each (seq 0 (length text + 1 - length pattern)) motif_results
        (λ motif_results start,
          dist ← motif_distance text pattern start 0;
          if cost_le dist max_motif_dist then
            d ← lift (int_of_cost dist);
            mret (motif_results ++ [(start, d)])
          else mret motif_results));
  kmp_results ←
    for_each patterns (∅ : gmap str (list nat)) (λ d p,
      r ← lift (KMP.kmp_search text p); mret (<[p := r]> d));
  p0 ← lift (index patterns 0);
  let fuzzy := fuzzy_regex_search text p0 2 in
  mret (mkReport wc_results motif_results kmp_results fuzzy).

(** A call of one of the methods, and the value it returns. *)
Inductive call : Type :=
| CallWildcard (text pattern : str) (i j : nat)
| CallMotif (dna motif : str) (i j : nat)
| CallKmp (text pattern : str)
| CallFuzzy (text pattern : str) (max_distance : Z)
| CallAnalyze (text : str) (patterns : list str) (max_motif_dist : Z).

Inductive value : Type :=
| VBool (b : bool)
| VCost (c : cost)
| VOffsets (l : list nat)
| VMatches (l : list MatchResult)
| VReport (r : report).

Definition run_call (c : call) : M state value :=
  match c with
  | CallWildcard text pattern i j =>
      b ← wildcard_match text pattern i j; mret (VBool b)
  | CallMotif dna motif i j =>
      d ← motif_distance dna motif i j; mret (VCost d)
  | CallKmp text pattern =>
      l ← lift (KMP.kmp_search text pattern); mret (VOffsets l)
  | CallFuzzy text pattern max_distance =>
      mret (VMatches (fuzzy_regex_search text pattern max_distance))
  | CallAnalyze text patterns max_motif_dist =>
      r ← analyze_all text patterns max_motif_dist; mret (VReport r)
  end.

(** The state of a fresh matcher after a sequence of calls. *)
Definition after (history : list call) : state :=
  foldl (λ s c, (run_call c s).2) init history.

End Matcher.

(** ** multiprocessing.Pool, as far as parallel_search uses it

    [Pool(processes)] raises ValueError for [processes < 1].  [starmap]
    cuts the argument list into consecutive batches of [chunksize] items;
    the workers complete the batches in some order, and the result of batch
    [k] is written into the slots [k*chunksize .. (k+1)*chunksize) of a
    list that starts as [[None] * length].  The order of completion is a
    parameter of the model. *)

Module Pool.

Definition create (processes : Z) : result nat :=
  if decide (processes < 1)%Z then Raise ValueError
  else Ok (Z.to_nat processes).

(** [chunksize, extra = divmod(len(iterable), len(self._pool) * 4)] *)
Definition chunksize (len procs : nat) : nat :=
  if decide (len = 0) then 0
  else
    let chunksize := len `div` (procs * 4) in
    if decide (len `mod` (procs * 4) ≠ 0) then chunksize + 1 else chunksize.

(** [MapResult._number_left] *)
Definition number_left (len chunksize : nat) : nat :=
  if decide (chunksize = 0) then 0
  else len `div` chunksize
       + (if decide (len `mod` chunksize ≠ 0) then 1 else 0).

(** The [k]-th batch produced by [_get_tasks]. *)
Definition batch {A} (iterable : list A) (chunksize k : nat) : list A :=
  slice iterable (k * chunksize) ((k + 1) * chunksize).

(** [MapResult]: either still successful with its slots, or failed with
    the first exception that was reported. *)
Definition map_result (B : Type) : Type := result (list (option B)).

(** [MapResult._set(k, (success, result))] *)
Definition set_result {B} (chunksize k : nat) (r : result (list B))
    (mr : map_result B) : map_result B :=
  match mr, r with
  | Ok value, Ok res =>
      Ok (take (k * chunksize) value ++ (Some <$> res)
            ++ drop ((k + 1) * chunksize) value)
  | Ok _, Raise e => Raise e
  | Raise e, _ => Raise e
  end.

(** [pool.starmap(f, iterable)] when the batches complete in the order
    [completion]. *)
Definition starmap {A B} (procs : nat) (f : A → result B) (iterable : list A)
    (completion : list nat) : result (list (option B)) :=
  let cs := chunksize (length iterable) procs in
  foldl (λ mr k, set_result cs k (mapM f (batch iterable cs k)) mr)
        (Ok (replicate (length iterable) None)) completion.

(** The completion orders of a run: every batch completes exactly once. *)
Definition schedule (len procs : nat) (completion : list nat) : Prop :=
  completion ≡ₚ seq 0 (number_left len (chunksize len procs)).

End Pool.

(** AdvancedPatternMatcher.parallel_search; the workers run on copies of
    the matcher, whose state is therefore not involved. *)
Definition parallel_search (texts : list str) (pattern : str) (n_workers : Z)
    (completion : list nat) : result (list (option (list nat))) :=
  pool ← Pool.create n_workers;
  Pool.starmap pool (λ a : str * str, KMP.kmp_search a.1 a.2)
    ((λ t, (t, pattern)) <$> texts) completion.

(** ** DNA motif.py *)

Module DnaMotif.

Abbreviation memo := (gmap (nat * nat) cost).

(** [@lru_cache(maxsize=None)]: an unbounded dictionary. *)
Definition cached (key : nat * nat) (body : M memo cost) : M memo cost := λ s,
  match s !! key with
  | Some v => (Ok v, s)
  | None =>
      match body s with
      | (Ok v, s') => (Ok v, <[key := v]> s')
      | (Raise e, s') => (Raise e, s')
      end
  end.

Fixpoint min_mismatches_rec (fuel : nat) (dna motif : str) (i j : nat)
    : M memo cost :=
  let n := length dna in
  let m := length motif in
  match fuel with
  | 0 => raise OutOfFuel
  | S fuel' =>
    cached (i, j) (
      if decide (j = m) then mret (Fin 0)
      else if decide (Z.of_nat i + Z.of_nat m - Z.of_nat j > Z.of_nat n)%Z
      then mret Inf
      else
        d ← lift (index dna i);
        c ← lift (index motif j);
        a ← min_mismatches_rec fuel' dna motif (i + 1) (j + 1);
        let match_here := cost_add (mismatch d c) a in
        skip_dna ← min_mismatches_rec fuel' dna motif (i + 1) j;
        mret (cost_min match_here skip_dna))
  end.

Definition min_mismatches (dna motif : str) (i j : nat) : M memo cost :=
  min_mismatches_rec (S (length dna - i)) dna motif i j.

Definition find_dna_motifs_loop (dna motif : str) (max_mismatches : Z)
    : M memo (list (nat * cost)) :=
  let n := length dna in
  let m := length motif in
  for_each (seq 0 (n + 1 - m)) [] (λ results start,
    mismatches ← min_mismatches dna motif start 0;
    if cost_le mismatches max_mismatches then
      mret (results ++ [(start, mismatches)])
    else mret results).

Definition find_dna_motifs (dna motif : str) (max_mismatches : Z)
    : result (list (nat * cost)) :=
  (find_dna_motifs_loop dna motif max_mismatches ∅).1.

(** The memo table after a sequence of calls of [min_mismatches]. *)
Definition after (dna motif : str) (history : list (nat * nat)) : memo :=
  foldl (λ s ij, (min_mismatches dna motif ij.1 ij.2 s).2) ∅ history.

End DnaMotif.

(** ** Pattern matcher i.py *)

Module PatternMatcher.

Abbreviation memo := (gmap (nat * nat) bool).

(** [memo[key] = v] *)
Definition memo_set (key : nat * nat) (v : bool) : M memo () := λ mem,
  (Ok (), <[key := v]> mem).

Fixpoint dfs (fuel : nat) (text pattern : str) (i j : nat) : M memo bool :=
  match fuel with
  | 0 => raise OutOfFuel
  | S fuel' => λ mem,
    match mem !! (i, j) with
    | Some b => (Ok b, mem)
    | None =>
      run
       (if decide (i = length text ∧ j = length pattern) then mret true
       else if decide (i = length text) then
         mret (all_stars (slice_from pattern j))
       else if decide (j = length pattern) then mret false
       else
         pj ← lift (index pattern j);
         match_ ←
           (if decide (pj = "*"%char) then
              a ← dfs fuel' text pattern i (j + 1);
              if (a : bool) then mret true
              else if decide (i < length text) then
                dfs fuel' text pattern (i + 1) j
              else mret false
            else
              c ← (if decide (pj = "?"%char) then mret true
                   else ti ← lift (index text i);
                        mret (bool_decide (pj = ti)));
              if (c : bool) then dfs fuel' text pattern (i + 1) (j + 1)
              else mret false);
         memo_set (i, j) match_;;
         mret match_)
       mem
    end
  end.

Definition wildcard_match (text pattern : str) : result bool :=
  (dfs (S (length text + length pattern)) text pattern 0 0 ∅).1.

End PatternMatcher.

(** ** Logic Labyrinth.py *)

Module Labyrinth.

(** [generate_code]; [shuffle] is what [random.shuffle] does to the list. *)
Definition generate_code (shuffle : list str → list str) : str :=
  let digits := (λ i : nat, s_ (pretty i)) <$> seq 1 6 in
  let digits := shuffle digits in
  mjoin (take 4 digits).

Definition get_feedback (secret guess : str) : result string :=
  hits ← mapM (λ i, g ← index guess i; s ← index secret i;
                    mret (bool_decide (g = s))) (seq 0 4);
  let a_count := length (filter (λ hit, hit = true) hits) in
  let b_count :=
    (Z.of_nat (length (filter (λ digit, digit ∈ secret) guess))
     - Z.of_nat a_count)%Z in
  mret (pretty a_count +:+ "A" +:+ pretty b_count +:+ "B").

(** What [play_game] prints after its banner, one event per message. *)
Inductive event : Type :=
| InvalidFormat   (* "Invalid: Must be 4 digits (1-6). Try again." *)
| InvalidDigits   (* "Invalid: Digits 1-6, no repeats." *)
| Feedback (feedback : string)
| Victory (secret : str) (attempts : nat) (score : Z)
| Hint (hint_digit : char)
| GameOver (secret : str) (final_score : Z).

(** The local variables that the loop of [play_game] updates. *)
Record locals : Type := mkLocals { score : Z; attempts : nat }.

Definition max_attempts : nat := 10.

(** [guess.isdigit()]: among the symbols below U+0100, Python counts as
    digits '0'..'9' and the superscripts U+00B2, U+00B3 and U+00B9. *)
Definition isdigit (guess : str) : Prop :=
  guess ≠ [] ∧
  Forall (λ c, c ∈ s_ "0123456789" ∨ c ∈ ascii_of_nat <$> [178; 179; 185])
         guess.

(** One turn of the [while] loop on [guess], the stripped line that
    [input] returned; [choice] is [random.choice].  The turn ends with the
    new locals, or with [None] when [play_game] returns. *)
Definition turn (choice : nat → str → char) (secret guess : str)
    (st : locals) : result (list event * option locals) :=
  if decide (length guess ≠ 4 ∨ ¬ isdigit guess) then
    mret ([InvalidFormat], Some st)
  else if decide (length (remove_dups guess) ≠ 4
                  ∨ ¬ Forall (λ d, d ∈ s_ "123456") guess) then
    mret ([InvalidDigits], Some st)
  else
    let attempts := attempts st + 1 in
    feedback ← get_feedback secret guess;
    if decide (feedback = "4A0B"%string) then
      mret ([Feedback feedback;
             Victory secret attempts
               (score st - (Z.of_nat attempts - 1) * 5)%Z], None)
    else
      let score := (score st - 5)%Z in
      mret (Feedback feedback
              :: (if decide (attempts mod 3 = 0)
                  then [Hint (choice attempts secret)] else []),
            Some (mkLocals score attempts)).

(** How a run on finitely many input lines ends. *)
Inductive status : Type :=
| Returned    (* play_game returned *)
| Waiting.    (* play_game waits in input() for a line *)

Fixpoint loop (choice : nat → str → char) (secret : str)
    (inputs : list str) (st : locals) : result (list event * status) :=
  if decide (attempts st < max_attempts) then
    match inputs with
    | [] => mret ([], Waiting)
    | guess :: inputs' =>
        r ← turn choice secret guess st;
        match r.2 with
        | None => mret (r.1, Returned)
        | Some st' =>
            r' ← loop choice secret inputs' st';
            mret (r.1 ++ r'.1, r'.2)
        end
    end
  else mret ([GameOver secret (Z.max (score st) 0)], Returned).

Definition play_game (shuffle : list str → list str)
    (choice : nat → str → char) (inputs : list str)
    : result (list event * status) :=
  let secret := generate_code shuffle in
  loop choice secret inputs (mkLocals 100 0).

End Labyrinth.

(** ** TicTacToe.py and Faster TicTacToe.py *)

(** Reading and updating the state. *)
Definition gets {St A} (f : St → A) : M St A := λ s, (Ok (f s), s).
Definition modify {St} (f : St → St) : M St () := λ s, (Ok (), f s).

(** [for x in l: ...] with an accumulator, where the body may [break]:
    it returns the new accumulator and whether it broke out. *)
Fixpoint for_each_break {St A B} (l : list A) (acc : B)
    (body : B → A → M St (B * bool)) : M St B :=
  match l with
  | [] => mret acc
  | x :: l' =>
      '(acc', stop) ← body acc x;
      if (stop : bool) then mret acc' else for_each_break l' acc' body
  end.

(** The scores: a Python int, [float('-inf')] or [float('inf')]. *)
Inductive num : Type :=
| NegInf
| Int (z : Z)
| PosInf.

#[global] Instance num_eq_dec : EqDecision num.
Proof. solve_decision. Defined.

(** [a < b] *)
Definition num_lt (a b : num) : bool :=
  match a, b with
  | NegInf, NegInf => false
  | NegInf, _ => true
  | Int _, NegInf => false
  | Int x, Int y => bool_decide (x < y)%Z
  | Int _, PosInf => true
  | PosInf, _ => false
  end.

(** [a <= b] *)
Definition num_le (a b : num) : bool := negb (num_lt b a).

(** [max(a, b)] and [min(a, b)]: the first argument wins a tie. *)
Definition num_max (a b : num) : num := if num_lt a b then b else a.
Definition num_min (a b : num) : num := if num_lt b a then b else a.

(** [a + k] for an int [k] *)
Definition num_add (a : num) (k : Z) : num :=
  match a with
  | Int z => Int (z + k)
  | _ => a
  end.

(** The methods that read [self.board] only; their text is the same in
    both files. *)
Module Board.

Definition blank : str := s_ " ".

(** [available_moves] *)
Definition available_moves (board : list str) : list nat :=
  fst <$> filter (λ p : nat * str, p.2 = blank) (imap pair board).

Definition lines : list (nat * nat * nat) :=
  [(0, 1, 2); (3, 4, 5); (6, 7, 8); (0, 3, 6); (1, 4, 7); (2, 5, 8);
   (0, 4, 8); (2, 4, 6)].

(** The loop of [check_winner]; the chained comparison
    [board[a] == board[b] == board[c] != ' '] evaluates its operands from
    the left and stops at the first comparison that fails. *)
Fixpoint first_line (board : list str) (ls : list (nat * nat * nat))
    : result (option str) :=
  match ls with
  | [] => Ok None
  | (a, b, c) :: ls' =>
      x ← index board a;
      y ← index board b;
      if decide (x = y) then
        z ← index board c;
        if decide (y = z) then
          if decide (z ≠ blank) then
            w ← index board a; mret (Some w)
          else first_line board ls'
        else first_line board ls'
      else first_line board ls'
  end.

(** [check_winner]: a mark, 'Draw' or None. *)
Definition check_winner (board : list str) : result (option str) :=
  w ← first_line board lines;
  match w with
  | Some mark => mret (Some mark)
  | None => mret (if decide (blank ∈ board) then None else Some (s_ "Draw"))
  end.

(** The position that [l[i]] denotes for a Python int [i]: a negative
    index counts from the end. *)
Definition position {A} (l : list A) (i : Z) : result nat :=
  if decide (0 ≤ i < Z.of_nat (length l))%Z then Ok (Z.to_nat i)
  else if decide (- Z.of_nat (length l) ≤ i < 0)%Z then
    Ok (Z.to_nat (Z.of_nat (length l) + i))
  else Raise IndexError.

End Board.

Module TicTacToe.

Record player_stats_t : Type := mkPlayerStats {
  aggressive : Z;
  defensive : Z;
  center_bias : Z
}.

Record game_stats_t : Type := mkGameStats {
  moves : Z;
  ai_wins : Z
}.

Record game : Type := mkGame {
  board : list str;
  current_player : str;
  ai_player : str;
  player_stats : player_stats_t;
  game_stats : game_stats_t
}.

(** [__init__] *)
Definition init : game :=
  mkGame (replicate 9 Board.blank) (s_ "X") (s_ "O")
    (mkPlayerStats 0 0 0) (mkGameStats 0 0).

Definition set_board (b : list str) (g : game) : game :=
  mkGame b (current_player g) (ai_player g) (player_stats g) (game_stats g).

Definition set_current_player (p : str) (g : game) : game :=
  mkGame (board g) p (ai_player g) (player_stats g) (game_stats g).

Definition set_player_stats (ps : player_stats_t) (g : game) : game :=
  mkGame (board g) (current_player g) (ai_player g) ps (game_stats g).

Definition set_game_stats (gs : game_stats_t) (g : game) : game :=
  mkGame (board g) (current_player g) (ai_player g) (player_stats g) gs.

(** [self.board[i] = mark] for a non-negative [i] *)
Definition board_set (i : nat) (mark : str) : M game () :=
  b ← gets board;
  b' ← lift (setitem b i mark);
  modify (set_board b').

Definition available_moves : M game (list nat) :=
  gets (λ g, Board.available_moves (board g)).

Definition make_move (position : Z) (player : str) : M game bool :=
  b ← gets board;
  p ← lift (Board.position b position);
  spot ← lift (index b p);
  if decide (spot = Board.blank) then
    board_set p player;;
    modify (set_current_player
              (if decide (player = s_ "X") then s_ "O" else s_ "X"));;
    modify (λ g, set_game_stats
                   (mkGameStats (moves (game_stats g) + 1)
                      (ai_wins (game_stats g))) g);;
    mret true
  else mret false.

Definition check_winner : M game (option str) :=
  b ← gets board; lift (Board.check_winner b).

Definition update_player_stats (move : Z) : M game () :=
  let center := 4%Z in
  let corners := [0; 2; 6; 8]%Z in
  modify (λ g,
    let ps := player_stats g in
    set_player_stats
      (if decide (move ∈ corners) then
         mkPlayerStats (aggressive ps + 1) (defensive ps) (center_bias ps)
       else if decide (move = center) then
         mkPlayerStats (aggressive ps) (defensive ps) (center_bias ps + 1)
       else
         mkPlayerStats (aggressive ps) (defensive ps + 1) (center_bias ps))
      g).

Definition evaluate_board : M game Z :=
  winner ← check_winner;
  ai ← gets ai_player;
  if decide (winner = Some ai) then mret 10%Z
  else if decide (winner = Some (s_ "X")) then mret (-10)%Z
  else mret 0%Z.

Fixpoint minimax_rec (fuel : nat) (depth : Z) (is_maximizing : bool)
    : M game num :=
  match fuel with
  | 0 => raise OutOfFuel
  | S fuel' =>
    result ← check_winner;
    ai ← gets ai_player;
    if decide (result = Some ai) then mret (Int (10 - depth))
    else if decide (result = Some (s_ "X")) then mret (Int (depth - 10))
    else if decide (result = Some (s_ "Draw")) then mret (Int 0)
    else if is_maximizing then
      moves ← available_moves;
      for_each moves NegInf (λ best_score move,
        ai ← gets ai_player;
        board_set move ai;;
        score ← minimax_rec fuel' (depth + 1) false;
        board_set move Board.blank;;
        mret (num_max score best_score))
    else
      moves ← available_moves;
      for_each moves PosInf (λ best_score move,
        board_set move (s_ "X");;
        score ← minimax_rec fuel' (depth + 1) true;
        board_set move Board.blank;;
        mret (num_min score best_score))
  end.

(** Every level of the recursion fills a blank square. *)
Definition minimax (depth : Z) (is_maximizing : bool) : M game num := λ g,
  minimax_rec (S (length (board g))) depth is_maximizing g.

Definition get_ai_move : M game (option nat) :=
  let best_score := NegInf in
  let best_move : option nat := None in
  let center := 4 in
  b ← gets board;
  spot ← lift (index b center);
  best ←
    (if decide (spot = Board.blank) then
       ai ← gets ai_player;
       board_set center ai;;
       score ← minimax 0 false;
       board_set center Board.blank;;
       if num_lt best_score score then mret (score, Some center)
       else mret (best_score, best_move)
     else mret (best_score, best_move));
  moves ← available_moves;
  best ← for_each moves best (λ best move,
    if decide (Some move = best.2) then mret best
    else
      ai ← gets ai_player;
      board_set move ai;;
      score ← minimax 0 false;
      board_set move Board.blank;;
      ps ← gets player_stats;
      let score :=
        if decide (aggressive ps > defensive ps)%Z then num_add score 1
        else score in
      if num_lt best.1 score then mret (score, Some move)
      else mret best);
  mret best.2.

End TicTacToe.

Module FasterTicTacToe.

Record player_stats_t : Type := mkPlayerStats {
  aggressive : Z;
  defensive : Z;
  center_bias : Z
}.

Record game_stats_t : Type := mkGameStats {
  moves : Z;
  ai_wins : Z;
  nodes_evaluated : Z
}.

Record game : Type := mkGame {
  board : list str;
  current_player : str;
  ai_player : str;
  player_stats : player_stats_t;
  game_stats : game_stats_t
}.

(** [__init__] *)
Definition init : game :=
  mkGame (replicate 9 Board.blank) (s_ "X") (s_ "O")
    (mkPlayerStats 0 0 0) (mkGameStats 0 0 0).

Definition set_board (b : list str) (g : game) : game :=
  mkGame b (current_player g) (ai_player g) (player_stats g) (game_stats g).

Definition set_nodes_evaluated (n : Z) (g : game) : game :=
  mkGame (board g) (current_player g) (ai_player g) (player_stats g)
    (mkGameStats (moves (game_stats g)) (ai_wins (game_stats g)) n).

(** [self.board[i] = mark] for a non-negative [i] *)
Definition board_set (i : nat) (mark : str) : M game () :=
  b ← gets board;
  b' ← lift (setitem b i mark);
  modify (set_board b').

Definition available_moves : M game (list nat) :=
  gets (λ g, Board.available_moves (board g)).

Definition check_winner : M game (option str) :=
  b ← gets board; lift (Board.check_winner b).

Fixpoint minimax_alpha_beta_rec (fuel : nat) (depth : Z) (alpha beta : num)
    (is_maximizing : bool) : M game num :=
  match fuel with
  | 0 => raise OutOfFuel
  | S fuel' =>
    modify (λ g, set_nodes_evaluated (nodes_evaluated (game_stats g) + 1) g);;
    result ← check_winner;
    ai ← gets ai_player;
    if decide (result = Some ai) then mret (Int (10 - depth))
    else if decide (result = Some (s_ "X")) then mret (Int (depth - 10))
    else if decide (result = Some (s_ "Draw")) then mret (Int 0)
    else if is_maximizing then
      moves ← available_moves;
      r ← for_each_break moves (NegInf, alpha) (λ acc move,
        let max_eval := acc.1 in
        let alpha := acc.2 in
        ai ← gets ai_player;
        board_set move ai;;
        eval_score ← minimax_alpha_beta_rec fuel' (depth + 1) alpha beta false;
        board_set move Board.blank;;
        let max_eval := num_max max_eval eval_score in
        let alpha := num_max alpha eval_score in
        mret ((max_eval, alpha), num_le beta alpha));
      mret r.1
    else
      moves ← available_moves;
      r ← for_each_break moves (PosInf, beta) (λ acc move,
        let min_eval := acc.1 in
        let beta := acc.2 in
        board_set move (s_ "X");;
        eval_score ← minimax_alpha_beta_rec fuel' (depth + 1) alpha beta true;
        board_set move Board.blank;;
        let min_eval := num_min min_eval eval_score in
        let beta := num_min beta eval_score in
        mret ((min_eval, beta), num_le beta alpha));
      mret r.1
  end.

(** Every level of the recursion fills a blank square. *)
Definition minimax_alpha_beta (depth : Z) (alpha beta : num)
    (is_maximizing : bool) : M game num := λ g,
  minimax_alpha_beta_rec (S (length (board g))) depth alpha beta
    is_maximizing g.

(** The scores that [get_ai_move] compares: after the bonus [+= 0.5] a
    score is a float.  The ints involved are small, so the float sum is
    exact, and a rational stands for it. *)
Inductive fnum : Type :=
| FNegInf
| FNum (q : QArith_base.Q)
| FPosInf.

Definition fnum_of (n : num) : fnum :=
  match n with
  | NegInf => FNegInf
  | Int z => FNum (QArith_base.inject_Z z)
  | PosInf => FPosInf
  end.

(** [a + 0.5] *)
Definition fnum_add_half (a : fnum) : fnum :=
  match a with
  | FNum q => FNum (QArith_base.Qplus q (QArith_base.Qmake 1 2))
  | _ => a
  end.

(** [a > b] *)
Definition fnum_gt (a b : fnum) : bool :=
  match a, b with
  | FNegInf, _ => false
  | FNum _, FNegInf => true
  | FNum x, FNum y => if QArith_base.Qlt_le_dec y x then true else false
  | FNum _, FPosInf => false
  | FPosInf, FPosInf => false
  | FPosInf, _ => true
  end.

Definition get_ai_move : M game (option nat) :=
  let best_score := FNegInf in
  let best_move : option nat := None in
  modify (set_nodes_evaluated 0);;
  moves ← available_moves;
  best ← for_each moves (best_score, best_move) (λ best move,
    ai ← gets ai_player;
    board_set move ai;;
    board_score ← minimax_alpha_beta 0 NegInf PosInf false;
    board_set move Board.blank;;
    ps ← gets player_stats;
    let board_score :=
      if decide (aggressive ps > defensive ps)%Z
      then fnum_add_half (fnum_of board_score)
      else fnum_of board_score in
    if fnum_gt board_score best.1 then mret (board_score, Some move)
    else mret best);
  mret best.2.

End FasterTicTacToe.

(** ** TicTacToe.py: play_game *)

Module TicTacToePlay.
Import TicTacToe.

(** How a run of [play_game] on finitely many input lines stands. *)
Inductive outcome : Type :=
| Waiting          (* in input(), for the next line *)
| YouWin           (* printed "YOU WIN!" and returned *)
| AiWins           (* printed "AI WINS!" and returned *)
| NameError        (* raised by the name [self] in [result == self.ai_player] *)
| TypeError        (* raised by a move that is None *)
| Raised (e : exn).

(** [if result:] for a string or None *)
Definition truthy (result : option str) : bool :=
  match result with
  | None => false
  | Some w => bool_decide (w ≠ [])
  end.

(** One pass of the inner loop on a line read by [input]: [None] is a
    line that [int] rejects with ValueError.  Returns whether the loop
    breaks. *)
Definition player_input (line : option Z) : M game bool :=
  match line with
  | None => mret false
  | Some move =>
      if decide (0 ≤ move ≤ 8)%Z then
        ok ← make_move move (s_ "X");
        if (ok : bool) then update_player_stats move;; mret true
        else mret false
      else mret false
  end.

(** The rest of the outer loop after the player's move: [Some] is how
    [play_game] ends, [None] that the loop goes on.  When the result is
    not 'X', the comparison [result == self.ai_player] is evaluated next,
    and [self] is not defined in [play_game]. *)
Definition after_player_move (g : game) : outcome * game + game :=
  match check_winner g with
  | (Raise e, g) => inl (Raised e, g)
  | (Ok result, g) =>
    if truthy result then
      if decide (result = Some (s_ "X")) then inl (YouWin, g)
      else inl (NameError, g)
    else
      match get_ai_move g with
      | (Raise e, g) => inl (Raised e, g)
      | (Ok None, g) => inl (TypeError, g)
      | (Ok (Some ai_move), g) =>
        match make_move (Z.of_nat ai_move) (ai_player g) g with
        | (Raise e, g) => inl (Raised e, g)
        | (Ok _, g) =>
          match check_winner g with
          | (Raise e, g) => inl (Raised e, g)
          | (Ok result, g) =>
            if truthy result then
              inl (AiWins,
                   set_game_stats
                     (mkGameStats (moves (game_stats g))
                        (ai_wins (game_stats g) + 1)) g)
            else inr g
          end
        end
      end
  end.

(** The loops of [play_game] on the lines [inputs], from the game [g]. *)
Fixpoint play (inputs : list (option Z)) (g : game) : outcome * game :=
  match inputs with
  | [] => (Waiting, g)
  | line :: inputs' =>
      match player_input line g with
      | (Raise e, g) => (Raised e, g)
      | (Ok false, g) => play inputs' g
      | (Ok true, g) =>
          match after_player_move g with
          | inl r => r
          | inr g => play inputs' g
          end
      end
  end.

Definition play_game (inputs : list (option Z)) : outcome * game :=
  play inputs init.

End TicTacToePlay.

(** ** Library management system.py *)

Module Library.

Record Book : Type := mkBook {
  book_id : Z;
  title : str;
  author : str;
  isbn : str;
  price : QArith_base.Q;   (* a float that is stored and never used *)
  status : str
}.

Record User : Type := mkUser {
  user_id : Z;
  name : str;
  email : str;
  phone : str;
  borrowed_books : list Z
}.

Record Transaction : Type := mkTransaction {
  trans_id : Z;
  trans_user_id : Z;
  trans_book_id : Z;
  issue_date : str;
  return_date : option str;
  fine : QArith_base.Q     (* 0 or 5.0 *)
}.

(** The state of a LibraryManagementSystem. *)
Record library : Type := mkLibrary {
  books : list Book;
  users : list User;
  transactions : list Transaction;
  next_book_id : Z;
  next_user_id : Z;
  next_trans_id : Z
}.

(** [__init__] *)
Definition init : library := mkLibrary [] [] [] 1 1 1.

(** What a method prints, or the exception it raises. *)
Inductive message : Type :=
| BookAdded (title : str)
| UserRegistered (name : str)
| InvalidUserOrBook
| BookNotAvailable
| BookIssued (name : str)
| InvalidTransaction
| BookNotFound
| BookReturned (fine : QArith_base.Q)
| UserNotFound
| UserBooks (name : str) (lines : list Book)
| StopIteration (lines : list Book).   (* raised by [next] without default *)

(** [next((x for x in l if P x), None)]: the first match and its place *)
Definition first_match {A} (P : A → Prop) `{∀ x, Decision (P x)}
    (l : list A) : option (nat * A) :=
  list_find P l.

(** [l.remove(x)] for an [x] that is in [l] *)
Fixpoint remove_first (x : Z) (l : list Z) : list Z :=
  match l with
  | [] => []
  | y :: l' => if decide (y = x) then l' else y :: remove_first x l'
  end.

Definition add_book (title author isbn : str) (price : QArith_base.Q)
    (lib : library) : message * library :=
  let book := mkBook (next_book_id lib) title author isbn price
                (s_ "Available") in
  (BookAdded title,
   mkLibrary (books lib ++ [book]) (users lib) (transactions lib)
     (next_book_id lib + 1) (next_user_id lib) (next_trans_id lib)).

Definition register_user (name email phone : str) (lib : library)
    : message * library :=
  let user := mkUser (next_user_id lib) name email phone [] in
  (UserRegistered name,
   mkLibrary (books lib) (users lib ++ [user]) (transactions lib)
     (next_book_id lib) (next_user_id lib + 1) (next_trans_id lib)).

Definition issue_book (uid bid : Z) (lib : library) : message * library :=
  match first_match (λ u, user_id u = uid) (users lib),
        first_match (λ b, book_id b = bid) (books lib) with
  | Some (iu, user), Some (ib, book) =>
      if decide (status book ≠ s_ "Available") then (BookNotAvailable, lib)
      else
        let trans := mkTransaction (next_trans_id lib) uid bid
                       (s_ "2026-01-29") None (QArith_base.inject_Z 0) in
        let book' := mkBook (book_id book) (title book) (author book)
                       (isbn book) (price book) (s_ "Issued") in
        let user' := mkUser (user_id user) (name user) (email user)
                       (phone user) (borrowed_books user ++ [bid]) in
        (BookIssued (name user),
         mkLibrary (<[ib := book']> (books lib)) (<[iu := user']> (users lib))
           (transactions lib ++ [trans])
           (next_book_id lib) (next_user_id lib) (next_trans_id lib + 1))
  | _, _ => (InvalidUserOrBook, lib)
  end.

Definition return_book (tid : Z) (lib : library) : message * library :=
  match first_match (λ t, trans_id t = tid) (transactions lib) with
  | None => (InvalidTransaction, lib)
  | Some (it, trans) =>
    match first_match (λ b, book_id b = trans_book_id trans) (books lib) with
    | None => (BookNotFound, lib)
    | Some (ib, book) =>
      let book' := mkBook (book_id book) (title book) (author book)
                     (isbn book) (price book) (s_ "Available") in
      let trans' := mkTransaction (trans_id trans) (trans_user_id trans)
                      (trans_book_id trans) (issue_date trans)
                      (Some (s_ "2026-02-05")) (QArith_base.inject_Z 5) in
      let books' := <[ib := book']> (books lib) in
      let transactions' := <[it := trans']> (transactions lib) in
      match first_match (λ u, user_id u = trans_user_id trans) (users lib)
      with
      | None =>
          (StopIteration [],
           mkLibrary books' (users lib) transactions'
             (next_book_id lib) (next_user_id lib) (next_trans_id lib))
      | Some (iu, user) =>
          let user' :=
            if decide (trans_book_id trans ∈ borrowed_books user) then
              mkUser (user_id user) (name user) (email user) (phone user)
                (remove_first (trans_book_id trans) (borrowed_books user))
            else user in
          (BookReturned (fine trans'),
           mkLibrary books' (<[iu := user']> (users lib)) transactions'
             (next_book_id lib) (next_user_id lib) (next_trans_id lib))
      end
    end
  end.

(** The loop of [show_user_books]: the books printed so far, and whether
    [next] found the following one. *)
Fixpoint borrowed_lines (bks : list Book) (ids : list Z) (printed : list Book)
    : list Book * bool :=
  match ids with
  | [] => (printed, true)
  | bid :: ids' =>
      match first_match (λ b, book_id b = bid) bks with
      | None => (printed, false)
      | Some (_, book) => borrowed_lines bks ids' (printed ++ [book])
      end
  end.

Definition show_user_books (uid : Z) (lib : library) : message :=
  match first_match (λ u, user_id u = uid) (users lib) with
  | None => UserNotFound
  | Some (_, user) =>
      let r := borrowed_lines (books lib) (borrowed_books user) [] in
      if r.2 then UserBooks (name user) r.1 else StopIteration r.1
  end.

(** A call of one of the methods. *)
Inductive call : Type :=
| AddBook (title author isbn : str) (price : QArith_base.Q)
| RegisterUser (name email phone : str)
| IssueBook (uid bid : Z)
| ReturnBook (tid : Z)
| ShowUserBooks (uid : Z).

Definition run_call (c : call) (lib : library) : message * library :=
  match c with
  | AddBook title author isbn price => add_book title author isbn price lib
  | RegisterUser name email phone => register_user name email phone lib
  | IssueBook uid bid => issue_book uid bid lib
  | ReturnBook tid => return_book tid lib
  | ShowUserBooks uid => (show_user_books uid lib, lib)
  end.

(** The library after a sequence of calls on a new system. *)
Definition after (history : list call) : library :=
  foldl (λ lib c, (run_call c lib).2) init history.

End Library.

(** * Specification vocabulary *)

(** ** KMP: borders, the prefix table and the loop invariants *)

Import KMP.

(** [sm T P k e]: the first [k] symbols of [P] are the [k] symbols of [T]
    that end just before position [e]. *)
Definition sm (T P : str) (k e : nat) : Prop :=
  k ≤ e ∧ e ≤ length T ∧ k ≤ length P ∧
  ∀ t, t < k → P !! t = T !! (e - k + t).

(** [v] is the length of the longest proper border of [P[0:q]]. *)
Definition is_pi (P : str) (q v : nat) : Prop :=
  v < q ∧ sm P P v q ∧ ∀ k, k < q → sm P P k q → k ≤ v.

Definition lps_ok (P : str) (lps : list nat) (i : nat) : Prop :=
  ∀ q, 1 ≤ q ≤ i → ∃ v, lps !! (q - 1) = Some v ∧ is_pi P q v.

Definition lps_inv (P : str) (st : lps_state) : Prop :=
  let '(lps, len, i) := st in
  length lps = length P ∧ 1 ≤ i ≤ length P ∧ len < i ∧ sm P P len i ∧
  lps_ok P lps i ∧ ∀ k, k ≤ i → sm P P k (S i) → k ≤ S len.

Definition lps_mu (P : str) (st : lps_state) : nat :=
  let '(_, len, i) := st in 2 * length P + len - 2 * i.

(** The occurrences of [P] in [T] that end at or before position [e],
    in ascending order. *)
Definition occs (T P : str) (e : nat) : list nat :=
  filter (λ s, slice T s (s + length P) = P) (seq 0 (S e - length P)).

Definition search_inv (T P : str) (st : search_state) : Prop :=
  let '(i, j, matches) := st in
  i ≤ length T ∧ j < length P ∧ sm T P j i ∧
  (∀ k, 1 ≤ k → sm T P k (S i) → k ≤ S j) ∧
  matches = occs T P i.

Definition search_mu (T : str) (st : search_state) : nat :=
  let '(i, j, _) := st in 2 * length T + j - 2 * i.

(** ** The recurrences behind the memoised functions

    [wm_pure] and [md_pure] are the bodies of the wildcard matcher and of
    the motif scanner without counter and cache; [wm_value] and [md_value]
    run them with enough fuel.  The caches are valid when they only hold
    such values. *)

Fixpoint wm_pure (fuel : nat) (text pattern : str) (i j : nat)
    : result bool :=
  match fuel with
  | 0 => Raise OutOfFuel
  | S fuel' =>
    if decide (i = length text ∧ j = length pattern) then Ok true
    else if decide (i = length text) then
      Ok (all_stars (slice_from pattern j))
    else if decide (j = length pattern) then Ok false
    else
      pj ← index pattern j;
      if decide (pj = "*"%char) then
        a ← wm_pure fuel' text pattern i (j + 1);
        if (a : bool) then Ok true
        else if decide (i < length text) then
          wm_pure fuel' text pattern (i + 1) j
        else Ok false
      else
        c ← (if decide (pj = "?"%char) then Ok true
             else ti ← index text i; Ok (bool_decide (pj = ti)));
        if (c : bool) then wm_pure fuel' text pattern (i + 1) (j + 1)
        else Ok false
  end.

Definition wm_mu (text pattern : str) (i j : nat) : nat :=
  (length pattern - j) + (length text - i).

Definition wm_value (text pattern : str) (i j : nat) : result bool :=
  wm_pure (S (wm_mu text pattern i j)) text pattern i j.

Fixpoint md_pure (fuel : nat) (dna motif : str) (i j : nat)
    : result cost :=
  match fuel with
  | 0 => Raise OutOfFuel
  | S fuel' =>
    if decide (j = length motif) then Ok (Fin 0)
    else if decide (Z.of_nat i + Z.of_nat (length motif) - Z.of_nat j
                    > Z.of_nat (length dna))%Z then Ok Inf
    else
      d ← index dna i;
      c ← index motif j;
      a ← md_pure fuel' dna motif (i + 1) (j + 1);
      b ← md_pure fuel' dna motif (i + 1) j;
      Ok (cost_min (cost_add (mismatch d c) a) b)
  end.

Definition md_value (dna motif : str) (i j : nat) : result cost :=
  md_pure (S (length dna - i)) dna motif i j.

(** [returns m inv r]: from every state that satisfies [inv], the
    computation [m] yields [r] and a state that satisfies [inv]. *)
Definition returns {St A} (m : M St A) (inv : St → Prop) (r : result A)
    : Prop :=
  ∀ s, inv s → ∃ s', m s = (r, s') ∧ inv s'.

(** [det m inv]: from the states that satisfy [inv], the value that [m]
    returns does not depend on the state. *)
Definition det {St A} (m : M St A) (inv : St → Prop) : Prop :=
  ∃ r, returns m inv r.

Definition cache_ok {K V} (spec : K → result V) (c : list (K * V)) : Prop :=
  ∀ k v, (k, v) ∈ c → spec k = Ok v.

Definition wm_spec (k : Matcher.key) : result bool :=
  let '(text, pattern, i, j) := k in wm_value text pattern i j.

Definition md_spec (k : Matcher.key) : result cost :=
  let '(dna, motif, i, j) := k in md_value dna motif i j.

(** The invariant of the matcher's hidden state. *)
Definition valid (s : Matcher.state) : Prop :=
  cache_ok wm_spec (Matcher.wm_cache s) ∧
  cache_ok md_spec (Matcher.md_cache s).

(** The invariants of the two stand-alone memo tables. *)
Definition md_memo_ok (dna motif : str) (s : DnaMotif.memo) : Prop :=
  ∀ i j v, s !! (i, j) = Some v → md_value dna motif i j = Ok v.

Definition wm_memo_ok (text pattern : str) (s : PatternMatcher.memo) : Prop :=
  ∀ i j b, s !! (i, j) = Some b → wm_value text pattern i j = Ok b.

(** The exact matcher and the fuzzy scanner at distance 0 agree on [T] and
    [P]: same start offsets, every fuzzy score 0. *)
Definition kmp_fuzzy_agree (T P : str) : Prop :=
  ∃ L, kmp_search T P = Ok L ∧
       (∀ s, s ∈ L ↔ s ∈ start_pos <$> Matcher.fuzzy_regex_search T P 0) ∧
       Forall (λ r, score r = 0) (Matcher.fuzzy_regex_search T P 0).

(** The recurrence of the motif scanner, for a function [call] of the two
    positions.  The motif is consumed: 0.  Fewer than [|motif| - j] symbols
    remain from [i]: unreachable.  Otherwise, with [d] the symbol at [i],
    [c] the motif symbol at [j], [a] the value at [(i+1, j+1)] and [b] the
    value at [(i+1, j)]: the mismatch cost is 0 when [d = c] and 1 when
    they differ, the aligned candidate is that cost plus [a] (unreachable
    when [a] is), and the value is the smaller of the aligned candidate and
    [b], where unreachable is larger than every number. *)
Definition motif_recurrence (dna motif : str)
    (call : nat → nat → result cost) (i j : nat) : Prop :=
  (j = length motif → call i j = Ok (Fin 0)) ∧
  (j < length motif → length dna < i + (length motif - j) →
   call i j = Ok Inf) ∧
  (j < length motif → i + (length motif - j) ≤ length dna →
   ∃ d c a b,
     dna !! i = Some d ∧ motif !! j = Some c ∧
     call (i + 1) (j + 1) = Ok a ∧ call (i + 1) j = Ok b ∧
     let k := if decide (d = c) then 0 else 1 in
     call i j = Ok match a, b with
                   | Fin x, Fin y => Fin (Nat.min (k + x) y)
                   | Fin x, Inf => Fin (k + x)
                   | Inf, Fin y => Fin y
                   | Inf, Inf => Inf
                   end).

(** [glob text pattern]: the text matches the pattern, where '?' stands for
    exactly one symbol and '*' for any sequence of symbols. *)
Inductive glob : str → str → Prop :=
| glob_nil : glob [] []
| glob_one c t p : glob t p → glob (c :: t) ("?"%char :: p)
| glob_lit c t p : c ≠ "*"%char → glob t p → glob (c :: t) (c :: p)
| glob_star s t p : glob t p → glob (s ++ t) ("*"%char :: p).

(** The same, as a function by recursion on the pattern and on the text. *)
Fixpoint glob_b (p : str) : str → bool :=
  match p with
  | [] => λ t, bool_decide (t = [])
  | c :: p' =>
    if decide (c = "*"%char) then
      fix star (t : str) : bool :=
        glob_b p' t || match t with [] => false | _ :: t' => star t' end
    else λ t,
      match t with
      | [] => false
      | d :: t' =>
          (bool_decide (c = "?"%char) || bool_decide (c = d)) && glob_b p' t'
      end
  end.

(** The order on costs: float('inf') is the largest. *)
Definition cost_leq (a b : cost) : Prop :=
  match a, b with
  | _, Inf => True
  | Fin x, Fin y => x ≤ y
  | Inf, Fin _ => False
  end.

(** The motif recurrence on the rest of the corpus and the rest of the
    motif. *)
Fixpoint mm (d : str) : str → cost :=
  match d with
  | [] => λ m, match m with [] => Fin 0 | _ :: _ => Inf end
  | x :: d' => λ m,
      match m with
      | [] => Fin 0
      | c :: m' =>
          if decide (length d' < length m') then Inf
          else cost_min (cost_add (mismatch x c) (mm d' m')) (mm d' m)
      end
  end.

(** The sections of the report, for one pattern. *)
Definition wildcard_hits (text p : str) : list (nat * str) :=
  omap (λ start,
          if glob_b p (drop start text)
          then Some (start, slice text start (start + 10) ++ s_ "...")
          else None)
       (seq 0 (length text)).

Definition motif_hits (text p : str) (k : Z) : list (nat * nat) :=
  omap (λ start,
          match mm (drop start text) p with
          | Fin d => if bool_decide (Z.of_nat d ≤ k)%Z then Some (start, d)
                     else None
          | Inf => None
          end)
       (seq 0 (length text + 1 - length p)).

Definition kmp_offsets (text p : str) : list nat :=
  if decide (p = []) then [] else occs text p (length text).

(** ** The counters of [self.stats] *)

(** The computation [m] only moves the state along [R]. *)
Definition keeps {St A} (R : relation St) (m : M St A) : Prop :=
  ∀ s, R s (m s).2.

(** "calls" may grow, the other two counters stay. *)
Definition stats_grow : relation Matcher.state := λ s s',
  Matcher.calls s ≤ Matcher.calls s' ∧
  Matcher.cache_hits s' = Matcher.cache_hits s ∧
  Matcher.total_time s' = Matcher.total_time s.

(** All three counters stay. *)
Definition stats_same : relation Matcher.state := λ s s',
  Matcher.calls s' = Matcher.calls s ∧
  Matcher.cache_hits s' = Matcher.cache_hits s ∧
  Matcher.total_time s' = Matcher.total_time s.

(** ** The two minimax searches as functions of the board *)

(** The number of blank squares. *)
Definition blanks (board : list str) : nat :=
  length (filter (λ spot, spot = Board.blank) board).

(** What [minimax] computes, as a function of the board.  Where the code
    would raise, the value is 0; on a board of 9 squares it does not. *)
Fixpoint minimax_value (fuel : nat) (ai : str) (board : list str)
    (depth : Z) (is_maximizing : bool) : num :=
  match fuel with
  | 0 => Int 0
  | S fuel' =>
    match Board.check_winner board with
    | Raise _ => Int 0
    | Ok result =>
      if decide (result = Some ai) then Int (10 - depth)
      else if decide (result = Some (s_ "X")) then Int (depth - 10)
      else if decide (result = Some (s_ "Draw")) then Int 0
      else if is_maximizing then
        foldl (λ best_score move,
                 num_max (minimax_value fuel' ai (<[move := ai]> board)
                            (depth + 1) false) best_score)
              NegInf (Board.available_moves board)
      else
        foldl (λ best_score move,
                 num_min (minimax_value fuel' ai (<[move := s_ "X"]> board)
                            (depth + 1) true) best_score)
              PosInf (Board.available_moves board)
    end
  end.

(** A [for] loop with [break], without state. *)
Fixpoint loop_break {A B} (l : list A) (acc : B) (body : B → A → B * bool)
    : B :=
  match l with
  | [] => acc
  | x :: l' =>
      let r := body acc x in
      if r.2 then r.1 else loop_break l' r.1 body
  end.

(** What [minimax_alpha_beta] computes, as a function of the board. *)
Fixpoint alpha_beta_value (fuel : nat) (ai : str) (board : list str)
    (depth : Z) (alpha beta : num) (is_maximizing : bool) : num :=
  match fuel with
  | 0 => Int 0
  | S fuel' =>
    match Board.check_winner board with
    | Raise _ => Int 0
    | Ok result =>
      if decide (result = Some ai) then Int (10 - depth)
      else if decide (result = Some (s_ "X")) then Int (depth - 10)
      else if decide (result = Some (s_ "Draw")) then Int 0
      else if is_maximizing then
        (loop_break (Board.available_moves board) (NegInf, alpha)
           (λ acc move,
              let eval_score :=
                alpha_beta_value fuel' ai (<[move := ai]> board)
                  (depth + 1) acc.2 beta false in
              ((num_max acc.1 eval_score, num_max acc.2 eval_score),
               num_le beta (num_max acc.2 eval_score)))).1
      else
        (loop_break (Board.available_moves board) (PosInf, beta)
           (λ acc move,
              let eval_score :=
                alpha_beta_value fuel' ai (<[move := s_ "X"]> board)
                  (depth + 1) alpha acc.2 true in
              ((num_min acc.1 eval_score, num_min acc.2 eval_score),
               num_le (num_min acc.2 eval_score) alpha))).1
    end
  end.

(** The boards of a game in progress: 9 squares that are blank or hold
    the mark of the player, 'X', or the mark of the AI. *)
Definition board_ok (ai : str) (board : list str) : Prop :=
  length board = 9 ∧ ai ≠ Board.blank ∧
  Forall (λ spot, spot = Board.blank ∨ spot = s_ "X" ∨ spot = ai) board.

(** The score that [get_ai_move] gives to a square: what [minimax] returns
    once the AI's mark is on it. *)
Definition reply_score (g : TicTacToe.game) (move : nat) : result num :=
  (TicTacToe.minimax 0 false
     (TicTacToe.set_board
        (<[move := TicTacToe.ai_player g]> (TicTacToe.board g)) g)).1.

(** One turn of the loop of [get_ai_move], for the scores [z] of the
    squares and the bonus [bonus] of an aggressive player. *)
Definition pick (z : nat → Z) (bonus : Z) (best : num * option nat)
    (move : nat) : num * option nat :=
  if decide (Some move = best.2) then best
  else if num_lt best.1 (Int (z move + bonus)) then
    (Int (z move + bonus), Some move)
  else best.

(** What the loop has established after the squares [seen]. *)
Definition pick_inv (z : nat → Z) (bonus : Z) (seen : list nat)
    (best : num * option nat) : Prop :=
  match best.2 with
  | None => best.1 = NegInf ∧ seen = []
  | Some m =>
      ∃ s, best.1 = Int s ∧ (z m ≤ s ≤ z m + bonus)%Z ∧
           ∀ m', m' ∈ seen → (z m' ≤ z m)%Z
  end.

(** What a search with the window [(alpha, beta)] that returned [r] says
    about the minimax value [v]: below the window [r] bounds [v] from
    above, above the window from below, inside the window it is [v]. *)
Definition window_ok (alpha beta r v : num) : Prop :=
  (num_le r alpha = true → num_le v r = true) ∧
  (num_lt alpha r = true → num_lt r beta = true → v = r) ∧
  (num_le beta r = true → num_le r v = true).

(** The games that differ from [g] in [game_stats["nodes_evaluated"]]
    only. *)
Definition same_game (g s : FasterTicTacToe.game) : Prop :=
  ∃ n, s = FasterTicTacToe.set_nodes_evaluated n g.

(** The score that [get_ai_move] of Faster TicTacToe.py gives to a
    square, before the bonus. *)
Definition pruned_reply_score (g : FasterTicTacToe.game) (move : nat)
    : result num :=
  (FasterTicTacToe.minimax_alpha_beta 0 NegInf PosInf false
     (FasterTicTacToe.set_board
        (<[move := FasterTicTacToe.ai_player g]> (FasterTicTacToe.board g))
        g)).1.

(** The score after the bonus. *)
Definition with_bonus (bonus : bool) (z : Z) : FasterTicTacToe.fnum :=
  if bonus then FasterTicTacToe.fnum_add_half (FasterTicTacToe.fnum_of (Int z))
  else FasterTicTacToe.fnum_of (Int z).

(** One turn of the loop of that [get_ai_move]. *)
Definition fpick (z : nat → Z) (bonus : bool)
    (best : FasterTicTacToe.fnum * option nat) (move : nat)
    : FasterTicTacToe.fnum * option nat :=
  if FasterTicTacToe.fnum_gt (with_bonus bonus (z move)) best.1
  then (with_bonus bonus (z move), Some move) else best.

(** What the loop has established after the squares [seen]. *)
Definition fpick_inv (z : nat → Z) (bonus : bool) (seen : list nat)
    (best : FasterTicTacToe.fnum * option nat) : Prop :=
  match best.2 with
  | None => best.1 = FasterTicTacToe.FNegInf ∧ seen = []
  | Some m =>
      best.1 = with_bonus bonus (z m) ∧
      ∃ before after, seen = before ++ m :: after ∧
        (∀ m', m' ∈ before → (z m' < z m)%Z) ∧
        (∀ m', m' ∈ after → (z m' ≤ z m)%Z)
  end.

(** Two scores on the same side of 0. *)
Definition same_sign (z z' : Z) : Prop :=
  ((0 < z)%Z ↔ (0 < z')%Z) ∧ ((z < 0)%Z ↔ (z' < 0)%Z).

(** The games in which it is the player's turn and the player cannot
    force a win: the board is open and its minimax value is not negative. *)
Definition ai_safe (g : TicTacToe.game) : Prop :=
  TicTacToe.ai_player g = s_ "O" ∧
  board_ok (s_ "O") (TicTacToe.board g) ∧
  Board.check_winner (TicTacToe.board g) = Ok None ∧
  ∃ z, minimax_value 10 (s_ "O") (TicTacToe.board g) 0 false = Int z ∧
       (0 ≤ z)%Z.

(** ** The references inside a library *)

(** Every transaction names a registered user and an existing book, and
    every borrowed id an existing book. *)
Definition lib_ok (lib : Library.library) : Prop :=
  (∀ t, t ∈ Library.transactions lib →
     Library.trans_user_id t ∈ Library.user_id <$> Library.users lib ∧
     Library.trans_book_id t ∈ Library.book_id <$> Library.books lib) ∧
  (∀ u bid, u ∈ Library.users lib → bid ∈ Library.borrowed_books u →
     bid ∈ Library.book_id <$> Library.books lib).

(** * Lemmas *)

(** ** Generic facts *)

Lemma index_Ok {A} (l : list A) i x : l !! i = Some x → index l i = Ok x.
Proof. unfold index. by intros ->. Qed.

Lemma index_lt {A} (l : list A) i :
  i < length l → ∃ x, l !! i = Some x ∧ index l i = Ok x.
Proof.
  intros Hi. destruct (lookup_lt_is_Some_2 l i Hi) as [x Hx].
  exists x. split; [done | by apply index_Ok].
Qed.

Lemma while_inv {St} (I : St → Prop) (mu : St → nat) cond body :
  (∀ s, I s → cond s = true → ∃ s', body s = Ok s' ∧ I s' ∧ mu s' < mu s) →
  ∀ fuel s, I s → mu s ≤ fuel →
    ∃ s', while fuel cond body s = Ok s' ∧ I s' ∧ cond s' = false.
Proof.
  intros Hstep fuel. induction fuel as [|fuel IH]; intros s HI Hmu; simpl.
  - destruct (cond s) eqn:Hc; [|by eauto].
    destruct (Hstep s HI Hc) as (s' & _ & _ & ?). lia.
  - destruct (cond s) eqn:Hc; [|by eauto].
    destruct (Hstep s HI Hc) as (s' & -> & HI' & Hlt). simpl.
    apply IH; [done | lia].
Qed.

(** ** KMP *)

Lemma sm_zero T P e : e ≤ length T → sm T P 0 e.
Proof. intros. repeat split; [lia.. | intros; lia]. Qed.

Lemma sm_compose T P j e k : sm T P j e → sm P P k j → sm T P k e.
Proof.
  intros (? & ? & ? & Hj) (? & ? & ? & Hk). repeat split; [lia..|].
  intros t Ht. rewrite (Hk t Ht), (Hj (j - k + t)) by lia.
  f_equal; lia.
Qed.

Lemma sm_restrict T P j e k : sm T P j e → sm T P k e → k ≤ j → sm P P k j.
Proof.
  intros (? & ? & ? & Hj) (? & ? & ? & Hk) ?. repeat split; [lia..|].
  intros t Ht. rewrite (Hk t Ht), (Hj (j - k + t)) by lia.
  f_equal; lia.
Qed.

Lemma sm_pred T P k e : sm T P (S k) (S e) → sm T P k e.
Proof.
  intros (? & ? & ? & Hk). repeat split; [lia..|].
  intros t Ht. rewrite (Hk t) by lia. f_equal; lia.
Qed.

Lemma sm_last T P k e : sm T P (S k) (S e) → P !! k = T !! e.
Proof.
  intros (? & ? & ? & Hk). rewrite (Hk k) by lia. f_equal; lia.
Qed.

Lemma sm_snoc T P k e :
  sm T P k e → P !! k = T !! e → k < length P → e < length T →
  sm T P (S k) (S e).
Proof.
  intros (? & ? & ? & Hk) Heq ? ?. repeat split; [lia..|].
  intros t Ht. destruct (decide (t = k)) as [->|].
  - rewrite Heq. f_equal; lia.
  - rewrite (Hk t) by lia. f_equal; lia.
Qed.

Lemma lps_ok_insert P lps i v :
  length lps = length P → i < length P →
  lps_ok P lps i → is_pi P (S i) v → lps_ok P (<[i:=v]> lps) (S i).
Proof.
  intros Hlen Hi Hok Hpi q Hq. destruct (decide (q = S i)) as [->|].
  - exists v. split; [|done].
    replace (S i - 1) with i by lia. apply list_lookup_insert_eq. lia.
  - destruct (Hok q) as (w & Hw & ?); [lia|]. exists w. split; [|done].
    rewrite list_lookup_insert_ne by lia. done.
Qed.

Lemma lps_step P st :
  lps_inv P st → lps_cond P st = true →
  ∃ st', lps_body P st = Ok st' ∧ lps_inv P st' ∧ lps_mu P st' < lps_mu P st.
Proof.
  destruct st as [[lps len] i]. simpl.
  intros (Hlen & Hi & Hlt & Hsm & Hok & Hmax) Hc.
  apply bool_decide_eq_true in Hc.
  destruct (index_lt P i) as (pi & Hpi & ->); [lia|].
  destruct (index_lt P len) as (pl & Hpl & ->); [lia|]. simpl.
  destruct (decide (pi = pl)) as [->|Hne].
  - (* the symbols agree: the border grows *)
    unfold setitem. rewrite decide_True by lia. simpl.
    eexists. split; [done|].
    assert (sm P P (S len) (S i)) as Hsm'.
    { apply sm_snoc; [done | by rewrite Hpi, Hpl | lia..]. }
    replace (len + 1) with (S len) by lia. replace (i + 1) with (S i) by lia.
    split; [unfold lps_inv | unfold lps_mu; lia]. rewrite length_insert.
    split_and!; [lia.. | done | | ].
    + apply lps_ok_insert; [done | lia | done |].
      split_and!; [lia | done |]. intros k ? ?. apply Hmax; [lia | done].
    + intros [|k] ? Hk; [lia|]. apply sm_pred in Hk.
      assert (k ≤ S len); [|lia]. apply Hmax; [lia | done].
  - destruct (decide (len ≠ 0)) as [Hl|Hl].
    + (* fall back to the border of the border *)
      destruct (Hok len) as (v & Hv & Hvlt & Hvsm & Hvmax); [lia|].
      rewrite (index_Ok _ _ _ Hv). simpl.
      eexists. split; [done|]. split; [unfold lps_inv | unfold lps_mu; lia].
      split_and!; [lia.. | | done | ].
      * by eapply sm_compose.
      * intros [|k] ? Hk; [lia|].
        assert (S k ≤ S len) by (apply Hmax; [lia | done]).
        assert (k ≠ len).
        { intros ->. apply sm_last in Hk. rewrite Hpi, Hpl in Hk. congruence. }
        apply sm_pred in Hk.
        assert (k ≤ v); [|lia]. apply Hvmax; [lia|].
        eapply sm_restrict; [exact Hsm | exact Hk | lia].
    + (* no border at all *)
      assert (len = 0) as -> by lia.
      unfold setitem. rewrite decide_True by lia. simpl.
      eexists. split; [done|].
      assert (∀ k, k < S i → sm P P k (S i) → k ≤ 0) as Hnone.
      { intros [|k] ? Hk; [lia|].
        assert (S k ≤ 1) by (apply Hmax; [lia | done]).
        assert (k = 0) as -> by lia. apply sm_last in Hk.
        rewrite Hpi, Hpl in Hk. congruence. }
      replace (i + 1) with (S i) by lia.
      split; [unfold lps_inv | unfold lps_mu; lia]. rewrite length_insert.
      split_and!; [lia.. | | | ].
      * apply sm_zero. lia.
      * apply lps_ok_insert; [done | lia | done |].
        split_and!; [lia | apply sm_zero; lia | done].
      * intros [|k] ? Hk; [lia|]. apply sm_pred in Hk.
        assert (k ≤ 0); [|lia]. apply Hnone; [lia | done].
Qed.

Lemma compute_lps_ok P :
  P ≠ [] →
  ∃ lps, compute_lps P = Ok lps ∧ length lps = length P ∧
         lps_ok P lps (length P).
Proof.
  intros HP. assert (1 ≤ length P) by (destruct P; [done | simpl; lia]).
  destruct (while_inv (lps_inv P) (lps_mu P) (lps_cond P) (lps_body P)
              (lps_step P) (2 * length P) (replicate (length P) 0, 0, 1))
    as ([[lps len] i] & Hw & Hinv & Hc).
  - simpl. rewrite length_replicate. split_and!; [lia.. | | | ].
    + apply sm_zero. lia.
    + intros q ?. assert (q = 1) as -> by lia. exists 0. split.
      * apply lookup_replicate_2. lia.
      * split_and!; [lia | apply sm_zero; lia |].
        intros k ? _. lia.
    + intros k ? _. lia.
  - simpl. lia.
  - unfold compute_lps. rewrite Hw. simpl. exists lps.
    simpl in Hinv, Hc. apply bool_decide_eq_false in Hc.
    destruct Hinv as (? & ? & ? & ? & Hok & ?).
    assert (i = length P) as -> by lia. done.
Qed.

Lemma slice_sm T P s :
  P ≠ [] → slice T s (s + length P) = P ↔ sm T P (length P) (s + length P).
Proof.
  intros HP. assert (1 ≤ length P) by (destruct P; [done | simpl; lia]).
  unfold slice, sm. replace (s + length P - s) with (length P) by lia.
  split.
  - intros Heq.
    assert (length (take (length P) (drop s T)) = length P) as Hl
      by (by rewrite Heq).
    rewrite length_take, length_drop in Hl.
    split_and!; [lia.. |]. intros t Ht.
    rewrite <-Heq at 1. rewrite lookup_take_lt, lookup_drop by done.
    f_equal; lia.
  - intros (_ & ? & _ & Hk). apply list_eq. intros t.
    destruct (decide (t < length P)).
    + rewrite lookup_take_lt, lookup_drop, Hk by done. f_equal; lia.
    + rewrite lookup_take_ge by lia. symmetry. apply lookup_ge_None. lia.
Qed.

Lemma occs_S T P e :
  occs T P (S e) =
  occs T P e ++
    (if decide (length P ≤ S e ∧
                slice T (S e - length P) (S e - length P + length P) = P)
     then [S e - length P] else []).
Proof.
  unfold occs. destruct (decide (length P ≤ S e)) as [Hle|Hle].
  - replace (S (S e) - length P) with (S (S e - length P)) by lia.
    rewrite seq_S, filter_app. f_equal. simpl.
    rewrite filter_cons, filter_nil.
    destruct (decide (slice T _ _ = P)).
    + by rewrite decide_True.
    + rewrite decide_False; [done | tauto].
  - replace (S (S e) - length P) with 0 by lia.
    replace (S e - length P) with 0 by lia.
    rewrite decide_False; [done | tauto].
Qed.

Lemma occs_S_hit T P e :
  P ≠ [] → sm T P (length P) (S e) →
  occs T P (S e) = occs T P e ++ [S e - length P].
Proof.
  intros HP Hsm. rewrite occs_S. assert (length P ≤ S e) by apply Hsm.
  rewrite decide_True; [done|]. split; [done|].
  apply slice_sm; [done|].
  by replace (S e - length P + length P) with (S e) by lia.
Qed.

Lemma occs_S_miss T P e :
  P ≠ [] → ¬ sm T P (length P) (S e) → occs T P (S e) = occs T P e.
Proof.
  intros HP Hsm. rewrite occs_S. rewrite decide_False; [by rewrite app_nil_r|].
  intros [? Hs]. apply Hsm. apply slice_sm in Hs; [|done].
  by replace (S e - length P + length P) with (S e) in Hs by lia.
Qed.

Ltac norm_pred :=
  repeat match goal with
  | |- context [S ?j - 1] => replace (S j - 1) with j by lia
  | H : context [S ?j - 1] |- _ => replace (S j - 1) with j in H by lia
  | |- context [?j - 0] => rewrite (Nat.sub_0_r j)
  | H : context [?j - 0] |- _ => rewrite (Nat.sub_0_r j) in H
  end.

Lemma search_step T P lps st :
  P ≠ [] → length lps = length P → lps_ok P lps (length P) →
  search_inv T P st → search_cond T st = true →
  ∃ st', search_body T P lps st = Ok st' ∧ search_inv T P st' ∧
         search_mu T st' < search_mu T st.
Proof.
  intros HP Hlen Hok. destruct st as [[i j] matches].
  intros (Hi & Hj & Hsm & Hmax & ->) Hc.
  apply bool_decide_eq_true in Hc.
  assert (j ≤ i) by apply Hsm.
  unfold search_body.
  destruct (index_lt P j) as (pj & Hpj & ->); [lia|].
  destruct (index_lt T i) as (ti & Hti & ->); [lia|]. simpl.
  destruct (decide (pj = ti)) as [->|Hne].
  - (* the symbols agree: both positions advance *)
    assert (sm T P (S j) (S i)) as Hsm'.
    { apply sm_snoc; [done | by rewrite Hpj, Hti | lia..]. }
    assert (∀ k, sm T P k (S i) → k ≤ S j) as Hmax'.
    { intros [|k] Hk; [lia|]. apply Hmax; [lia | done]. }
    replace (j + 1) with (S j) by lia. replace (i + 1) with (S i) by lia.
    destruct (decide (S j = length P)) as [Hfull|Hfull].
    + (* a full occurrence ends here *)
      destruct (Hok (S j)) as (v & Hv & Hvlt & Hvsm & Hvmax); [lia|].
      norm_pred. rewrite (index_Ok _ _ _ Hv). simpl.
      eexists. split; [done|]. split; [unfold search_inv | unfold search_mu; lia].
      split_and!; [lia.. | | | ].
      * by eapply sm_compose.
      * intros [|k] ? Hk; [lia|].
        assert (S k ≤ length P) by apply Hk. apply sm_pred in Hk.
        assert (k ≤ v); [|lia]. apply Hvmax; [lia|].
        eapply sm_restrict; [exact Hsm' | exact Hk | lia].
      * rewrite occs_S_hit; [| done | by rewrite <-Hfull].
        do 2 f_equal. lia.
    + assert (occs T P (S i) = occs T P i) as Hocc.
      { apply occs_S_miss; [done|]. intros Hk. apply Hmax' in Hk.
        lia. }
      destruct (decide (S i < length T)) as [Hi'|Hi'].
      * destruct (index_lt P (S j)) as (pj' & Hpj' & ->); [lia|].
        destruct (index_lt T (S i)) as (ti' & Hti' & ->); [lia|]. simpl.
        destruct (decide (pj' ≠ ti')) as [Hne'|Heq'].
        -- destruct (Hok (S j)) as (v & Hv & Hvlt & Hvsm & Hvmax); [lia|].
           norm_pred. rewrite (index_Ok _ _ _ Hv). simpl.
           eexists. split; [done|].
           split; [unfold search_inv | unfold search_mu; lia].
           split_and!; [lia.. | | | done].
           ++ by eapply sm_compose.
           ++ intros [|k] ? Hk; [lia|].
              assert (k ≠ S j).
              { intros ->. apply sm_last in Hk.
                rewrite Hpj', Hti' in Hk. congruence. }
              apply sm_pred in Hk. assert (k ≤ S j) by by apply Hmax'.
              assert (k ≤ v); [|lia]. apply Hvmax; [lia|].
              eapply sm_restrict; [exact Hsm' | exact Hk | lia].
        -- eexists. split; [done|].
           split; [unfold search_inv | unfold search_mu; lia].
           split_and!; [lia.. | done | | done].
           intros [|k] ? Hk; [lia|]. apply sm_pred in Hk.
           assert (k ≤ S j) by by apply Hmax'. lia.
      * eexists. split; [done|].
        split; [unfold search_inv | unfold search_mu; lia].
        split_and!; [lia.. | done | | done].
        intros k ? (? & ? & _). lia.
  - (* the symbols differ *)
    rewrite decide_False by lia. rewrite decide_True by lia.
    destruct (index_lt P j) as (pj' & Hpj' & ->); [lia|].
    destruct (index_lt T i) as (ti' & Hti' & ->); [lia|]. simpl.
    assert (pj' = pj) as -> by congruence.
    assert (ti' = ti) as -> by congruence.
    rewrite decide_True by done.
    assert (∀ k, sm T P (S k) (S i) → k < j) as Hless.
    { intros k Hk. assert (S k ≤ S j) by (apply Hmax; [lia | done]).
      assert (k ≠ j); [|lia]. intros ->. apply sm_last in Hk.
      rewrite Hpj, Hti in Hk. congruence. }
    destruct (decide (j ≠ 0)) as [Hj0|Hj0].
    + destruct (Hok j) as (v & Hv & Hvlt & Hvsm & Hvmax); [lia|].
      rewrite (index_Ok _ _ _ Hv). simpl.
      eexists. split; [done|].
      split; [unfold search_inv | unfold search_mu; lia].
      split_and!; [lia.. | | | done].
      * by eapply sm_compose.
      * intros [|k] ? Hk; [lia|]. pose proof (Hless k Hk).
        apply sm_pred in Hk.
        assert (k ≤ v); [|lia]. apply Hvmax; [lia|].
        eapply sm_restrict; [exact Hsm | exact Hk | lia].
    + assert (j = 0) as -> by lia.
      eexists. split; [done|].
      replace (i + 1) with (S i) by lia.
      split; [unfold search_inv | unfold search_mu; lia].
      split_and!; [lia.. | | | ].
      * apply sm_zero. lia.
      * intros [|k] ? Hk; [lia|]. apply sm_pred in Hk.
        destruct k as [|k]; [lia|]. apply Hless in Hk. lia.
      * symmetry. apply occs_S_miss; [done|]. intros Hk.
        destruct P as [|c P']; [done|]. simpl in Hk.
        apply Hless in Hk. lia.
Qed.

Lemma elem_of_occs T P s :
  P ≠ [] → s ∈ occs T P (length T) ↔ slice T s (s + length P) = P.
Proof.
  intros HP. unfold occs. rewrite list_elem_of_filter, elem_of_seq.
  split; [tauto|]. intros Hs. split; [done|].
  apply slice_sm in Hs; [|done]. destruct Hs as (_ & ? & _). lia.
Qed.

Lemma StronglySorted_filter_seq (Q : nat → Prop) `{∀ x, Decision (Q x)}
    a k :
  StronglySorted lt (filter Q (seq a k)).
Proof.
  revert a. induction k as [|k IH]; intros a; simpl; [constructor|].
  rewrite filter_cons. destruct (decide (Q a)); [|done].
  constructor; [done|]. apply Forall_forall. intros x Hx.
  apply list_elem_of_filter in Hx as [_ Hx]. apply elem_of_seq in Hx. lia.
Qed.

Lemma kmp_search_occs T P :
  P ≠ [] → kmp_search T P = Ok (occs T P (length T)).
Proof.
  intros HP. unfold kmp_search.
  destruct (decide (T = [])) as [->|HT].
  { rewrite bool_decide_eq_true_2 by tauto.
    unfold occs. by destruct P. }
  rewrite bool_decide_eq_false_2 by tauto.
  destruct (compute_lps_ok P HP) as (lps & -> & Hlen & Hok). simpl.
  assert (1 ≤ length P) by (destruct P; [done | simpl; lia]).
  destruct (while_inv (search_inv T P) (search_mu T) (search_cond T)
              (search_body T P lps)
              (λ st, search_step T P lps st HP Hlen Hok)
              (2 * length T) (0, 0, []))
    as ([[i j] matches] & Hw & Hinv & Hc).
  - unfold search_inv. split_and!; [lia.. | | | ].
    + apply sm_zero. lia.
    + intros k ? (? & _). lia.
    + unfold occs. by replace (1 - length P) with 0 by lia.
  - unfold search_mu. lia.
  - simpl in Hw. rewrite Hw. simpl. unfold search_cond in Hc.
    apply bool_decide_eq_false in Hc.
    destruct Hinv as (? & _ & _ & _ & ->).
    by assert (i = length T) as -> by lia.
Qed.



(** ** The recurrences that the memoised functions compute *)

Lemma index_Ok_inv {A} (l : list A) i x : index l i = Ok x → l !! i = Some x.
Proof. unfold index. by destruct (l !! i); intros [=->]. Qed.

Lemma index_Ok_lt {A} (l : list A) i x : index l i = Ok x → i < length l.
Proof. intros H%index_Ok_inv. by eapply lookup_lt_Some. Qed.

Section returns.
Context {St : Type} (inv : St → Prop).

Lemma returns_ret {A} (x : A) : returns (mret x) inv (Ok x).
Proof. intros s Hs. by exists s. Qed.

Lemma returns_lift {A} (r : result A) : returns (lift r) inv r.
Proof. intros s Hs. by exists s. Qed.

Lemma returns_raise {A} e : returns (raise e : M St A) inv (Raise e).
Proof. intros s Hs. by exists s. Qed.

Lemma returns_bind {A B} (m : M St A) (f : A → M St B) r g :
  returns m inv r →
  (∀ a, r = Ok a → returns (f a) inv (g a)) →
  returns (m ≫= f) inv (r ≫= g).
Proof.
  intros Hm Hf s Hs. destruct (Hm s Hs) as (s1 & Hs1 & Hinv1).
  unfold mbind, M_bind. rewrite Hs1. destruct r as [a|e]; simpl.
  - by apply Hf.
  - by exists s1.
Qed.
End returns.

(** ** The caches only hold values of the recurrences *)

Section lru_lemmas.
Context {K V : Type} `{EqDecision K} (spec : K → result V).

Lemma lru_lookup_ok key c v c' :
  cache_ok spec c → LRU.lookup key c = Some (v, c') →
  spec key = Ok v ∧ cache_ok spec c'.
Proof.
  intros Hc. unfold LRU.lookup.
  destruct (list_find _ c) as [[idx [k w]]|] eqn:Hf; [|done].
  intros [= <- <-]. apply list_find_Some in Hf as (Hidx & Hk & _).
  simpl in Hk. subst k. apply list_elem_of_lookup_2 in Hidx.
  split; [by apply Hc|]. intros k' v' [[= -> ->]|Hin]%elem_of_cons.
  - by apply Hc.
  - apply Hc. by eapply list_elem_of_delete_inv.
Qed.

Lemma lru_store_ok maxsize key v c :
  cache_ok spec c → spec key = Ok v →
  cache_ok spec (LRU.store maxsize key v c).
Proof.
  intros Hc Hv. unfold LRU.store. repeat case_decide; [done|..].
  - intros k' v' [[= -> ->]|Hin]%elem_of_cons; [done|].
    apply Hc. by eapply subseteq_take.
  - intros k' v' [[= -> ->]|Hin]%elem_of_cons; [done|]. by apply Hc.
Qed.

Lemma lru_cached_returns {St} (inv : St → Prop) maxsize
    (get : St → list (K * V)) set key body r :
  (∀ s, inv s → cache_ok spec (get s)) →
  (∀ s c, inv s → cache_ok spec c → inv (set c s)) →
  spec key = r →
  returns body inv r →
  returns (LRU.cached maxsize get set key body) inv r.
Proof.
  intros Hget Hset Hspec Hbody s Hs. unfold LRU.cached.
  destruct (LRU.lookup key (get s)) as [[v c']|] eqn:Hl.
  - destruct (lru_lookup_ok key (get s) v c') as [Hv Hc'];
      [by apply Hget | done |].
    exists (set c' s). split; [by rewrite <-Hspec, Hv | by apply Hset].
  - destruct (Hbody s Hs) as (s' & -> & Hs'). destruct r as [v|e].
    + eexists. split; [done|]. apply Hset; [done|].
      apply lru_store_ok; [by apply Hget | done].
    + by exists s'.
Qed.
End lru_lemmas.

Lemma valid_init : valid Matcher.init.
Proof. split; intros k v Hin; by apply elem_of_nil in Hin. Qed.

(** ** Fuel *)

Ltac rsimpl :=
  cbn [wm_pure md_pure mbind result_bind mret result_ret].

Lemma wm_pure_fuel f1 f2 T P i j :
  wm_mu T P i j < f1 → wm_mu T P i j < f2 →
  wm_pure f1 T P i j = wm_pure f2 T P i j.
Proof.
  revert f2 i j. induction f1 as [|f1 IH]; intros [|f2] i j ? ?; [lia..|].
  rsimpl. repeat case_decide; try done.
  all: destruct (index P j) as [pj|] eqn:Hpj; rsimpl; [|done].
  all: apply index_Ok_lt in Hpj; unfold wm_mu in *.
  all: destruct (decide (pj = "*"%char)).
  all: try (rewrite (IH f2 i (j + 1)) by lia;
            destruct (wm_pure f2 T P i (j + 1)) as [[]|]; rsimpl; try done;
            apply IH; lia).
  all: destruct (if decide (pj = "?"%char) then _ else _) as [[]|]; rsimpl;
    try done; apply IH; lia.
Qed.

Lemma wm_pure_value fuel T P i j :
  wm_mu T P i j < fuel → wm_pure fuel T P i j = wm_value T P i j.
Proof. intros. apply wm_pure_fuel; lia. Qed.

Lemma md_pure_fuel f1 f2 D Mo i j :
  length D - i < f1 → length D - i < f2 →
  md_pure f1 D Mo i j = md_pure f2 D Mo i j.
Proof.
  revert f2 i j. induction f1 as [|f1 IH]; intros [|f2] i j ? ?; [lia..|].
  rsimpl. repeat case_decide; try done.
  destruct (index D i) as [d|] eqn:Hd; rsimpl; [|done].
  apply index_Ok_lt in Hd.
  destruct (index Mo j) as [c|] eqn:Hc; rsimpl; [|done].
  rewrite (IH f2 (i + 1) (j + 1)), (IH f2 (i + 1) j) by lia. done.
Qed.

Lemma md_pure_value fuel D Mo i j :
  length D - i < fuel → md_pure fuel D Mo i j = md_value D Mo i j.
Proof. intros. apply md_pure_fuel; lia. Qed.

(** ** The methods of AdvancedPatternMatcher return the recurrences *)

Ltac step_M :=
  unfold mbind, M_bind, mret, M_ret, lift, raise, run; cbn beta iota;
  cbn [result_bind result_ret].

Lemma wildcard_match_rec_returns fuel T P i j :
  wm_mu T P i j < fuel →
  returns (Matcher.wildcard_match_rec fuel T P i j) valid (wm_value T P i j).
Proof.
  revert i j. induction fuel as [|fuel IH]; intros i j Hmu; [lia|].
  rewrite <-(wm_pure_value (S fuel)) by done.
  cbn [Matcher.wildcard_match_rec wm_pure].
  apply (lru_cached_returns wm_spec).
  - by intros s [? ?].
  - by intros s c [? ?] ?.
  - cbn [wm_spec]. rewrite <-(wm_pure_value (S fuel)) by done. done.
  - intros s Hs. unfold Matcher.incr_calls. step_M.
    set (s1 := {| Matcher.calls := _ |}).
    assert (valid s1) as Hs1 by (destruct Hs; by split).
    clearbody s1. clear s Hs.
    repeat case_decide; try by eauto.
    all: destruct (index P j) as [pj|] eqn:Hpj; step_M; [|by eauto].
    all: apply index_Ok_lt in Hpj; unfold wm_mu in Hmu.
    all: destruct (decide (pj = "*"%char)).
    all: try (destruct (IH i (j + 1)) with (s := s1) as (s2 & -> & Hs2);
                [unfold wm_mu; lia | done |];
              rewrite <-(wm_pure_value fuel) by (unfold wm_mu; lia);
              destruct (wm_pure fuel T P i (j + 1)) as [[]|]; step_M;
              first
                [ by eauto
                | destruct (IH (i + 1) j) with (s := s2) as (s3 & -> & Hs3);
                    [unfold wm_mu; lia | done |];
                  rewrite <-(wm_pure_value fuel) by (unfold wm_mu; lia);
                  by eauto ]).
    all: destruct (IH (i + 1) (j + 1)) with (s := s1) as (s2 & Hrec & Hs2);
        [unfold wm_mu; lia | done |].
    all: rewrite <-(wm_pure_value fuel) in Hrec by (unfold wm_mu; lia).
    all: destruct (decide (pj = "?"%char)); step_M;
           [rewrite Hrec; by eauto|].
    all: destruct (index T i) as [ti|]; step_M; [|by eauto].
    all: destruct (bool_decide (pj = ti)); [|by eauto].
    all: rewrite Hrec; by eauto.
Qed.

Lemma motif_distance_rec_returns fuel D Mo i j :
  length D - i < fuel →
  returns (Matcher.motif_distance_rec fuel D Mo i j) valid (md_value D Mo i j).
Proof.
  revert i j. induction fuel as [|fuel IH]; intros i j Hmu; [lia|].
  rewrite <-(md_pure_value (S fuel)) by done.
  cbn [Matcher.motif_distance_rec md_pure].
  apply (lru_cached_returns md_spec).
  - by intros s [? ?].
  - by intros s c [? ?] ?.
  - cbn [md_spec]. rewrite <-(md_pure_value (S fuel)) by done. done.
  - intros s Hs. step_M.
    repeat case_decide; try by eauto.
    destruct (index D i) as [d|] eqn:Hd; step_M; [|by eauto].
    apply index_Ok_lt in Hd.
    destruct (index Mo j) as [c|] eqn:Hc; step_M; [|by eauto].
    destruct (IH (i + 1) (j + 1)) with (s := s) as (s2 & -> & Hs2);
      [lia | done |].
    rewrite <-(md_pure_value fuel) by lia.
    destruct (md_pure fuel D Mo (i + 1) (j + 1)) as [a|]; step_M; [|by eauto].
    destruct (IH (i + 1) j) with (s := s2) as (s3 & -> & Hs3); [lia | done |].
    rewrite <-(md_pure_value fuel) by lia.
    destruct (md_pure fuel D Mo (i + 1) j) as [b|]; step_M; by eauto.
Qed.

Lemma wildcard_match_returns T P i j :
  returns (Matcher.wildcard_match T P i j) valid (wm_value T P i j).
Proof. apply wildcard_match_rec_returns. unfold wm_mu. lia. Qed.

Lemma motif_distance_returns D Mo i j :
  returns (Matcher.motif_distance D Mo i j) valid (md_value D Mo i j).
Proof. apply motif_distance_rec_returns. lia. Qed.

(** ** The stand-alone functions return the recurrences *)

Lemma md_memo_insert (D Mo : str) (i j : nat) (v : cost)
    (s : gmap (nat * nat) cost) :
  md_value D Mo i j = Ok v → md_memo_ok D Mo s →
  md_memo_ok D Mo (<[(i, j) := v]> s).
Proof.
  intros Hv Hs i' j' v' Hl.
  destruct (decide ((i, j) = (i', j'))) as [[= <- <-]|].
  - rewrite lookup_insert_eq in Hl. congruence.
  - rewrite lookup_insert_ne in Hl by done. by apply Hs.
Qed.

Lemma min_mismatches_rec_returns fuel D Mo i j :
  length D - i < fuel →
  returns (DnaMotif.min_mismatches_rec fuel D Mo i j) (md_memo_ok D Mo)
    (md_value D Mo i j).
Proof.
  revert i j. induction fuel as [|fuel IH]; intros i j Hmu; [lia|].
  intros s Hs.
  assert (md_value D Mo i j = md_pure (S fuel) D Mo i j) as Hval
    by (symmetry; by apply md_pure_value).
  cbn [DnaMotif.min_mismatches_rec]. cbn zeta. unfold DnaMotif.cached.
  destruct (s !! (i, j)) as [v|] eqn:Hlook.
  { exists s. split; [|done]. by rewrite (Hs _ _ _ Hlook). }
  rewrite Hval. revert Hval. cbn [md_pure]. step_M.
  pose proof (md_memo_insert D Mo i j) as Hins.
  repeat case_decide; try by eauto.
  destruct (index D i) as [d|] eqn:Hd; step_M; [|by eauto].
  apply index_Ok_lt in Hd.
  destruct (index Mo j) as [c|] eqn:Hc; step_M; [|by eauto].
  destruct (IH (i + 1) (j + 1)) with (s := s) as (s2 & -> & Hs2);
    [lia | done |].
  rewrite <-(md_pure_value fuel D Mo (i + 1) (j + 1)) by lia.
  destruct (md_pure fuel D Mo (i + 1) (j + 1)) as [a|]; step_M; [|by eauto].
  destruct (IH (i + 1) j) with (s := s2) as (s3 & -> & Hs3); [lia | done |].
  rewrite <-(md_pure_value fuel D Mo (i + 1) j) by lia.
  destruct (md_pure fuel D Mo (i + 1) j) as [b|]; step_M; by eauto.
Qed.

Lemma min_mismatches_returns D Mo i j :
  returns (DnaMotif.min_mismatches D Mo i j) (md_memo_ok D Mo)
    (md_value D Mo i j).
Proof. apply min_mismatches_rec_returns. lia. Qed.

Lemma wm_memo_insert (T P : str) (i j : nat) (b : bool)
    (s : gmap (nat * nat) bool) :
  wm_value T P i j = Ok b → wm_memo_ok T P s →
  wm_memo_ok T P (<[(i, j) := b]> s).
Proof.
  intros Hv Hs i' j' v' Hl.
  destruct (decide ((i, j) = (i', j'))) as [[= <- <-]|].
  - rewrite lookup_insert_eq in Hl. congruence.
  - rewrite lookup_insert_ne in Hl by done. by apply Hs.
Qed.

Lemma dfs_returns fuel T P i j :
  wm_mu T P i j < fuel →
  returns (PatternMatcher.dfs fuel T P i j) (wm_memo_ok T P) (wm_value T P i j).
Proof.
  revert i j. induction fuel as [|fuel IH]; intros i j Hmu; [lia|].
  intros s Hs.
  assert (wm_value T P i j = wm_pure (S fuel) T P i j) as Hval
    by (symmetry; by apply wm_pure_value).
  cbn [PatternMatcher.dfs].
  destruct (s !! (i, j)) as [v|] eqn:Hlook.
  { exists s. split; [|done]. by rewrite (Hs _ _ _ Hlook). }
  rewrite Hval. revert Hval. cbn [wm_pure].
  unfold PatternMatcher.memo_set. step_M.
  pose proof (wm_memo_insert T P i j) as Hins.
  repeat case_decide; try by eauto.
  all: destruct (index P j) as [pj|] eqn:Hpj; step_M; [|by eauto].
  all: apply index_Ok_lt in Hpj; unfold wm_mu in Hmu.
  all: destruct (decide (pj = "*"%char)).
  all: try (destruct (IH i (j + 1)) with (s := s) as (s2 & -> & Hs2);
              [unfold wm_mu; lia | done |];
            rewrite <-(wm_pure_value fuel T P i (j + 1)) by (unfold wm_mu; lia);
            destruct (wm_pure fuel T P i (j + 1)) as [[]|]; step_M;
            first
              [ by eauto
              | destruct (IH (i + 1) j) with (s := s2) as (s3 & -> & Hs3);
                  [unfold wm_mu; lia | done |];
                rewrite <-(wm_pure_value fuel T P (i + 1) j)
                  by (unfold wm_mu; lia);
                destruct (wm_pure fuel T P (i + 1) j) as [[]|]; step_M;
                by eauto ]).
  all: destruct (IH (i + 1) (j + 1)) with (s := s) as (s2 & Hrec & Hs2);
         [unfold wm_mu; lia | done |].
  all: rewrite <-(wm_pure_value fuel T P (i + 1) (j + 1)) in Hrec
         by (unfold wm_mu; lia).
  all: destruct (decide (pj = "?"%char)); step_M.
  all: try (destruct (index T i) as [ti|]; step_M; [|by eauto];
            destruct (bool_decide (pj = ti)); step_M; [|by eauto]).
  all: rewrite Hrec; destruct (wm_pure fuel T P (i + 1) (j + 1)) as [[]|];
         step_M; by eauto.
Qed.

Lemma wm_memo_ok_empty T P : wm_memo_ok T P ∅.
Proof. intros i j b Hl. by rewrite lookup_empty in Hl. Qed.

Lemma md_memo_ok_empty D Mo : md_memo_ok D Mo ∅.
Proof. intros i j b Hl. by rewrite lookup_empty in Hl. Qed.

Lemma PatternMatcher_wildcard_match_value T P :
  PatternMatcher.wildcard_match T P = wm_value T P 0 0.
Proof.
  unfold PatternMatcher.wildcard_match.
  destruct (dfs_returns (S (length T + length P)) T P 0 0)
    with (s := (∅ : gmap (nat * nat) bool)) as (s' & -> & _);
    [unfold wm_mu; lia | apply wm_memo_ok_empty | done].
Qed.

(** ** The recurrences, unfolded *)

Lemma wm_value_eq T P i j :
  wm_value T P i j =
  if decide (i = length T ∧ j = length P) then Ok true
  else if decide (i = length T) then Ok (all_stars (slice_from P j))
  else if decide (j = length P) then Ok false
  else
    pj ← index P j;
    if decide (pj = "*"%char) then
      a ← wm_value T P i (j + 1);
      if (a : bool) then Ok true
      else if decide (i < length T) then wm_value T P (i + 1) j
      else Ok false
    else
      c ← (if decide (pj = "?"%char) then Ok true
           else ti ← index T i; Ok (bool_decide (pj = ti)));
      if (c : bool) then wm_value T P (i + 1) (j + 1) else Ok false.
Proof.
  unfold wm_value at 1. cbn [wm_pure]. repeat case_decide; try done.
  all: destruct (index P j) as [pj|] eqn:Hpj; rsimpl; [|done].
  all: apply index_Ok_lt in Hpj.
  all: repeat (rewrite wm_pure_value by (unfold wm_mu; lia)); done.
Qed.

Lemma md_value_eq D Mo i j :
  md_value D Mo i j =
  if decide (j = length Mo) then Ok (Fin 0)
  else if decide (Z.of_nat i + Z.of_nat (length Mo) - Z.of_nat j
                  > Z.of_nat (length D))%Z then Ok Inf
  else
    d ← index D i;
    c ← index Mo j;
    a ← md_value D Mo (i + 1) (j + 1);
    b ← md_value D Mo (i + 1) j;
    Ok (cost_min (cost_add (mismatch d c) a) b).
Proof.
  unfold md_value at 1. cbn [md_pure]. repeat case_decide; try done.
  destruct (index D i) as [d|] eqn:Hd; rsimpl; [|done].
  apply index_Ok_lt in Hd.
  destruct (index Mo j) as [c|] eqn:Hc; rsimpl; [|done].
  by rewrite !md_pure_value by lia.
Qed.

Lemma md_value_total D Mo i j :
  j ≤ length Mo → ∃ c, md_value D Mo i j = Ok c.
Proof.
  remember (length D - i) as k eqn:Hk. revert i j Hk.
  induction (lt_wf k) as [k _ IH]. intros i j -> Hj.
  rewrite md_value_eq. repeat case_decide; [by eauto..|].
  destruct (lookup_lt_is_Some_2 D i) as [d Hd]; [lia|].
  destruct (lookup_lt_is_Some_2 Mo j) as [c Hc]; [lia|].
  rewrite (index_Ok _ _ _ Hd), (index_Ok _ _ _ Hc). rsimpl.
  destruct (IH (length D - (i + 1))) with (i := i + 1) (j := j + 1)
    as [a ->]; [lia | done | lia |].
  destruct (IH (length D - (i + 1))) with (i := i + 1) (j := j)
    as [b ->]; [lia | done | lia |].
  rsimpl. by eauto.
Qed.

Lemma all_stars_Forall (P : str) :
  all_stars P = bool_decide (Forall (λ c, c = "*"%char) P).
Proof.
  induction P as [|c P IH]; [done|]. unfold all_stars in *. cbn [forallb].
  rewrite IH. destruct (decide (c = "*"%char)) as [->|Hc].
  - rewrite bool_decide_eq_true_2 by done. cbn [andb].
    apply bool_decide_ext. split; [by constructor | by inversion 1].
  - rewrite (bool_decide_eq_false_2 (c = _)) by done. cbn [andb].
    symmetry. apply bool_decide_eq_false_2. by inversion 1.
Qed.

Lemma wm_value_star T i : i ≤ length T → wm_value T (s_ "*") i 0 = Ok true.
Proof.
  remember (length T - i) as k eqn:Hk. revert i Hk.
  induction k as [|k IH]; intros i Hk Hi.
  - rewrite wm_value_eq. change (length (s_ "*")) with 1.
    destruct (decide (i = length T ∧ 0 = 1)); [lia|].
    destruct (decide (i = length T)); [done | lia].
  - rewrite wm_value_eq. change (length (s_ "*")) with 1.
    destruct (decide (i = length T ∧ 0 = 1)); [lia|].
    destruct (decide (i = length T)); [lia|].
    destruct (decide (0 = 1)); [lia|].
    change (index (s_ "*") 0) with (Ok "*"%char). rsimpl.
    destruct (decide ("*"%char = "*"%char)); [|done].
    rewrite (wm_value_eq T _ i (0 + 1)). change (length (s_ "*")) with 1.
    destruct (decide (i = length T ∧ 0 + 1 = 1)); [lia|].
    destruct (decide (i = length T)); [lia|].
    destruct (decide (0 + 1 = 1)); [|lia]. rsimpl.
    destruct (decide (i < length T)); [|lia]. apply IH; lia.
Qed.

Lemma wm_value_empty_text P : wm_value [] P 0 0 = Ok (all_stars P).
Proof.
  rewrite wm_value_eq. destruct P as [|c P]; [done|].
  destruct (decide (0 = length ([] : str) ∧ 0 = length (c :: P)))
    as [[_ [=]]|_].
  destruct (decide (0 = length ([] : str))); done.
Qed.

(** ** Determinism of the calls and validity of the reachable states *)

Section det.
Context {St : Type} (inv : St → Prop).

Lemma det_intro {A} (m : M St A) r : returns m inv r → det m inv.
Proof. intros. by exists r. Qed.

Lemma det_ret {A} (x : A) : det (mret x : M St A) inv.
Proof. eexists. apply returns_ret. Qed.

Lemma det_lift {A} (r : result A) : det (lift r : M St A) inv.
Proof. eexists. apply returns_lift. Qed.

Lemma det_bind {A B} (m : M St A) (f : A → M St B) :
  det m inv → (∀ a, det (f a) inv) → det (m ≫= f) inv.
Proof.
  intros [[a|e] Hm] Hf.
  - destruct (Hf a) as [r' Hr']. exists r'.
    by apply (returns_bind inv m f (Ok a) (λ _, r')); [|intros ? [= <-]].
  - exists (Raise e). by apply (returns_bind inv m f (Raise e) (λ _, Raise e)).
Qed.

Lemma det_for_each {A B} (l : list A) (acc : B) (body : B → A → M St B) :
  (∀ acc x, det (body acc x) inv) → det (for_each l acc body) inv.
Proof.
  intros Hbody. revert acc. induction l as [|x l IH]; intros acc; simpl.
  - apply det_ret.
  - apply det_bind; [apply Hbody | apply IH].
Qed.
End det.

Lemma analyze_all_det text patterns max_motif_dist :
  det (Matcher.analyze_all text patterns max_motif_dist) valid.
Proof.
  unfold Matcher.analyze_all.
  apply det_bind.
  { apply det_for_each. intros acc pattern. apply det_for_each.
    intros acc' start. apply det_bind.
    - eapply det_intro, wildcard_match_returns.
    - intros []; apply det_ret. }
  intros wc_results. apply det_bind.
  { apply det_for_each. intros acc pattern. apply det_for_each.
    intros acc' start. apply det_bind.
    - eapply det_intro, motif_distance_returns.
    - intros dist. destruct (cost_le dist max_motif_dist); [|apply det_ret].
      apply det_bind; [apply det_lift | intros; apply det_ret]. }
  intros motif_results. apply det_bind.
  { apply det_for_each. intros acc p.
    apply det_bind; [apply det_lift | intros; apply det_ret]. }
  intros kmp_results. apply det_bind; [apply det_lift|].
  intros p0. apply det_ret.
Qed.

Lemma run_call_det c : det (Matcher.run_call c) valid.
Proof.
  destruct c; simpl.
  - apply det_bind; [eapply det_intro, wildcard_match_returns|].
    intros; apply det_ret.
  - apply det_bind; [eapply det_intro, motif_distance_returns|].
    intros; apply det_ret.
  - apply det_bind; [apply det_lift | intros; apply det_ret].
  - apply det_ret.
  - apply det_bind; [apply analyze_all_det | intros; apply det_ret].
Qed.

Lemma valid_after history : valid (Matcher.after history).
Proof.
  unfold Matcher.after. induction history as [|c history IH] using rev_ind.
  - apply valid_init.
  - rewrite foldl_app. simpl.
    destruct (run_call_det c) as [r Hr].
    destruct (Hr _ IH) as (s' & -> & Hs'). done.
Qed.

Lemma md_memo_ok_after D Mo history :
  md_memo_ok D Mo (DnaMotif.after D Mo history).
Proof.
  unfold DnaMotif.after. induction history as [|[i j] history IH] using rev_ind.
  - apply md_memo_ok_empty.
  - rewrite foldl_app. simpl.
    destruct (min_mismatches_returns D Mo i j _ IH) as (s' & -> & Hs'). done.
Qed.

Lemma det_same_value {St A} (inv : St → Prop) (m : M St A) s1 s2 :
  det m inv → inv s1 → inv s2 → (m s1).1 = (m s2).1.
Proof.
  intros [r Hr] H1 H2.
  destruct (Hr s1 H1) as (? & -> & _). destruct (Hr s2 H2) as (? & -> & _).
  done.
Qed.

Lemma wildcard_match_after history T P i j :
  (Matcher.wildcard_match T P i j (Matcher.after history)).1 = wm_value T P i j.
Proof.
  destruct (wildcard_match_returns T P i j _ (valid_after history))
    as (s' & -> & _). done.
Qed.

Lemma motif_distance_after history D Mo i j :
  (Matcher.motif_distance D Mo i j (Matcher.after history)).1 = md_value D Mo i j.
Proof.
  destruct (motif_distance_returns D Mo i j _ (valid_after history))
    as (s' & -> & _). done.
Qed.

Lemma min_mismatches_after history D Mo i j :
  (DnaMotif.min_mismatches D Mo i j (DnaMotif.after D Mo history)).1
  = md_value D Mo i j.
Proof.
  destruct (min_mismatches_returns D Mo i j _ (md_memo_ok_after D Mo history))
    as (s' & -> & _). done.
Qed.


(** ** The fuzzy scanner at distance 0 *)

Lemma foldl_snoc_filter {A B} (c : A → bool) (f : A → B) (l : list A) acc :
  foldl (λ acc x, if c x then acc ++ [f x] else acc) acc l
  = acc ++ (f <$> filter (λ x, c x = true) l).
Proof.
  revert acc. induction l as [|x l IH]; intros acc; simpl.
  - by rewrite app_nil_r.
  - rewrite IH, filter_cons. destruct (c x) eqn:Hc.
    + rewrite decide_True by done. by rewrite <-app_assoc.
    + rewrite decide_False by done. done.
Qed.

Lemma filter_ext_elem {A} (Q1 Q2 : A → Prop) `{∀ x, Decision (Q1 x)}
    `{∀ x, Decision (Q2 x)} (l : list A) :
  (∀ x, x ∈ l → Q1 x ↔ Q2 x) → filter Q1 l = filter Q2 l.
Proof.
  induction l as [|x l IH]; intros Hl; [done|].
  rewrite !filter_cons. rewrite IH by (intros; apply Hl; by right).
  destruct (decide (Q1 x)) as [H1|H1].
  - rewrite decide_True; [done|]. apply Hl; [by left | done].
  - rewrite decide_False; [done|]. intros H2. apply H1, Hl; [by left | done].
Qed.

Lemma hamming_cons x y (a b : str) :
  Matcher.hamming (x :: a) (y :: b)
  = (if decide (x ≠ y) then 1 else 0) + Matcher.hamming a b.
Proof. done. Qed.

Lemma hamming_zero (a b : str) :
  length a = length b → Matcher.hamming a b = 0 ↔ a = b.
Proof.
  revert b. induction a as [|x a IH]; intros [|y b] Hlen; try done.
  rewrite hamming_cons. injection Hlen as Hlen. specialize (IH b Hlen).
  destruct (decide (x ≠ y)) as [Hne|Heq].
  - split; [lia | congruence].
  - apply dec_stable in Heq as ->. simpl. rewrite IH. split; congruence.
Qed.

Lemma length_slice_in (T : str) s m :
  s + m ≤ length T → length (slice T s (s + m)) = m.
Proof.
  intros. unfold slice. rewrite length_take, length_drop. lia.
Qed.

Lemma fuzzy_regex_search_fmap T P k :
  Matcher.fuzzy_regex_search T P k =
  (λ i, mkMatchResult i (i + length P)
          (Matcher.hamming (slice T i (i + length P)) P) "fuzzy_regex"
          (pretty (Matcher.hamming (slice T i (i + length P)) P)
             +:+ " mismatches"))
  <$> filter (λ i, bool_decide
                (Z.of_nat (Matcher.hamming (slice T i (i + length P)) P) ≤ k)%Z
                = true)
        (seq 0 (length T + 1 - length P)).
Proof.
  unfold Matcher.fuzzy_regex_search.
  by rewrite (foldl_snoc_filter
    (λ i, bool_decide
       (Z.of_nat (Matcher.hamming (slice T i (i + length P)) P) ≤ k)%Z)).
Qed.

Lemma fuzzy_zero_starts T P :
  start_pos <$> Matcher.fuzzy_regex_search T P 0 = occs T P (length T).
Proof.
  rewrite fuzzy_regex_search_fmap, <-list_fmap_compose.
  rewrite (list_fmap_ext _ id) by done. rewrite list_fmap_id.
  unfold occs.
  replace (length T + 1 - length P) with (S (length T) - length P) by lia.
  apply filter_ext_elem. intros s Hs%elem_of_seq.
  rewrite bool_decide_eq_true. rewrite <-(hamming_zero (slice T s _) P).
  - lia.
  - apply length_slice_in. lia.
Qed.

Lemma fuzzy_zero_scores T P :
  Forall (λ r, score r = 0) (Matcher.fuzzy_regex_search T P 0).
Proof.
  rewrite fuzzy_regex_search_fmap. apply Forall_fmap, Forall_forall.
  intros i [Hi _]%list_elem_of_filter. apply bool_decide_eq_true in Hi.
  simpl. lia.
Qed.


(** ** The pool: every completion order fills the same slots *)

Lemma div_range cs idx k :
  0 < cs → idx `div` cs = k ↔ k * cs ≤ idx < k * cs + cs.
Proof.
  intros Hcs. split.
  - intros <-. pose proof (Nat.div_mod_eq idx cs).
    pose proof (Nat.mod_upper_bound idx cs). lia.
  - intros ?. symmetry. apply (Nat.div_unique _ _ _ (idx - k * cs)); lia.
Qed.

Lemma chunksize_pos len procs :
  0 < len → 0 < procs → 0 < Pool.chunksize len procs.
Proof.
  intros Hlen Hp. unfold Pool.chunksize. rewrite decide_False by lia.
  pose proof (Nat.div_mod_eq len (procs * 4)).
  destruct (decide (len `mod` (procs * 4) ≠ 0)); [lia|]. nia.
Qed.

Lemma number_left_bound len cs k :
  0 < cs → k < Pool.number_left len cs ↔ k * cs < len.
Proof.
  intros Hcs. unfold Pool.number_left. rewrite decide_False by lia.
  pose proof (Nat.div_mod_eq len cs).
  pose proof (Nat.mod_upper_bound len cs).
  destruct (decide (len `mod` cs ≠ 0)); nia.
Qed.

Section starmap.
Context {A B : Type} (f : A → result B) (g : A → B).
Hypothesis Hf : ∀ a, f a = Ok (g a).

Lemma mapM_total (l : list A) : mapM f l = Ok (g <$> l).
Proof.
  induction l as [|x l IH]; [done|].
  cbn [mapM]. rewrite Hf. cbn [mbind result_bind]. by rewrite IH.
Qed.

Lemma lookup_batch (l : list A) cs k t :
  t < cs → Pool.batch l cs k !! t = l !! (k * cs + t).
Proof.
  intros Ht. unfold Pool.batch, slice.
  rewrite lookup_take_lt by lia. by rewrite lookup_drop.
Qed.

Lemma length_batch (l : list A) cs k :
  length (Pool.batch l cs k) = cs `min` (length l - k * cs).
Proof.
  unfold Pool.batch, slice. rewrite length_take, length_drop. lia.
Qed.

Lemma set_result_lookup (l : list A) (value : list (option B)) cs k idx :
  length value = length l → 0 < cs → k * cs < length l → idx < length l →
  (take (k * cs) value ++ (Some <$> (g <$> Pool.batch l cs k))
     ++ drop ((k + 1) * cs) value) !! idx
  = if decide (idx `div` cs = k) then (Some ∘ g) <$> l !! idx
    else value !! idx.
Proof.
  intros Hlen Hcs Hk Hidx.
  pose proof (div_range cs idx k Hcs) as Hdiv.
  destruct (decide (idx < k * cs)).
  { rewrite lookup_app_l by (rewrite length_take; lia).
    rewrite lookup_take_lt by done. rewrite decide_False; [done | lia]. }
  rewrite lookup_app_r by (rewrite length_take; lia).
  rewrite length_take, Nat.min_l by lia.
  destruct (decide (idx < k * cs + cs)).
  - rewrite lookup_app_l
      by (rewrite !length_fmap, length_batch; lia).
    rewrite decide_True by lia.
    rewrite <-list_fmap_compose, list_lookup_fmap, lookup_batch by lia.
    do 2 f_equal. lia.
  - rewrite lookup_app_r
      by (rewrite !length_fmap, length_batch; lia).
    rewrite !length_fmap, length_batch, lookup_drop.
    rewrite decide_False by lia. f_equal. lia.
Qed.

Lemma set_result_length (l : list A) (value : list (option B)) cs k :
  length value = length l → 0 < cs → k * cs < length l →
  length (take (k * cs) value ++ (Some <$> (g <$> Pool.batch l cs k))
            ++ drop ((k + 1) * cs) value) = length l.
Proof.
  intros. rewrite !length_app, !length_fmap, length_take, length_drop,
    length_batch. lia.
Qed.

Lemma starmap_partial procs (l : list A) (completed : list nat) :
  let cs := Pool.chunksize (length l) procs in
  0 < cs → (∀ k, k ∈ completed → k * cs < length l) →
  ∃ value, Pool.starmap procs f l completed = Ok value ∧
    length value = length l ∧
    ∀ idx, idx < length l →
      value !! idx = if decide (idx `div` cs ∈ completed)
                     then (Some ∘ g) <$> l !! idx else Some None.
Proof.
  intros cs Hcs. unfold Pool.starmap. fold cs.
  induction completed as [|k completed IH] using rev_ind; intros Hall.
  - eexists. split; [done|]. rewrite length_replicate. split; [done|].
    intros idx Hidx. rewrite decide_False by apply not_elem_of_nil.
    by apply lookup_replicate_2.
  - destruct IH as (value & Hv & Hlen & Hlook).
    { intros k' Hk'. apply Hall. apply elem_of_app. by left. }
    assert (k * cs < length l) as Hk.
    { apply Hall. apply elem_of_app. right. by left. }
    rewrite foldl_app. cbn [foldl]. rewrite Hv, mapM_total.
    cbn [Pool.set_result]. eexists. split; [done|].
    split; [by apply set_result_length|].
    intros idx Hidx. rewrite set_result_lookup by done.
    destruct (decide (idx `div` cs = k)) as [Heq|Hne].
    + rewrite decide_True; [done|]. apply elem_of_app. right.
      rewrite Heq. by left.
    + rewrite Hlook by done.
      destruct (decide (idx `div` cs ∈ completed)) as [Hin|Hnin].
      * rewrite decide_True; [done|]. apply elem_of_app. by left.
      * rewrite decide_False; [done|].
        intros [?|Hin%list_elem_of_singleton]%elem_of_app; done.
Qed.

Lemma starmap_complete procs (l : list A) (completion : list nat) :
  0 < procs → Pool.schedule (length l) procs completion →
  Pool.starmap procs f l completion = Ok ((Some ∘ g) <$> l).
Proof.
  intros Hp Hsched. unfold Pool.schedule in Hsched.
  destruct (decide (length l = 0)) as [Hnil|Hlen].
  { apply nil_length_inv in Hnil as ->.
    unfold Pool.number_left, Pool.chunksize in Hsched. simpl in Hsched.
    apply Permutation_nil_r in Hsched as ->. done. }
  pose proof (chunksize_pos (length l) procs) as Hcs.
  destruct (starmap_partial procs l completion) as (value & -> & Hl & Hlook).
  - apply Hcs; lia.
  - intros k Hk. rewrite Hsched in Hk. apply elem_of_seq in Hk.
    apply number_left_bound; [apply Hcs; lia | lia].
  - f_equal. apply list_eq. intros idx.
    destruct (decide (idx < length l)) as [Hidx|Hidx].
    + rewrite Hlook by done.
      rewrite decide_True; [by rewrite list_lookup_fmap|].
      rewrite Hsched. apply elem_of_seq. split; [lia|]. simpl.
      apply number_left_bound; [apply Hcs; lia|].
      pose proof (Nat.div_mod_eq idx (Pool.chunksize (length l) procs)).
      lia.
    + rewrite !lookup_ge_None_2; [done | rewrite length_fmap; lia | lia].
Qed.
End starmap.

(** The offsets that [kmp_search] returns. *)
Lemma kmp_search_total T P :
  kmp_search T P = Ok (if decide (P = []) then [] else occs T P (length T)).
Proof.
  destruct (decide (P = [])) as [->|HP].
  - unfold kmp_search. by rewrite bool_decide_eq_true_2 by tauto.
  - by apply kmp_search_occs.
Qed.

(** * Theorems *)

(** Two scenarios of the exact matcher, by evaluation. *)
Example kmp_search_scenario :
  kmp_search (s_ "ABABDABACDABABCABAB") (s_ "ABABCABAB") = Ok [10].
Proof. by vm_compute. Qed.

Example kmp_search_overlapping :
  kmp_search (s_ "aaaa") (s_ "aa") = Ok [0; 1; 2].
Proof. by vm_compute. Qed.

(** C1. For every text [T] and pattern [P], [kmp_search] returns the empty
    list when the pattern or the text is empty; for a non-empty pattern it
    returns a strictly ascending list of offsets that contains exactly the
    offsets [s] with [T[s:s+|P|] == P]. *)
Theorem kmp_search_correct (T P : str) :
  (P = [] ∨ T = [] → kmp_search T P = Ok []) ∧
  (P ≠ [] →
   ∃ L, kmp_search T P = Ok L ∧ StronglySorted lt L ∧
        ∀ s, s ∈ L ↔ slice T s (s + length P) = P).
Proof.
  split.
  - intros Hempty. unfold kmp_search. by rewrite bool_decide_eq_true_2.
  - intros HP. exists (occs T P (length T)). split_and!.
    + by apply kmp_search_occs.
    + apply StronglySorted_filter_seq.
    + intros s. by apply elem_of_occs.
Qed.

(** C2. For every list of corpora, every pattern, every worker count of at
    least 1 and every order in which the workers complete their batches,
    [parallel_search] returns one filled slot per corpus, in input order,
    holding what [kmp_search] returns on that corpus. *)
Theorem parallel_search_in_order (texts : list str) (pattern : str)
    (n_workers : Z) (completion : list nat) :
  (1 ≤ n_workers)%Z →
  Pool.schedule (length texts) (Z.to_nat n_workers) completion →
  ∃ L, parallel_search texts pattern n_workers completion = Ok (Some <$> L) ∧
       Forall2 (λ t r, kmp_search t pattern = Ok r) texts L.
Proof.
  intros Hn Hsched. unfold parallel_search, Pool.create.
  rewrite decide_False by lia. cbn [mbind result_bind].
  set (g := λ a : str * str,
         if decide (a.2 = []) then [] else occs a.1 a.2 (length a.1)).
  rewrite (starmap_complete _ g).
  - exists ((λ t, g (t, pattern)) <$> texts). split.
    + by rewrite <-!list_fmap_compose.
    + apply Forall2_fmap_r, Forall_Forall2_diag, Forall_forall.
      intros t _. apply kmp_search_total.
  - intros [t p]. apply kmp_search_total.
  - lia.
  - by rewrite length_fmap.
Qed.

Lemma parallel_search_in_order_witness :
  (1 ≤ 1)%Z ∧
  Pool.schedule 5 (Z.to_nat 1) [1; 0; 2] ∧
  ∃ L, parallel_search
         [s_ "aaaa"; s_ "baab"; s_ "xyz"; s_ "aa"; s_ "aaa"] (s_ "aa") 1
         [1; 0; 2] = Ok (Some <$> L) ∧
       Forall2 (λ t r, kmp_search t (s_ "aa") = Ok r)
         [s_ "aaaa"; s_ "baab"; s_ "xyz"; s_ "aa"; s_ "aaa"] L.
Proof.
  assert (Pool.schedule 5 (Z.to_nat 1) [1; 0; 2]) as Hs
    by apply perm_swap.
  split; [lia|]. split; [exact Hs|].
  apply (parallel_search_in_order
           [s_ "aaaa"; s_ "baab"; s_ "xyz"; s_ "aa"; s_ "aaa"] (s_ "aa") 1
           [1; 0; 2]); [lia | exact Hs].
Defined.

(** C3. The wildcard matcher rejects "abcdefg" for the pattern "a*b?d":
    both the stand-alone function and the method started at positions
    (0, 0), whatever was called on the matcher before. *)
Theorem wildcard_abcdefg_rejected :
  PatternMatcher.wildcard_match (s_ "abcdefg") (s_ "a*b?d") = Ok false ∧
  ∀ history,
    (Matcher.wildcard_match (s_ "abcdefg") (s_ "a*b?d") 0 0
       (Matcher.after history)).1 = Ok false.
Proof.
  split; [by vm_compute|].
  intros history. rewrite wildcard_match_after. by vm_compute.
Qed.

(** C4 (as the code behaves). On "AGCTTAGCTTAGCTTAGCTTA" and "GATTACA" with
    budget 2, [find_dna_motifs] returns twelve offsets: the recurrence may
    skip corpus symbols, so offsets 0..6 reach 0 mismatches and offsets
    7..11 reach 1. *)
Theorem find_dna_motifs_gattaca :
  DnaMotif.find_dna_motifs (s_ "AGCTTAGCTTAGCTTAGCTTA") (s_ "GATTACA") 2
  = Ok [(0, Fin 0); (1, Fin 0); (2, Fin 0); (3, Fin 0); (4, Fin 0);
        (5, Fin 0); (6, Fin 0); (7, Fin 1); (8, Fin 1); (9, Fin 1);
        (10, Fin 1); (11, Fin 1)].
Proof. by vm_compute. Qed.

(** C4, as stated, fails: the result is not the empty list. *)
Lemma find_dna_motifs_gattaca_not_empty :
  DnaMotif.find_dna_motifs (s_ "AGCTTAGCTTAGCTTAGCTTA") (s_ "GATTACA") 2
  ≠ Ok [].
Proof. by vm_compute. Qed.

(** C5 (as the code behaves). For every text and every non-empty pattern,
    the offsets of [kmp_search] are the start offsets of
    [fuzzy_regex_search] at distance 0, and every such result has score 0. *)
Theorem kmp_fuzzy_agree_nonempty (T P : str) : P ≠ [] → kmp_fuzzy_agree T P.
Proof.
  intros HP. exists (occs T P (length T)). split_and!.
  - by apply kmp_search_occs.
  - intros s. by rewrite fuzzy_zero_starts.
  - apply fuzzy_zero_scores.
Qed.

Lemma kmp_fuzzy_agree_nonempty_witness :
  s_ "ab" ≠ [] ∧ kmp_fuzzy_agree (s_ "abcab") (s_ "ab").
Proof.
  split; [done|]. apply (kmp_fuzzy_agree_nonempty (s_ "abcab") (s_ "ab")).
  done.
Defined.

(** C5, as stated, fails on the empty pattern: [kmp_search] returns no
    offset, the fuzzy scanner reports every offset. *)
Lemma kmp_fuzzy_disagree_empty_pattern : ¬ kmp_fuzzy_agree (s_ "a") (s_ "").
Proof.
  intros (L & HL & Hiff & _). vm_compute in HL. injection HL as <-.
  specialize (Hiff 0). apply not_elem_of_nil with (x := 0).
  apply Hiff. vm_compute. by left.
Qed.

Lemma md_value_recurrence dna motif (call : nat → nat → result cost) i j :
  (∀ i j, call i j = md_value dna motif i j) →
  motif_recurrence dna motif call i j.
Proof.
  intros Hcall. unfold motif_recurrence. rewrite !Hcall.
  rewrite (md_value_eq dna motif i j). split_and!.
  - intros ->. by rewrite decide_True.
  - intros ? ?. rewrite decide_False by lia. by rewrite decide_True by lia.
  - intros ? ?. do 2 (rewrite decide_False by lia).
    destruct (lookup_lt_is_Some_2 dna i) as [d Hd]; [lia|].
    destruct (lookup_lt_is_Some_2 motif j) as [c Hc]; [lia|].
    destruct (md_value_total dna motif (i + 1) (j + 1)) as [a Ha]; [lia|].
    destruct (md_value_total dna motif (i + 1) j) as [b Hb]; [lia|].
    exists d, c, a, b.
    rewrite (index_Ok _ _ _ Hd), (index_Ok _ _ _ Hc), Ha, Hb.
    split_and!; [done..|]. cbn [mbind result_bind]. unfold mismatch.
    by destruct (decide (d = c)), a, b.
Qed.

(** C6. At every text position [i] and motif position [j] (at most the
    length of the motif), and whatever has been memoised before,
    [min_mismatches] of [find_dna_motifs] and the method [motif_distance]
    satisfy the recurrence: 0 when [j] is the length of the motif;
    unreachable when fewer than [|motif| - j] symbols remain from [i];
    otherwise the minimum of the mismatch cost (0 when [dna[i]] and
    [motif[j]] are equal, 1 when they differ) plus the call at
    [(i+1, j+1)] and the call at [(i+1, j)], where unreachable plus a
    number is unreachable and is larger than every number. *)
Theorem min_mismatches_recurrence (dna motif : str) (i j : nat) :
  (∀ history,
     motif_recurrence dna motif
       (λ i j, (DnaMotif.min_mismatches dna motif i j
                  (DnaMotif.after dna motif history)).1) i j) ∧
  (∀ history,
     motif_recurrence dna motif
       (λ i j, (Matcher.motif_distance dna motif i j
                  (Matcher.after history)).1) i j).
Proof.
  split; intros history; apply md_value_recurrence; intros i' j'.
  - apply min_mismatches_after.
  - apply motif_distance_after.
Qed.

Lemma wm_value_empty_pattern T : wm_value T [] 0 0 = Ok (bool_decide (T = [])).
Proof.
  rewrite wm_value_eq. destruct T as [|c T]; [done|].
  destruct (decide (0 = length (c :: T) ∧ 0 = length ([] : str)))
    as [[[=] _]|_].
  destruct (decide (0 = length (c :: T))) as [[=]|_].
  destruct (decide (0 = length ([] : str))); done.
Qed.

(** C7. The wildcard matcher accepts every text, the empty one included,
    for the pattern "*"; on the empty text it returns true exactly when
    the pattern consists of '*' symbols only, and false otherwise; the
    empty pattern is accepted for the empty text only.  Both for the
    stand-alone function and for the method started at positions (0, 0),
    whatever was called on the matcher before. *)
Theorem wildcard_star_and_empty_text :
  (∀ T, PatternMatcher.wildcard_match T (s_ "*") = Ok true) ∧
  (∀ P, PatternMatcher.wildcard_match [] P
        = Ok (bool_decide (Forall (λ c, c = "*"%char) P))) ∧
  (∀ T, PatternMatcher.wildcard_match T [] = Ok (bool_decide (T = []))) ∧
  (∀ history T,
     (Matcher.wildcard_match T (s_ "*") 0 0 (Matcher.after history)).1
     = Ok true) ∧
  (∀ history P,
     (Matcher.wildcard_match [] P 0 0 (Matcher.after history)).1
     = Ok (bool_decide (Forall (λ c, c = "*"%char) P))) ∧
  (∀ history T,
     (Matcher.wildcard_match T [] 0 0 (Matcher.after history)).1
     = Ok (bool_decide (T = []))).
Proof.
  split_and!.
  - intros T. rewrite PatternMatcher_wildcard_match_value.
    apply wm_value_star. lia.
  - intros P. rewrite PatternMatcher_wildcard_match_value.
    by rewrite wm_value_empty_text, all_stars_Forall.
  - intros T. rewrite PatternMatcher_wildcard_match_value.
    apply wm_value_empty_pattern.
  - intros history T. rewrite wildcard_match_after. apply wm_value_star. lia.
  - intros history P. rewrite wildcard_match_after.
    by rewrite wm_value_empty_text, all_stars_Forall.
  - intros history T. rewrite wildcard_match_after.
    apply wm_value_empty_pattern.
Qed.

(** C8. For every worker count that is zero or negative, [parallel_search]
    raises the error of an invalid pool configuration (ValueError) and
    returns no result. *)
Theorem parallel_search_invalid_workers (texts : list str) (pattern : str)
    (n_workers : Z) (completion : list nat) :
  (n_workers ≤ 0)%Z →
  parallel_search texts pattern n_workers completion = Raise ValueError.
Proof.
  intros Hn. unfold parallel_search, Pool.create.
  by rewrite decide_True by lia.
Qed.

Lemma parallel_search_invalid_workers_witness :
  (0 ≤ 0)%Z ∧
  parallel_search [s_ "aaaa"; s_ "baab"] (s_ "aa") 0 [0] = Raise ValueError.
Proof.
  split; [lia|].
  apply (parallel_search_invalid_workers
           [s_ "aaaa"; s_ "baab"] (s_ "aa") 0 [0]).
  lia.
Defined.

(** C9. A call of any method (wildcard, motif, KMP, fuzzy, and the
    orchestrator as well) returns the same result when it is repeated at
    once, and the same result after any two histories of earlier calls:
    the call counter and the caches never change what is returned.  The
    same holds for [min_mismatches] and the memo table of one run of
    [find_dna_motifs]. *)
Theorem repeated_calls_agree :
  (∀ history c,
     let s := Matcher.after history in
     (Matcher.run_call c s).1
     = (Matcher.run_call c (Matcher.run_call c s).2).1) ∧
  (∀ history1 history2 c,
     (Matcher.run_call c (Matcher.after history1)).1
     = (Matcher.run_call c (Matcher.after history2)).1) ∧
  (∀ dna motif history i j,
     let s := DnaMotif.after dna motif history in
     (DnaMotif.min_mismatches dna motif i j s).1
     = (DnaMotif.min_mismatches dna motif i j
          (DnaMotif.min_mismatches dna motif i j s).2).1).
Proof.
  assert (∀ history1 history2 c,
     (Matcher.run_call c (Matcher.after history1)).1
     = (Matcher.run_call c (Matcher.after history2)).1) as Hany.
  { intros h1 h2 c. eapply det_same_value;
      [apply run_call_det | apply valid_after..]. }
  split_and!; [|done|].
  - intros history c s.
    replace (Matcher.run_call c s).2 with (Matcher.after (history ++ [c]))
      by (unfold Matcher.after; by rewrite foldl_app).
    apply Hany.
  - intros dna motif history i j s.
    replace (DnaMotif.min_mismatches dna motif i j s).2
      with (DnaMotif.after dna motif (history ++ [(i, j)]))
      by (unfold DnaMotif.after; by rewrite foldl_app).
    unfold s. by rewrite !min_mismatches_after.
Qed.

(** C10 fails on the code: with an empty pattern list, [analyze_all] raises
    IndexError (from [patterns[0]]) for every text, budget and matcher
    state, instead of returning an empty report. *)
Theorem analyze_all_empty_patterns (text : str) (max_motif_dist : Z)
    (s : Matcher.state) :
  (Matcher.analyze_all text [] max_motif_dist s).1 = Raise IndexError.
Proof. done. Qed.

(** * Further properties of the code *)

(** ** The prefix table *)

Lemma sm_take_drop (P : str) k q :
  k ≤ q → q ≤ length P →
  sm P P k q ↔ take k P = drop (q - k) (take q P).
Proof.
  intros Hk Hq. split.
  - intros (_ & _ & _ & Hsm). apply list_eq. intros t.
    destruct (decide (t < k)).
    + rewrite lookup_take_lt, lookup_drop, lookup_take_lt by lia. by apply Hsm.
    + rewrite lookup_take_ge by lia. symmetry. apply lookup_ge_None.
      rewrite length_drop, length_take. lia.
  - intros Heq. split_and!; [lia..|]. intros t Ht.
    rewrite <-(lookup_take_lt P k t) by done. rewrite Heq.
    rewrite lookup_drop, lookup_take_lt by lia. done.
Qed.

(** X1. The first loop of [kmp_search] builds the failure function: for a
    non-empty pattern the table has one entry per symbol, and entry [q-1]
    is the length of the longest proper prefix of [pattern[0:q]] that is
    also a suffix of it. *)
Theorem compute_lps_longest_border (P : str) :
  P ≠ [] →
  ∃ lps, compute_lps P = Ok lps ∧ length lps = length P ∧
    ∀ q, 1 ≤ q ≤ length P →
      ∃ v, lps !! (q - 1) = Some v ∧ v < q ∧
           take v P = drop (q - v) (take q P) ∧
           ∀ k, k < q → take k P = drop (q - k) (take q P) → k ≤ v.
Proof.
  intros HP. destruct (compute_lps_ok P HP) as (lps & Hlps & Hlen & Hok).
  exists lps. split_and!; [done..|]. intros q Hq.
  destruct (Hok q Hq) as (v & Hv & Hlt & Hsm & Hmax).
  exists v. split_and!; [done.. | |].
  - apply sm_take_drop; [lia.. | done].
  - intros k Hk Heq. apply Hmax; [done|]. apply sm_take_drop; [lia.. | done].
Qed.

Lemma compute_lps_longest_border_witness :
  s_ "ABABCABAB" ≠ [] ∧
  ∃ lps, compute_lps (s_ "ABABCABAB") = Ok lps ∧
    length lps = length (s_ "ABABCABAB") ∧
    ∀ q, 1 ≤ q ≤ length (s_ "ABABCABAB") →
      ∃ v, lps !! (q - 1) = Some v ∧ v < q ∧
           take v (s_ "ABABCABAB") = drop (q - v) (take q (s_ "ABABCABAB")) ∧
           ∀ k, k < q →
             take k (s_ "ABABCABAB") = drop (q - k) (take q (s_ "ABABCABAB")) →
             k ≤ v.
Proof.
  split; [done|]. apply (compute_lps_longest_border (s_ "ABABCABAB")). done.
Defined.

(** ** The fuzzy scanner *)

Lemma elem_of_fuzzy_regex_search (T P : str) (k : Z) r :
  r ∈ Matcher.fuzzy_regex_search T P k ↔
    ∃ i, i + length P ≤ length T ∧
      (Z.of_nat (Matcher.hamming (slice T i (i + length P)) P) ≤ k)%Z ∧
      r = mkMatchResult i (i + length P)
            (Matcher.hamming (slice T i (i + length P)) P) "fuzzy_regex"
            (pretty (Matcher.hamming (slice T i (i + length P)) P)
               +:+ " mismatches").
Proof.
  rewrite fuzzy_regex_search_fmap, list_elem_of_fmap. split.
  - intros (i & -> & [Hi Hs%elem_of_seq]%list_elem_of_filter).
    apply bool_decide_eq_true in Hi. exists i. split_and!; [lia | done..].
  - intros (i & Hi & Hd & ->). exists i. split; [done|].
    apply list_elem_of_filter. split; [by apply bool_decide_eq_true|].
    apply elem_of_seq. lia.
Qed.


(** X3. Degenerate inputs give an empty result and no error: a pattern
    longer than the text, or a negative distance budget. *)
Theorem fuzzy_regex_search_degenerate (T P : str) (k : Z) :
  length T < length P ∨ (k < 0)%Z → Matcher.fuzzy_regex_search T P k = [].
Proof.
  intros Hdeg. destruct (Matcher.fuzzy_regex_search T P k) as [|r l] eqn:Hf;
    [done|].
  assert (r ∈ Matcher.fuzzy_regex_search T P k) as Hr by (rewrite Hf; by left).
  apply elem_of_fuzzy_regex_search in Hr as (i & ? & ? & _). lia.
Qed.

Lemma fuzzy_regex_search_degenerate_witness :
  (length (s_ "ab") < length (s_ "abc") ∨ (2 < 0)%Z) ∧
  Matcher.fuzzy_regex_search (s_ "ab") (s_ "abc") 2 = [].
Proof.
  assert (length (s_ "ab") < length (s_ "abc") ∨ (2 < 0)%Z) as H
    by (left; simpl; lia).
  split; [exact H|].
  apply (fuzzy_regex_search_degenerate (s_ "ab") (s_ "abc") 2 H).
Defined.

(** ** The two implementations of each memoised matcher agree *)

(** X4. The method [wildcard_match] started at positions (0, 0), whatever
    was called on the matcher before, and the stand-alone [wildcard_match]
    of "Pattern matcher i.py" return the same result on every text and
    pattern. *)
Theorem wildcard_implementations_agree (history : list Matcher.call)
    (T P : str) :
  (Matcher.wildcard_match T P 0 0 (Matcher.after history)).1
  = PatternMatcher.wildcard_match T P.
Proof.
  by rewrite wildcard_match_after, PatternMatcher_wildcard_match_value.
Qed.

(** X5. The method [motif_distance] and the inner [min_mismatches] of
    [find_dna_motifs] return the same result at every pair of positions,
    whatever either has cached before. *)
Theorem motif_implementations_agree (history : list Matcher.call)
    (history' : list (nat * nat)) (dna motif : str) (i j : nat) :
  (Matcher.motif_distance dna motif i j (Matcher.after history)).1
  = (DnaMotif.min_mismatches dna motif i j
       (DnaMotif.after dna motif history')).1.
Proof. by rewrite motif_distance_after, min_mismatches_after. Qed.

(** ** What the wildcard matcher decides *)

Lemma glob_b_star p t :
  glob_b ("*"%char :: p) t
  = glob_b p t || match t with [] => false | _ :: t' => glob_b ("*"%char :: p) t' end.
Proof. cbn [glob_b]. rewrite decide_True by done. by destruct t. Qed.

Lemma glob_b_other c p t :
  c ≠ "*"%char →
  glob_b (c :: p) t
  = match t with
    | [] => false
    | d :: t' =>
        (bool_decide (c = "?"%char) || bool_decide (c = d)) && glob_b p t'
    end.
Proof. intros Hc. cbn [glob_b]. by rewrite decide_False by done. Qed.

Lemma glob_b_nil_text p : glob_b p [] = all_stars p.
Proof.
  induction p as [|c p IH]; [done|]. unfold all_stars in *. cbn [forallb].
  destruct (decide (c = "*"%char)) as [->|Hc].
  - rewrite glob_b_star, IH. rewrite bool_decide_eq_true_2 by done.
    by rewrite orb_false_r.
  - rewrite glob_b_other by done. by rewrite bool_decide_eq_false_2.
Qed.

Lemma wm_value_glob T P i j :
  i ≤ length T → j ≤ length P →
  wm_value T P i j = Ok (glob_b (drop j P) (drop i T)).
Proof.
  remember (wm_mu T P i j) as k eqn:Hk. revert i j Hk.
  induction (lt_wf k) as [k _ IH]. intros i j -> Hi Hj.
  rewrite wm_value_eq.
  destruct (decide (i = length T ∧ j = length P)) as [[-> ->]|Hne].
  { by rewrite !drop_all. }
  destruct (decide (i = length T)) as [->|Hi'].
  { by rewrite drop_all, glob_b_nil_text. }
  destruct (decide (j = length P)) as [->|Hj'].
  { rewrite drop_all. cbn [glob_b]. rewrite bool_decide_eq_false_2; [done|].
    intros Hd. apply (f_equal length) in Hd. rewrite length_drop in Hd.
    simpl in Hd. lia. }
  destruct (lookup_lt_is_Some_2 P j) as [pj Hpj]; [lia|].
  destruct (lookup_lt_is_Some_2 T i) as [ti Hti]; [lia|].
  rewrite (index_Ok _ _ _ Hpj), (index_Ok _ _ _ Hti).
  cbn [mbind result_bind].
  rewrite (drop_S P pj j Hpj), (drop_S T ti i Hti).
  assert (∀ i' j', i' ≤ length T → j' ≤ length P →
            wm_mu T P i' j' < wm_mu T P i j →
            wm_value T P i' j' = Ok (glob_b (drop j' P) (drop i' T))) as IH'.
  { intros i' j' ? ? ?. by eapply IH. }
  unfold wm_mu in IH'. rewrite !Nat.add_1_r.
  destruct (decide (pj = "*"%char)) as [->|Hstar].
  - rewrite glob_b_star. rewrite (IH' i (S j)) by lia.
    cbn [mbind result_bind]. rewrite (drop_S T ti i Hti).
    destruct (glob_b (drop (S j) P) (ti :: drop (S i) T)); [done|].
    destruct (decide (i < length T)); [|lia]. rewrite (IH' (S i) j) by lia.
    by rewrite (drop_S P "*"%char j Hpj).
  - rewrite glob_b_other by done.
    destruct (decide (pj = "?"%char)) as [->|Hq]; cbn [mbind result_bind].
    + rewrite bool_decide_eq_true_2 by done. cbn [orb andb].
      by rewrite (IH' (S i) (S j)) by lia.
    + rewrite (bool_decide_eq_false_2 (pj = "?"%char)) by done. cbn [orb].
      destruct (bool_decide (pj = ti)); cbn [andb]; [|done].
      by rewrite (IH' (S i) (S j)) by lia.
Qed.

Lemma glob_b_sound p t : glob_b p t = true → glob t p.
Proof.
  revert t. induction p as [|c p IH]; intros t.
  - cbn [glob_b]. intros ->%bool_decide_eq_true. constructor.
  - destruct (decide (c = "*"%char)) as [->|Hc].
    + induction t as [|d t IHt]; rewrite glob_b_star.
      * rewrite orb_false_r. intros H. apply (glob_star [] []). by apply IH.
      * intros [H|H]%orb_true_iff.
        -- apply (glob_star [] (d :: t)). by apply IH.
        -- specialize (IHt H). inversion IHt as [| | |s t0 p0 Hg]; subst.
           ++ done.
           ++ apply (glob_star (d :: s) t0). done.
    + rewrite glob_b_other by done. destruct t as [|d t]; [done|].
      intros [Hcd Hp]%andb_true_iff. apply IH in Hp.
      apply orb_true_iff in Hcd as [->%bool_decide_eq_true | ->%bool_decide_eq_true].
      * by constructor.
      * by constructor.
Qed.

Lemma glob_b_complete t p : glob t p → glob_b p t = true.
Proof.
  induction 1 as [|c t p _ IH|c t p Hc _ IH|s t p _ IH].
  - done.
  - rewrite glob_b_other by done. rewrite bool_decide_eq_true_2 by done.
    by rewrite IH.
  - rewrite glob_b_other by done.
    rewrite (bool_decide_eq_true_2 (c = c)) by done.
    by rewrite orb_true_r, IH.
  - induction s as [|d s IHs]; rewrite glob_b_star; cbn [app].
    + by rewrite IH.
    + by rewrite IHs, orb_true_r.
Qed.

Lemma glob_b_glob p t : glob_b p t = true ↔ glob t p.
Proof. split; [apply glob_b_sound | apply glob_b_complete]. Qed.

(** X6. The stand-alone [wildcard_match] never raises, and it returns true
    exactly when the whole text matches the pattern, '?' standing for one
    symbol and '*' for any sequence of symbols. *)
Theorem wildcard_match_decides_glob (T P : str) :
  ∃ b, PatternMatcher.wildcard_match T P = Ok b ∧ (b = true ↔ glob T P).
Proof.
  exists (glob_b P T). split; [|apply glob_b_glob].
  rewrite PatternMatcher_wildcard_match_value. by rewrite wm_value_glob by lia.
Qed.

(** X7. Started at a text position [i] and a pattern position [j] inside
    their strings, the method [wildcard_match] never raises and returns
    true exactly when the rest of the text, [text[i:]], matches the rest of
    the pattern, [pattern[j:]]; this is what the orchestrator relies on
    when it calls it at [(start, 0)]. *)
Theorem wildcard_match_method_decides_glob (history : list Matcher.call)
    (T P : str) (i j : nat) :
  i ≤ length T → j ≤ length P →
  ∃ b, (Matcher.wildcard_match T P i j (Matcher.after history)).1 = Ok b ∧
       (b = true ↔ glob (slice_from T i) (slice_from P j)).
Proof.
  intros Hi Hj. exists (glob_b (drop j P) (drop i T)).
  split; [|apply glob_b_glob].
  rewrite wildcard_match_after. by apply wm_value_glob.
Qed.

Lemma wildcard_match_method_decides_glob_witness :
  2 ≤ length (s_ "xxabc") ∧ 0 ≤ length (s_ "a*") ∧
  ∃ b, (Matcher.wildcard_match (s_ "xxabc") (s_ "a*") 2 0
          (Matcher.after [])).1 = Ok b ∧
       (b = true ↔ glob (slice_from (s_ "xxabc") 2) (slice_from (s_ "a*") 0)).
Proof.
  split; [simpl; lia|]. split; [simpl; lia|].
  apply (wildcard_match_method_decides_glob [] (s_ "xxabc") (s_ "a*") 2 0);
    simpl; lia.
Defined.

Lemma glob_b_literal (P T : str) :
  Forall (λ c, c ≠ "*"%char ∧ c ≠ "?"%char) P →
  glob_b P T = bool_decide (T = P).
Proof.
  intros HP. revert T. induction HP as [|c P [Hs Hq] _ IH]; intros T.
  - cbn [glob_b]. apply bool_decide_ext. done.
  - rewrite glob_b_other by done. destruct T as [|d T].
    + by rewrite bool_decide_eq_false_2.
    + rewrite (bool_decide_eq_false_2 (c = "?"%char)) by done. cbn [orb].
      rewrite IH. destruct (decide (c = d)) as [->|Hcd].
      * rewrite bool_decide_eq_true_2 by done. cbn [andb].
        apply bool_decide_ext. split; congruence.
      * rewrite (bool_decide_eq_false_2 (c = d)) by done. cbn [andb].
        symmetry. apply bool_decide_eq_false_2. congruence.
Qed.

(** X8. For a pattern without '*' and '?', both wildcard matchers test
    equality: they return true when the text is the pattern and false
    otherwise. *)
Theorem wildcard_match_literal (history : list Matcher.call) (T P : str) :
  Forall (λ c, c ≠ "*"%char ∧ c ≠ "?"%char) P →
  PatternMatcher.wildcard_match T P = Ok (bool_decide (T = P)) ∧
  (Matcher.wildcard_match T P 0 0 (Matcher.after history)).1
  = Ok (bool_decide (T = P)).
Proof.
  intros HP. rewrite wildcard_match_after, PatternMatcher_wildcard_match_value.
  rewrite wm_value_glob by lia. rewrite !drop_0. by rewrite glob_b_literal.
Qed.

Lemma wildcard_match_literal_witness :
  Forall (λ c, c ≠ "*"%char ∧ c ≠ "?"%char) (s_ "ab") ∧
  PatternMatcher.wildcard_match (s_ "ab") (s_ "ab")
  = Ok (bool_decide (s_ "ab" = s_ "ab")) ∧
  (Matcher.wildcard_match (s_ "ab") (s_ "ab") 0 0 (Matcher.after [])).1
  = Ok (bool_decide (s_ "ab" = s_ "ab")).
Proof.
  assert (Forall (λ c, c ≠ "*"%char ∧ c ≠ "?"%char) (s_ "ab")) as H
    by (repeat constructor; done).
  split; [exact H|].
  apply (wildcard_match_literal [] (s_ "ab") (s_ "ab") H).
Defined.

(** ** What the motif scanner computes *)

Ltac cost_tac :=
  cbn [cost_leq cost_min cost_add] in *; first [done | lia | tauto].

Lemma md_value_mm D Mo i j :
  j ≤ length Mo → md_value D Mo i j = Ok (mm (drop i D) (drop j Mo)).
Proof.
  remember (length D - i) as k eqn:Hk. revert i j Hk.
  induction (lt_wf k) as [k _ IH]. intros i j -> Hj.
  rewrite md_value_eq.
  destruct (decide (j = length Mo)) as [->|Hj'].
  { rewrite drop_all. by destruct (drop i D). }
  destruct (lookup_lt_is_Some_2 Mo j) as [c Hc]; [lia|].
  rewrite (drop_S Mo c j Hc).
  destruct (decide (i < length D)) as [Hi|Hi].
  - destruct (lookup_lt_is_Some_2 D i) as [x Hx]; [lia|].
    rewrite (drop_S D x i Hx). cbn [mm]. rewrite !length_drop.
    destruct (decide (Z.of_nat i + Z.of_nat (length Mo) - Z.of_nat j
                      > Z.of_nat (length D))%Z).
    + by rewrite decide_True by lia.
    + rewrite decide_False by lia.
      rewrite (index_Ok _ _ _ Hx), (index_Ok _ _ _ Hc).
      cbn [mbind result_bind]. rewrite !Nat.add_1_r.
      rewrite (IH (length D - S i)) with (i := S i) (j := S j) by lia.
      rewrite (IH (length D - S i)) with (i := S i) (j := j) by lia.
      cbn [mbind result_bind]. by rewrite (drop_S Mo c j Hc).
  - rewrite drop_ge by lia. cbn [mm]. by rewrite decide_True by lia.
Qed.

Lemma mm_Inf d m : mm d m = Inf ↔ length d < length m.
Proof.
  revert m. induction d as [|x d IH]; intros [|c m]; cbn [mm length];
    try (split; intros H; try done; lia).
  destruct (decide (length d < length m)); [split; [lia | done]|].
  split; [|lia]. destruct (mm d m) as [a|] eqn:Ha.
  - unfold mismatch. destruct (decide (x = c)), (mm d (c :: m)); done.
  - apply IH in Ha. lia.
Qed.

Lemma mm_bound d m k : mm d m = Fin k → k ≤ length m.
Proof.
  revert m k. induction d as [|x d IH]; intros [|c m] k; cbn [mm length];
    [intros [= <-]; lia | done | intros [= <-]; lia |].
  destruct (decide (length d < length m)); [done|].
  destruct (mm d m) as [a|] eqn:Ha.
  - specialize (IH m a Ha). unfold mismatch.
    destruct (decide (x = c)), (mm d (c :: m)) as [[|b]|];
      cbn [cost_min cost_add]; intros [= <-]; lia.
  - apply mm_Inf in Ha. lia.
Qed.

Lemma mm_skip x d m : cost_leq (mm (x :: d) m) (mm d m).
Proof.
  destruct m as [|c m]; cbn [mm].
  - destruct d; cbn; lia.
  - destruct (decide (length d < length m)) as [Hlt|Hge].
    + assert (mm d (c :: m) = Inf) as -> by (apply mm_Inf; simpl; lia). done.
    + destruct (cost_add (mismatch x c) (mm d m)), (mm d (c :: m)); cost_tac.
Qed.

Lemma mm_drop_mono d m s s' :
  s' ≤ s → cost_leq (mm (drop s' d) m) (mm (drop s d) m).
Proof.
  intros Hs. replace s with (s' + (s - s')) by lia. rewrite <-drop_drop.
  generalize (drop s' d) as e. clear. intros e.
  induction (s - s') as [|k IH] in e |- *.
  - rewrite drop_0. destruct (mm e m); cost_tac.
  - destruct e as [|x e];
      [rewrite drop_nil; destruct (mm [] m); cost_tac|].
    cbn [drop]. pose proof (mm_skip x e m) as H1. specialize (IH e).
    destruct (mm (x :: e) m), (mm e m), (mm (drop k e) m);
      cost_tac.
Qed.

Lemma mm_hamming d m :
  length m ≤ length d →
  cost_leq (mm d m) (Fin (Matcher.hamming (take (length m) d) m)).
Proof.
  revert m. induction d as [|x d IH]; intros [|c m] Hlen; cbn [mm length take];
    cbn in Hlen; [cost_tac | lia | cost_tac |].
  rewrite decide_False by lia. rewrite hamming_cons.
  specialize (IH m ltac:(lia)). unfold mismatch.
  destruct (decide (x = c)) as [->|Hne].
  - rewrite decide_False by (intros H; by apply H).
    destruct (mm d m), (mm d (c :: m)); cost_tac.
  - rewrite decide_True by done.
    destruct (mm d m), (mm d (c :: m)); cost_tac.
Qed.

Lemma mm_zero d m : mm d m = Fin 0 ↔ m `sublist_of` d.
Proof.
  split.
  - revert m. induction d as [|x d IH]; intros [|c m]; cbn [mm];
      [constructor | done | intros _; apply sublist_nil_l |].
    destruct (decide (length d < length m)); [done|].
    unfold mismatch. destruct (decide (x = c)) as [->|Hne].
    + destruct (mm d m) as [[|a]|] eqn:Ha.
      * intros _. apply sublist_skip. by apply IH.
      * destruct (mm d (c :: m)) as [[|b]|] eqn:Hb; cbn; [|done..].
        intros _. apply sublist_cons. by apply IH.
      * destruct (mm d (c :: m)) as [[|b]|] eqn:Hb; cbn; [|done..].
        intros _. apply sublist_cons. by apply IH.
    + destruct (mm d m) as [a|] eqn:Ha;
        destruct (mm d (c :: m)) as [[|b]|] eqn:Hb; cbn;
        try done; try (intros [=]; lia);
        intros _; apply sublist_cons; by apply IH.
  - induction 1 as [|x m d Hs IH|x m d Hs IH].
    + done.
    + pose proof (sublist_length _ _ Hs) as Hlen.
      cbn [mm]. destruct (decide (length d < length m)); [lia|].
      rewrite IH. unfold mismatch. destruct (decide (x = x)); [|done].
      by destruct (mm d (x :: m)).
    + pose proof (sublist_length _ _ Hs) as Hlen.
      destruct m as [|c m]; [done|]. cbn [mm]. cbn [length] in Hlen.
      destruct (decide (length d < length m)); [lia|].
      rewrite IH. by destruct (cost_add (mismatch x c) (mm d m)) as [[|a]|].
Qed.

(** ** The motif scanner *)

Lemma for_each_collect {St A B C} (inv : St → Prop) (f : A → M St B)
    (v : A → B) (c : B → bool) (g : A → B → C) (l : list A) (acc : list C) :
  (∀ x, x ∈ l → returns (f x) inv (Ok (v x))) →
  returns
    (for_each l acc (λ acc x,
       y ← f x; if c y then mret (acc ++ [g x y]) else mret acc))
    inv
    (Ok (acc ++ omap (λ x, if c (v x) then Some (g x (v x)) else None) l)).
Proof.
  revert acc. induction l as [|x l IH]; intros acc Hf.
  - intros s Hs. exists s. by rewrite app_nil_r.
  - cbn [for_each].
    set (acc1 := if c (v x) then acc ++ [g x (v x)] else acc).
    set (F := λ x, if c (v x) then Some (g x (v x)) else None).
    assert (acc ++ omap F (x :: l) = acc1 ++ omap F l) as ->.
    { cbn [omap list_omap]. unfold acc1, F at 1.
      destruct (c (v x)); [by rewrite <-app_assoc | done]. }
    apply (returns_bind inv _ _ (Ok acc1) (λ a, Ok (a ++ omap F l))).
    + apply (returns_bind inv (f x) _ (Ok (v x))
               (λ y, Ok (if c y then acc ++ [g x y] else acc))).
      * apply Hf. by left.
      * intros y [= <-]. destruct (c (v x)); apply returns_ret.
    + intros a [= <-]. apply IH. intros; apply Hf; by right.
Qed.


Lemma elem_of_omap_if {A B} (p : A → bool) (w : A → B) (l : list A) x y :
  (x, y) ∈ omap (λ x, if p x then Some (x, w x) else None) l
  ↔ x ∈ l ∧ p x = true ∧ y = w x.
Proof.
  rewrite list_elem_of_omap. split.
  - intros (x' & Hin & Heq). destruct (p x') eqn:Hp; [|done].
    injection Heq as -> ->. done.
  - intros (Hin & Hp & ->). exists x. by rewrite Hp.
Qed.

Lemma find_dna_motifs_eq D Mo k :
  DnaMotif.find_dna_motifs D Mo k
  = Ok (omap (λ s, if cost_le (mm (drop s D) Mo) k
                   then Some (s, mm (drop s D) Mo) else None)
          (seq 0 (length D + 1 - length Mo))).
Proof.
  unfold DnaMotif.find_dna_motifs, DnaMotif.find_dna_motifs_loop. cbn zeta.
  destruct (for_each_collect (md_memo_ok D Mo)
              (λ start, DnaMotif.min_mismatches D Mo start 0)
              (λ s, mm (drop s D) Mo) (λ y, cost_le y k) (λ s y, (s, y))
              (seq 0 (length D + 1 - length Mo)) [])
    with (s := (∅ : gmap (nat * nat) cost)) as (s' & Heq & _).
  - intros s _. cbn beta.
    replace (mm (drop s D) Mo) with (mm (drop s D) (drop 0 Mo))
      by (by rewrite drop_0).
    rewrite <-md_value_mm by lia. apply min_mismatches_returns.
  - apply md_memo_ok_empty.
  - by rewrite Heq.
Qed.



(** X10. Because the recurrence may skip corpus symbols, the reported
    offsets are closed downwards: every offset before a reported one is
    reported too, with at most as many mismatches. *)
Theorem find_dna_motifs_downward_closed (dna motif : str)
    (max_mismatches : Z) :
  ∃ L, DnaMotif.find_dna_motifs dna motif max_mismatches = Ok L ∧
    ∀ s c s', (s, c) ∈ L → s' ≤ s →
      ∃ c', (s', c') ∈ L ∧ cost_leq c' c.
Proof.
  eexists. split; [apply find_dna_motifs_eq|].
  intros s c s'. rewrite elem_of_omap_if, elem_of_seq.
  intros (Hs & Hle & ->) Hs'.
  pose proof (mm_drop_mono dna motif s s' Hs') as Hmono.
  exists (mm (drop s' dna) motif). split; [|done].
  apply elem_of_omap_if. rewrite elem_of_seq. split_and!; [lia.. | | done].
  destruct (mm (drop s' dna) motif), (mm (drop s dna) motif);
    cbn [cost_le cost_leq] in *; try done.
  apply bool_decide_eq_true in Hle. apply bool_decide_eq_true. lia.
Qed.

(** X11. The scanner never misses a fixed window: an offset whose window
    [dna[s:s+|motif|]] differs from the motif in at most [max_mismatches]
    positions is reported, with a count that is at most that number. *)
Theorem find_dna_motifs_fixed_window (dna motif : str) (max_mismatches : Z)
    (s : nat) :
  s + length motif ≤ length dna →
  (Z.of_nat (Matcher.hamming (slice dna s (s + length motif)) motif)
   ≤ max_mismatches)%Z →
  ∃ L c, DnaMotif.find_dna_motifs dna motif max_mismatches = Ok L ∧
    (s, Fin c) ∈ L ∧
    c ≤ Matcher.hamming (slice dna s (s + length motif)) motif.
Proof.
  intros Hs Hh. unfold slice in *.
  replace (s + length motif - s) with (length motif) in * by lia.
  pose proof (mm_hamming (drop s dna) motif) as Hle.
  rewrite length_drop in Hle. specialize (Hle ltac:(lia)).
  destruct (mm (drop s dna) motif) as [c|] eqn:Hc; [|done].
  cbn [cost_leq] in Hle.
  eexists _, c. split; [apply find_dna_motifs_eq|]. split; [|done].
  apply elem_of_omap_if. rewrite elem_of_seq, Hc.
  split_and!; [lia.. | | done]. apply bool_decide_eq_true. lia.
Qed.

Lemma find_dna_motifs_fixed_window_witness :
  1 + length (s_ "GAT") ≤ length (s_ "AGCTT") ∧
  (Z.of_nat (Matcher.hamming (slice (s_ "AGCTT") 1 (1 + length (s_ "GAT")))
               (s_ "GAT")) ≤ 1)%Z ∧
  ∃ L c, DnaMotif.find_dna_motifs (s_ "AGCTT") (s_ "GAT") 1 = Ok L ∧
    (1, Fin c) ∈ L ∧
    c ≤ Matcher.hamming (slice (s_ "AGCTT") 1 (1 + length (s_ "GAT")))
          (s_ "GAT").
Proof.
  assert (1 + length (s_ "GAT") ≤ length (s_ "AGCTT")) as H1
    by (simpl; lia).
  assert (Z.of_nat (Matcher.hamming
             (slice (s_ "AGCTT") 1 (1 + length (s_ "GAT"))) (s_ "GAT"))
          ≤ 1)%Z as H2 by (vm_compute; discriminate).
  split; [exact H1|]. split; [exact H2|].
  apply (find_dna_motifs_fixed_window (s_ "AGCTT") (s_ "GAT") 1 1 H1 H2).
Defined.

(** X12. With a non-negative budget, an offset is reported with 0
    mismatches exactly when the motif fits from there and is a
    subsequence of the rest of the corpus, [dna[s:]]. *)
Theorem find_dna_motifs_zero_subsequence (dna motif : str)
    (max_mismatches : Z) (s : nat) :
  (0 ≤ max_mismatches)%Z →
  ∃ L, DnaMotif.find_dna_motifs dna motif max_mismatches = Ok L ∧
    ((s, Fin 0) ∈ L ↔
     s + length motif ≤ length dna ∧ motif `sublist_of` slice_from dna s).
Proof.
  intros Hk. eexists. split; [apply find_dna_motifs_eq|].
  rewrite elem_of_omap_if, elem_of_seq. unfold slice_from.
  rewrite <-mm_zero. split.
  - intros (? & ? & ?). split; [lia | done].
  - intros (? & Hz). rewrite Hz. split_and!; [lia.. | | done].
    apply bool_decide_eq_true. lia.
Qed.

Lemma find_dna_motifs_zero_subsequence_witness :
  (0 ≤ 2)%Z ∧
  ∃ L, DnaMotif.find_dna_motifs (s_ "AGCTTAG") (s_ "GTA") 2 = Ok L ∧
    ((1, Fin 0) ∈ L ↔
     1 + length (s_ "GTA") ≤ length (s_ "AGCTTAG") ∧
     s_ "GTA" `sublist_of` slice_from (s_ "AGCTTAG") 1).
Proof.
  split; [lia|].
  apply (find_dna_motifs_zero_subsequence (s_ "AGCTTAG") (s_ "GTA") 2 1).
  lia.
Defined.

(** X13. At a motif position [j] inside the motif, [min_mismatches] never
    raises; it is unreachable (infinity) exactly when fewer corpus symbols
    than motif symbols remain, and otherwise at most the number of motif
    symbols that remain. *)
Theorem min_mismatches_bounds (history : list (nat * nat)) (dna motif : str)
    (i j : nat) :
  j ≤ length motif →
  ∃ c, (DnaMotif.min_mismatches dna motif i j
          (DnaMotif.after dna motif history)).1 = Ok c ∧
    (c = Inf ↔ length dna - i < length motif - j) ∧
    (∀ k, c = Fin k → k ≤ length motif - j).
Proof.
  intros Hj. exists (mm (drop i dna) (drop j motif)).
  rewrite min_mismatches_after. split; [by apply md_value_mm|]. split.
  - by rewrite mm_Inf, !length_drop.
  - intros k Hk%mm_bound. by rewrite length_drop in Hk.
Qed.

Lemma min_mismatches_bounds_witness :
  0 ≤ length (s_ "GAT") ∧
  ∃ c, (DnaMotif.min_mismatches (s_ "AGCTT") (s_ "GAT") 1 0
          (DnaMotif.after (s_ "AGCTT") (s_ "GAT") [])).1 = Ok c ∧
    (c = Inf ↔ length (s_ "AGCTT") - 1 < length (s_ "GAT") - 0) ∧
    (∀ k, c = Fin k → k ≤ length (s_ "GAT") - 0).
Proof.
  split; [simpl; lia|].
  apply (min_mismatches_bounds [] (s_ "AGCTT") (s_ "GAT") 1 0). simpl; lia.
Defined.

(** ** The orchestrator on a non-empty pattern list *)

Lemma for_each_app {St A C} (inv : St → Prop) (body : list C → A → M St (list C))
    (out : A → list C) (l : list A) (acc : list C) :
  (∀ acc x, x ∈ l → returns (body acc x) inv (Ok (acc ++ out x))) →
  returns (for_each l acc body) inv (Ok (acc ++ mjoin (out <$> l))).
Proof.
  revert acc. induction l as [|x l IH]; intros acc Hbody.
  - intros s Hs. exists s. cbn. by rewrite app_nil_r.
  - cbn [for_each fmap list_fmap mjoin list_join].
    rewrite app_assoc.
    apply (returns_bind inv _ _ (Ok (acc ++ out x))
             (λ a, Ok (a ++ mjoin (out <$> l)))).
    + apply Hbody. by left.
    + intros a [= <-]. apply IH. intros; apply Hbody; by right.
Qed.

Lemma omap_mjoin {A C} (f : A → option C) (l : list A) :
  omap f l = mjoin ((λ x, match f x with Some y => [y] | None => [] end) <$> l).
Proof.
  induction l as [|x l IH]; [done|]. cbn. rewrite IH. by destruct (f x).
Qed.

Lemma wildcard_pass text p acc :
  returns
    (for_each (seq 0 (length text)) acc (λ wc_results start,
       b ← Matcher.wildcard_match text p start 0;
       if (b : bool) then
         mret (wc_results
                 ++ [(start, slice text start (start + 10) ++ s_ "...")])
       else mret wc_results))
    valid (Ok (acc ++ wildcard_hits text p)).
Proof.
  unfold wildcard_hits. rewrite omap_mjoin. apply for_each_app.
  intros acc' start Hs%elem_of_seq.
  assert (returns (Matcher.wildcard_match text p start 0) valid
            (Ok (glob_b p (drop start text)))) as Hcall.
  { replace (glob_b p (drop start text))
      with (glob_b (drop 0 p) (drop start text)) by (by rewrite drop_0).
    rewrite <-wm_value_glob by lia. apply wildcard_match_returns. }
  destruct (glob_b p (drop start text)).
  - apply (returns_bind valid _ _ (Ok true)
             (λ _, Ok (acc' ++ [(start,
                                 slice text start (start + 10) ++ s_ "...")])));
      [done|]. intros b [= <-]. apply returns_ret.
  - rewrite app_nil_r.
    apply (returns_bind valid _ _ (Ok false) (λ _, Ok acc')); [done|].
    intros b [= <-]. apply returns_ret.
Qed.

Lemma motif_pass text p k acc :
  returns
    (for_each (seq 0 (length text + 1 - length p)) acc
       (λ motif_results start,
          dist ← Matcher.motif_distance text p start 0;
          if cost_le dist k then
            d ← lift (Matcher.int_of_cost dist);
            mret (motif_results ++ [(start, d)])
          else mret motif_results))
    valid (Ok (acc ++ motif_hits text p k)).
Proof.
  unfold motif_hits. rewrite omap_mjoin. apply for_each_app.
  intros acc' start Hs%elem_of_seq.
  assert (returns (Matcher.motif_distance text p start 0) valid
            (Ok (mm (drop start text) p))) as Hcall.
  { replace (mm (drop start text) p)
      with (mm (drop start text) (drop 0 p)) by (by rewrite drop_0).
    rewrite <-md_value_mm by lia. apply motif_distance_returns. }
  destruct (mm (drop start text) p) as [d|].
  - destruct (bool_decide (Z.of_nat d ≤ k)%Z) eqn:Hd.
    + apply (returns_bind valid _ _ (Ok (Fin d))
               (λ _, Ok (acc' ++ [(start, d)]))); [done|].
      intros dist [= <-]. cbn [cost_le]. rewrite Hd.
      apply (returns_bind valid _ _ (Ok d) (λ d, Ok (acc' ++ [(start, d)]))).
      * apply returns_lift.
      * intros d' [= <-]. apply returns_ret.
    + rewrite app_nil_r.
      apply (returns_bind valid _ _ (Ok (Fin d)) (λ _, Ok acc')); [done|].
      intros dist [= <-]. cbn [cost_le]. rewrite Hd. apply returns_ret.
  - rewrite app_nil_r.
    apply (returns_bind valid _ _ (Ok Inf) (λ _, Ok acc')); [done|].
    intros dist [= <-]. apply returns_ret.
Qed.

Lemma kmp_pass (text : str) (patterns : list str)
    (d : gmap str (list nat)) :
  returns
    (for_each patterns d (λ d p,
       r ← lift (kmp_search text p); mret (<[p := r]> d)))
    valid
    (Ok (foldl (λ d p, <[p := kmp_offsets text p]> d) d patterns)).
Proof.
  revert d. induction patterns as [|p patterns IH]; intros d.
  - apply returns_ret.
  - cbn [for_each foldl].
    apply (returns_bind valid _ _ (Ok (<[p := kmp_offsets text p]> d))
             (λ a, Ok (foldl (λ d p, <[p := kmp_offsets text p]> d) a patterns))).
    + apply (returns_bind valid _ _ (Ok (kmp_offsets text p))
               (λ r, Ok (<[p := r]> d))).
      * unfold kmp_offsets. rewrite <-kmp_search_total. apply returns_lift.
      * intros r [= <-]. apply returns_ret.
    + intros a [= <-]. apply IH.
Qed.

Lemma analyze_all_compose (text : str) (patterns : list str) (p0 : str)
    (k : Z) W Mt Kd :
  returns
    (for_each patterns [] (λ wc_results pattern,
       for_each (seq 0 (length text)) wc_results (λ wc_results start,
         b ← Matcher.wildcard_match text pattern start 0;
         if (b : bool) then
           mret (wc_results
                   ++ [(start, slice text start (start + 10) ++ s_ "...")])
         else mret wc_results)))
    valid (Ok W) →
  returns
    (for_each patterns [] (λ motif_results pattern,
       for_each (seq 0 (length text + 1 - length pattern)) motif_results
         (λ motif_results start,
            dist ← Matcher.motif_distance text pattern start 0;
            if cost_le dist k then
              d ← lift (Matcher.int_of_cost dist);
              mret (motif_results ++ [(start, d)])
            else mret motif_results)))
    valid (Ok Mt) →
  returns
    (for_each patterns (∅ : gmap str (list nat)) (λ d p,
       r ← lift (kmp_search text p); mret (<[p := r]> d)))
    valid (Ok Kd) →
  index patterns 0 = Ok p0 →
  returns (Matcher.analyze_all text patterns k) valid
    (Ok (Matcher.mkReport W Mt Kd (Matcher.fuzzy_regex_search text p0 2))).
Proof.
  intros H1 H2 H3 H4. unfold Matcher.analyze_all.
  apply (returns_bind valid _ _ (Ok W)
           (λ w, Ok (Matcher.mkReport w Mt Kd
                       (Matcher.fuzzy_regex_search text p0 2)))); [done|].
  intros w [= <-]. cbn beta.
  apply (returns_bind valid _ _ (Ok Mt)
           (λ m, Ok (Matcher.mkReport W m Kd
                       (Matcher.fuzzy_regex_search text p0 2)))); [done|].
  intros m [= <-]. cbn beta.
  apply (returns_bind valid _ _ (Ok Kd)
           (λ d, Ok (Matcher.mkReport W Mt d
                       (Matcher.fuzzy_regex_search text p0 2)))); [done|].
  intros d [= <-]. cbn beta.
  apply (returns_bind valid _ _ (Ok p0)
           (λ p, Ok (Matcher.mkReport W Mt Kd
                       (Matcher.fuzzy_regex_search text p 2)))).
  { rewrite <-H4. apply returns_lift. }
  intros p [= <-]. cbn beta zeta. apply returns_ret.
Qed.

Lemma analyze_all_returns (text p0 : str) (rest : list str) (k : Z) :
  returns (Matcher.analyze_all text (p0 :: rest) k) valid
    (Ok (Matcher.mkReport
           (mjoin (wildcard_hits text <$> (p0 :: rest)))
           (mjoin ((λ p, motif_hits text p k) <$> (p0 :: rest)))
           (foldl (λ d p, <[p := kmp_offsets text p]> d) ∅ (p0 :: rest))
           (Matcher.fuzzy_regex_search text p0 2))).
Proof.
  apply analyze_all_compose.
  - apply (for_each_app valid _ (wildcard_hits text) (p0 :: rest) []).
    intros acc p _. apply wildcard_pass.
  - apply (for_each_app valid _ (λ p, motif_hits text p k) (p0 :: rest) []).
    intros acc p _. apply motif_pass.
  - apply kmp_pass.
  - done.
Qed.

Lemma foldl_insert_lookup (h : str → list nat) (l : list str)
    (d : gmap str (list nat)) (p : str) :
  foldl (λ d p, <[p := h p]> d) d l !! p
  = if decide (p ∈ l) then Some (h p) else d !! p.
Proof.
  revert d. induction l as [|q l IH]; intros d; cbn [foldl].
  - by rewrite decide_False by apply not_elem_of_nil.
  - rewrite IH. destruct (decide (p ∈ l)) as [Hin|Hnin].
    + rewrite decide_True; [done | by right].
    + destruct (decide (p = q)) as [->|Hne].
      * rewrite lookup_insert_eq. rewrite decide_True; [done | by left].
      * rewrite lookup_insert_ne by done.
        rewrite decide_False; [done|].
        intros [?|?]%elem_of_cons; done.
Qed.

(** X14. On a non-empty pattern list [analyze_all] returns a report and
    never raises, whatever was called on the matcher before.  Its "kmp"
    entry maps exactly the given patterns, each to what [kmp_search]
    returns for it; its "fuzzy_regex" entry is the fuzzy scan of the first
    pattern only, with the default budget 2 whatever [max_motif_dist] is. *)
Theorem analyze_all_kmp_and_fuzzy (history : list Matcher.call)
    (text p0 : str) (rest : list str) (max_motif_dist : Z) :
  ∃ r, (Matcher.analyze_all text (p0 :: rest) max_motif_dist
          (Matcher.after history)).1 = Ok r ∧
    Matcher.fuzzy_regex r = Matcher.fuzzy_regex_search text p0 2 ∧
    ∀ p L, Matcher.kmp r !! p = Some L ↔
           p ∈ p0 :: rest ∧ kmp_search text p = Ok L.
Proof.
  destruct (analyze_all_returns text p0 rest max_motif_dist _
              (valid_after history)) as (s' & -> & _).
  eexists. split; [done|]. split; [done|]. intros p L.
  cbn [Matcher.kmp]. rewrite foldl_insert_lookup, lookup_empty.
  rewrite kmp_search_total. fold (kmp_offsets text p).
  destruct (decide (p ∈ p0 :: rest)); split.
  - intros [= <-]. done.
  - intros [_ [= <-]]. done.
  - done.
  - intros [? _]. done.
Qed.

Lemma motif_hits_find_dna_motifs text p k :
  DnaMotif.find_dna_motifs text p k
  = Ok ((λ sd : nat * nat, (sd.1, Fin sd.2)) <$> motif_hits text p k).
Proof.
  rewrite find_dna_motifs_eq. f_equal. unfold motif_hits.
  induction (seq 0 (length text + 1 - length p)) as [|s l IH]; [done|].
  cbn [omap list_omap]. destruct (mm (drop s text) p) as [d|]; cbn [cost_le].
  - destruct (bool_decide (Z.of_nat d ≤ k)%Z); cbn; by rewrite IH.
  - done.
Qed.

(** X15. The "motifs" entry of the report is, pattern after pattern, what
    the stand-alone [find_dna_motifs] returns for the text, that pattern
    and the same budget, with the counts as ints. *)
Theorem analyze_all_motifs (history : list Matcher.call)
    (text p0 : str) (rest : list str) (max_motif_dist : Z) :
  ∃ r Ls, (Matcher.analyze_all text (p0 :: rest) max_motif_dist
             (Matcher.after history)).1 = Ok r ∧
    Forall2 (λ p L, DnaMotif.find_dna_motifs text p max_motif_dist = Ok L)
      (p0 :: rest) Ls ∧
    (λ sd : nat * nat, (sd.1, Fin sd.2)) <$> Matcher.motifs r = mjoin Ls.
Proof.
  destruct (analyze_all_returns text p0 rest max_motif_dist _
              (valid_after history)) as (s' & -> & _).
  eexists _, ((λ p, (λ sd : nat * nat, (sd.1, Fin sd.2))
                      <$> motif_hits text p max_motif_dist) <$> (p0 :: rest)).
  split; [done|]. split.
  - apply Forall2_fmap_r, Forall_Forall2_diag, Forall_forall.
    intros p _. apply motif_hits_find_dna_motifs.
  - cbn [Matcher.motifs]. generalize (p0 :: rest). intros l.
    induction l as [|p l IH]; [done|].
    rewrite !fmap_cons. cbn [mjoin list_join]. rewrite fmap_app.
    f_equal. exact IH.
Qed.

Lemma wildcard_hits_filter text p :
  wildcard_hits text p
  = (λ start, (start, slice text start (start + 10) ++ s_ "..."))
    <$> filter (λ start,
          PatternMatcher.wildcard_match (slice_from text start) p = Ok true)
        (seq 0 (length text)).
Proof.
  unfold wildcard_hits.
  induction (seq 0 (length text)) as [|s l IH]; [done|].
  cbn [omap list_omap]. rewrite filter_cons.
  rewrite PatternMatcher_wildcard_match_value, wm_value_glob by lia.
  rewrite !drop_0. unfold slice_from.
  destruct (glob_b p (drop s text)).
  - rewrite decide_True by done. rewrite fmap_cons. f_equal. exact IH.
  - rewrite decide_False by done. exact IH.
Qed.

(** X16. The "wildcard" entry of the report lists, pattern after pattern
    and in ascending order of offset, the offsets [start < len(text)] whose
    suffix [text[start:]] the stand-alone [wildcard_match] accepts, each
    with the first ten symbols of that suffix followed by "...". *)
Theorem analyze_all_wildcard (history : list Matcher.call)
    (text p0 : str) (rest : list str) (max_motif_dist : Z) :
  ∃ r, (Matcher.analyze_all text (p0 :: rest) max_motif_dist
          (Matcher.after history)).1 = Ok r ∧
    Matcher.wildcard r
    = mjoin ((λ p,
         (λ start, (start, slice text start (start + 10) ++ s_ "..."))
         <$> filter (λ start,
               PatternMatcher.wildcard_match (slice_from text start) p
               = Ok true)
             (seq 0 (length text))) <$> (p0 :: rest)).
Proof.
  destruct (analyze_all_returns text p0 rest max_motif_dist _
              (valid_after history)) as (s' & -> & _).
  eexists. split; [done|]. cbn [Matcher.wildcard]. f_equal.
  apply list_fmap_ext. intros _ p _. apply wildcard_hits_filter.
Qed.

(** ** The call counter counts cache misses *)

Lemma lru_cached_stores {St K V} `{EqDecision K} maxsize
    (get : St → list (K * V)) set key body s v s' :
  (∀ c s, get (set c s) = c) →
  LRU.cached maxsize get set key body s = (Ok v, s') →
  key ∈ (get s').*1.
Proof.
  intros Hlens. unfold LRU.cached, LRU.lookup.
  destruct (list_find _ (get s)) as [[idx [k w]]|] eqn:Hf.
  - intros [= <- <-]. rewrite Hlens.
    apply list_find_Some in Hf as (_ & Hk & _). simpl in Hk. subst k.
    cbn. by left.
  - destruct (body s) as [[w|e] s1]; [|done]. intros [= <- <-].
    rewrite Hlens. unfold LRU.store. repeat case_decide; [done|..];
      cbn; by left.
Qed.

Lemma lru_cached_hit {St K V} `{EqDecision K} maxsize
    (get : St → list (K * V)) set key body s :
  key ∈ (get s).*1 →
  ∃ v c', LRU.cached maxsize get set key body s = (Ok v, set c' s).
Proof.
  intros Hin. apply list_elem_of_fmap in Hin as ([k w] & -> & Hin).
  destruct (list_find_elem_of (λ kv : K * V, kv.1 = k) (get s) (k, w))
    as [[idx kv] Hf]; [done..|].
  unfold LRU.cached, LRU.lookup. cbn [fst]. rewrite Hf. by eauto.
Qed.

(** X17. A [wildcard_match] call that has just returned a value is
    answered from the cache when it is repeated: it returns the same
    value and leaves [stats["calls"]] as it is, so the counter counts
    evaluations of the body, not calls. *)
Theorem wildcard_match_repeat_hits_cache (history : list Matcher.call)
    (T P : str) (i j : nat) (b : bool) :
  (Matcher.wildcard_match T P i j (Matcher.after history)).1 = Ok b →
  let s1 := (Matcher.wildcard_match T P i j (Matcher.after history)).2 in
  (Matcher.wildcard_match T P i j s1).1 = Ok b ∧
  Matcher.calls (Matcher.wildcard_match T P i j s1).2 = Matcher.calls s1.
Proof.
  intros Hb s1.
  assert (valid s1) as Hs1.
  { destruct (wildcard_match_returns T P i j _ (valid_after history))
      as (s' & Heq & Hs'). unfold s1. by rewrite Heq. }
  split.
  - destruct (wildcard_match_returns T P i j _ Hs1) as (s' & -> & _).
    by rewrite <-Hb, wildcard_match_after.
  - assert ((T, P, i, j) ∈ (Matcher.wm_cache s1).*1) as Hin.
    { unfold s1, Matcher.wildcard_match in *.
      cbn [Matcher.wildcard_match_rec] in *.
      destruct (LRU.cached _ _ _ _ _ (Matcher.after history))
        as [r s'] eqn:Hc.
      cbn [fst snd] in *. subst r.
      by eapply (lru_cached_stores _ Matcher.wm_cache) in Hc. }
    unfold Matcher.wildcard_match. cbn [Matcher.wildcard_match_rec].
    edestruct (lru_cached_hit Matcher.maxsize Matcher.wm_cache
                 Matcher.set_wm_cache (T, P, i, j)) as (v & c' & ->);
      [exact Hin|]. done.
Qed.

Lemma wildcard_match_repeat_hits_cache_witness :
  (Matcher.wildcard_match (s_ "ab") (s_ "a*") 0 0 (Matcher.after [])).1
  = Ok true ∧
  let s1 := (Matcher.wildcard_match (s_ "ab") (s_ "a*") 0 0
               (Matcher.after [])).2 in
  (Matcher.wildcard_match (s_ "ab") (s_ "a*") 0 0 s1).1 = Ok true ∧
  Matcher.calls (Matcher.wildcard_match (s_ "ab") (s_ "a*") 0 0 s1).2
  = Matcher.calls s1.
Proof.
  assert ((Matcher.wildcard_match (s_ "ab") (s_ "a*") 0 0
             (Matcher.after [])).1 = Ok true) as H by (by vm_compute).
  split; [exact H|].
  apply (wildcard_match_repeat_hits_cache [] (s_ "ab") (s_ "a*") 0 0 true H).
Defined.

(** ** The counters of [self.stats] *)

Section keeps.
Context {St : Type} (R : relation St) `{!PreOrder R}.

Lemma keeps_ret {A} (x : A) : keeps R (mret x : M St A).
Proof. intros s. done. Qed.

Lemma keeps_lift {A} (r : result A) : keeps R (lift r : M St A).
Proof. intros s. done. Qed.

Lemma keeps_raise {A} e : keeps R (raise e : M St A).
Proof. intros s. done. Qed.

Lemma keeps_bind {A B} (m : M St A) (f : A → M St B) :
  keeps R m → (∀ a, keeps R (f a)) → keeps R (m ≫= f).
Proof.
  intros Hm Hf s. specialize (Hm s). unfold mbind, M_bind.
  destruct (m s) as [[a|e] s1]; [|done].
  etrans; [exact Hm | apply Hf].
Qed.

Lemma keeps_for_each {A B} (l : list A) (acc : B) (body : B → A → M St B) :
  (∀ acc x, keeps R (body acc x)) → keeps R (for_each l acc body).
Proof.
  intros Hbody. revert acc. induction l as [|x l IH]; intros acc; simpl.
  - apply keeps_ret.
  - apply (keeps_bind _); [apply Hbody | apply IH].
Qed.

Lemma keeps_cached {K V} `{EqDecision K} maxsize (get : St → list (K * V))
    set key (body : M St V) :
  (∀ c s, R s (set c s)) → keeps R body →
  keeps R (LRU.cached maxsize get set key body).
Proof.
  intros Hset Hbody s. unfold LRU.cached.
  destruct (LRU.lookup key (get s)) as [[v c']|]; [apply Hset|].
  specialize (Hbody s). destruct (body s) as [[v|e] s1]; [|done].
  etrans; [exact Hbody | apply Hset].
Qed.
End keeps.

#[local] Instance stats_grow_preorder : PreOrder stats_grow.
Proof.
  split.
  - intros s. by split_and!.
  - intros s1 s2 s3 (?&?&?) (?&?&?). split_and!; [lia | congruence..].
Qed.

#[local] Instance stats_same_preorder : PreOrder stats_same.
Proof.
  split.
  - intros s. by split_and!.
  - intros s1 s2 s3 (?&?&?) (?&?&?). split_and!; congruence.
Qed.

Lemma stats_same_grow s s' : stats_same s s' → stats_grow s s'.
Proof. intros (?&?&?). split_and!; [lia | done..]. Qed.

Lemma keeps_same_grow {A} (m : M Matcher.state A) :
  keeps stats_same m → keeps stats_grow m.
Proof. intros Hm s. apply stats_same_grow, Hm. Qed.

Lemma wildcard_match_rec_keeps fuel T P i j :
  keeps stats_grow (Matcher.wildcard_match_rec fuel T P i j).
Proof.
  revert i j. induction fuel as [|fuel IH]; intros i j; [apply (keeps_raise stats_grow)|].
  cbn [Matcher.wildcard_match_rec].
  apply (keeps_cached stats_grow); [by intros c s; split_and!|].
  apply (keeps_bind stats_grow); [intros s; split_and!; cbn; [lia | done..]|].
  intros _.
  destruct (decide (i = length T ∧ j = length P)); [apply (keeps_ret stats_grow)|].
  destruct (decide (i = length T)); [apply (keeps_ret stats_grow)|].
  destruct (decide (j = length P)); [apply (keeps_ret stats_grow)|].
  apply (keeps_bind stats_grow); [apply (keeps_lift stats_grow)|]. intros pj.
  destruct (decide (pj = "*"%char)).
  - apply (keeps_bind stats_grow); [apply IH|].
    intros [|]; [apply (keeps_ret stats_grow)|].
    destruct (decide (i < length T)); [apply IH | apply (keeps_ret stats_grow)].
  - apply (keeps_bind stats_grow).
    + destruct (decide (pj = "?"%char)); [apply (keeps_ret stats_grow)|].
      apply (keeps_bind stats_grow);
        [apply (keeps_lift stats_grow) | intros; apply (keeps_ret stats_grow)].
    + intros [|]; [apply IH | apply (keeps_ret stats_grow)].
Qed.

Lemma motif_distance_rec_keeps fuel D Mo i j :
  keeps stats_same (Matcher.motif_distance_rec fuel D Mo i j).
Proof.
  revert i j. induction fuel as [|fuel IH]; intros i j; [apply (keeps_raise stats_same)|].
  cbn [Matcher.motif_distance_rec].
  apply (keeps_cached stats_same); [by intros c s; split_and!|].
  destruct (decide (j = length Mo)); [apply (keeps_ret stats_same)|].
  case_decide; [apply (keeps_ret stats_same)|].
  apply (keeps_bind stats_same); [apply (keeps_lift stats_same)|]. intros d.
  apply (keeps_bind stats_same); [apply (keeps_lift stats_same)|]. intros c.
  apply (keeps_bind stats_same); [apply IH|]. intros a.
  apply (keeps_bind stats_same); [apply IH|]. intros b. apply (keeps_ret stats_same).
Qed.

Lemma analyze_all_keeps text patterns max_motif_dist :
  keeps stats_grow (Matcher.analyze_all text patterns max_motif_dist).
Proof.
  unfold Matcher.analyze_all.
  apply (keeps_bind stats_grow).
  { apply (keeps_for_each stats_grow). intros acc pattern. apply (keeps_for_each stats_grow).
    intros acc' start. apply (keeps_bind stats_grow).
    - apply wildcard_match_rec_keeps.
    - intros []; apply (keeps_ret stats_grow). }
  intros wc_results. apply (keeps_bind stats_grow).
  { apply (keeps_for_each stats_grow). intros acc pattern. apply (keeps_for_each stats_grow).
    intros acc' start. apply (keeps_bind stats_grow).
    - apply keeps_same_grow, motif_distance_rec_keeps.
    - intros dist. destruct (cost_le dist max_motif_dist); [|apply (keeps_ret stats_grow)].
      apply (keeps_bind stats_grow); [apply (keeps_lift stats_grow) | intros; apply (keeps_ret stats_grow)]. }
  intros motif_results. apply (keeps_bind stats_grow).
  { apply (keeps_for_each stats_grow). intros acc p.
    apply (keeps_bind stats_grow); [apply (keeps_lift stats_grow) | intros; apply (keeps_ret stats_grow)]. }
  intros kmp_results. apply (keeps_bind stats_grow); [apply (keeps_lift stats_grow)|].
  intros p0. apply (keeps_ret stats_grow).
Qed.

Lemma run_call_keeps c : keeps stats_grow (Matcher.run_call c).
Proof.
  destruct c; simpl.
  - apply (keeps_bind stats_grow); [apply wildcard_match_rec_keeps|].
    intros; apply (keeps_ret stats_grow).
  - apply (keeps_bind stats_grow); [apply keeps_same_grow, motif_distance_rec_keeps|].
    intros; apply (keeps_ret stats_grow).
  - apply (keeps_bind stats_grow); [apply (keeps_lift stats_grow) | intros; apply (keeps_ret stats_grow)].
  - apply (keeps_ret stats_grow).
  - apply (keeps_bind stats_grow); [apply analyze_all_keeps | intros; apply (keeps_ret stats_grow)].
Qed.

(** X18. No method ever updates [stats["cache_hits"]] or
    [stats["total_time"]]: after any sequence of calls on a fresh matcher,
    both are still 0, also when calls were answered from the cache. *)
Theorem stats_cache_hits_never_counted (history : list Matcher.call) :
  Matcher.cache_hits (Matcher.after history) = 0 ∧
  Matcher.total_time (Matcher.after history) = 0.
Proof.
  unfold Matcher.after. induction history as [|c history IH] using rev_ind.
  - done.
  - rewrite foldl_app. cbn [foldl].
    destruct (run_call_keeps c (foldl (λ s c, (Matcher.run_call c s).2)
                                  Matcher.init history)) as (_ & -> & ->).
    exact IH.
Qed.

(** X19. Only [wildcard_match] counts: in every state of the matcher,
    [motif_distance], [kmp_search] and [fuzzy_regex_search] leave
    [stats["calls"]] as it is, and no method ever decreases it. *)
Theorem stats_calls_only_wildcard (c : Matcher.call) (s : Matcher.state) :
  Matcher.calls s ≤ Matcher.calls (Matcher.run_call c s).2 ∧
  match c with
  | Matcher.CallWildcard _ _ _ _ | Matcher.CallAnalyze _ _ _ => True
  | _ => Matcher.calls (Matcher.run_call c s).2 = Matcher.calls s
  end.
Proof.
  split; [apply run_call_keeps|].
  destruct c as [| dna motif i j | text pattern | |]; [done | | | done..].
  - simpl. apply (keeps_bind stats_same);
      [apply motif_distance_rec_keeps | intros; apply (keeps_ret stats_same)].
  - cbn [Matcher.run_call]. unfold mbind, M_bind, lift.
    by destruct (kmp_search text pattern).
Qed.

(** ** Logic Labyrinth *)

Lemma get_feedback_short secret guess :
  length secret < 4 ∨ length guess < 4 →
  Labyrinth.get_feedback secret guess = Raise IndexError.
Proof.
  intros Hlen. unfold Labyrinth.get_feedback.
  destruct guess as [|g0 [|g1 [|g2 [|g3 guess]]]];
    destruct secret as [|s0 [|s1 [|s2 [|s3 secret]]]];
    try done; simpl in Hlen; lia.
Qed.

Lemma get_feedback_long s0 s1 s2 s3 secret g0 g1 g2 g3 guess :
  Labyrinth.get_feedback (s0 :: s1 :: s2 :: s3 :: secret)
    (g0 :: g1 :: g2 :: g3 :: guess)
  = Ok (pretty (length (filter (λ hit, hit = true)
                  [bool_decide (g0 = s0); bool_decide (g1 = s1);
                   bool_decide (g2 = s2); bool_decide (g3 = s3)]))
        +:+ "A"
        +:+ pretty (Z.of_nat (length
                      (filter (λ digit,
                                 digit ∈ s0 :: s1 :: s2 :: s3 :: secret)
                              (g0 :: g1 :: g2 :: g3 :: guess)))
                    - Z.of_nat (length (filter (λ hit, hit = true)
                        [bool_decide (g0 = s0); bool_decide (g1 = s1);
                         bool_decide (g2 = s2); bool_decide (g3 = s3)])))%Z
        +:+ "B").
Proof. done. Qed.

Lemma hits_le_present (secret gs ss : str) :
  Forall (λ s, s ∈ secret) ss →
  length (filter (λ hit, hit = true)
            (zip_with (λ g s, bool_decide (g = s)) gs ss))
  ≤ length (filter (λ digit, digit ∈ secret) gs).
Proof.
  intros Hss. revert gs. induction Hss as [|s ss Hs Hss IH]; intros gs.
  - destruct gs; cbn; lia.
  - destruct gs as [|g gs]; [cbn; lia|]. cbn [zip_with].
    rewrite !filter_cons. specialize (IH gs).
    destruct (decide (g = s)) as [->|Hne].
    + rewrite bool_decide_eq_true_2 by done.
      destruct (decide (true = true)); [|done].
      destruct (decide (s ∈ secret)); [|done]. cbn [length]. lia.
    + rewrite bool_decide_eq_false_2 by done.
      destruct (decide (false = true)); [done|].
      destruct (decide (g ∈ secret)); cbn [length]; lia.
Qed.

(** X20. [get_feedback] raises IndexError when the secret or the guess has
    fewer than 4 symbols.  Otherwise it returns "<a>A<b>B" where [a], the
    number of exact hits, is at most 4 and [b] is never negative; together
    they count at most the symbols of the guess. *)
Theorem get_feedback_counts (secret guess : str) :
  if decide (4 ≤ length secret ∧ 4 ≤ length guess) then
    ∃ (a : nat) (b : Z),
      Labyrinth.get_feedback secret guess
      = Ok (pretty a +:+ "A" +:+ pretty b +:+ "B") ∧
      a ≤ 4 ∧ (0 ≤ b)%Z ∧ (Z.of_nat a + b ≤ Z.of_nat (length guess))%Z
  else Labyrinth.get_feedback secret guess = Raise IndexError.
Proof.
  case_decide as Hlen; [|apply get_feedback_short; lia].
  destruct guess as [|g0 [|g1 [|g2 [|g3 guess]]]];
    destruct secret as [|s0 [|s1 [|s2 [|s3 secret]]]];
    try (simpl in Hlen; lia).
  rewrite get_feedback_long. eexists _, _. split; [done|].
  set (S := s0 :: s1 :: s2 :: s3 :: secret).
  pose proof (hits_le_present S [g0; g1; g2; g3] [s0; s1; s2; s3]) as Hle.
  cbn [zip_with] in Hle.
  pose proof (length_filter (λ hit : bool, hit = true)
    [bool_decide (g0 = s0); bool_decide (g1 = s1);
     bool_decide (g2 = s2); bool_decide (g3 = s3)]) as Ha.
  cbn [length] in Ha.
  pose proof (length_filter (λ digit, digit ∈ S)
                (g0 :: g1 :: g2 :: g3 :: guess)) as Hb.
  change (g0 :: g1 :: g2 :: g3 :: guess)
    with ([g0; g1; g2; g3] ++ guess) in *.
  rewrite filter_app, length_app in *.
  assert (Forall (λ s, s ∈ S) [s0; s1; s2; s3]) as HS.
  { unfold S. repeat constructor; set_solver. }
  specialize (Hle HS). lia.
Qed.

(** X21. For a secret and a guess of 4 symbols each, the feedback is
    "4A0B", the string on which [play_game] declares victory, exactly when
    the guess is the secret. *)
Theorem get_feedback_victory (secret guess : str) :
  length secret = 4 → length guess = 4 →
  Labyrinth.get_feedback secret guess = Ok "4A0B"%string ↔ guess = secret.
Proof.
  intros Hs Hg.
  destruct guess as [|g0 [|g1 [|g2 [|g3 [|]]]]]; try done.
  destruct secret as [|s0 [|s1 [|s2 [|s3 [|]]]]]; try done.
  rewrite get_feedback_long. split.
  - intros [= H]. revert H.
    generalize (filter (λ digit, digit ∈ [s0; s1; s2; s3]) [g0; g1; g2; g3]).
    intros l.
    destruct (decide (g0 = s0)) as [->|]; [|
      rewrite (bool_decide_eq_false_2 (g0 = s0)) by done].
    all: destruct (decide (g1 = s1)) as [->|]; [|
      rewrite (bool_decide_eq_false_2 (g1 = s1)) by done].
    all: destruct (decide (g2 = s2)) as [->|]; [|
      rewrite (bool_decide_eq_false_2 (g2 = s2)) by done].
    all: destruct (decide (g3 = s3)) as [->|]; [|
      rewrite (bool_decide_eq_false_2 (g3 = s3)) by done].
    all: try done.
    all: rewrite ?bool_decide_eq_true_2 by done.
    all: match goal with
         | |- context [pretty (?x - ?y)%Z] => generalize (pretty (x - y)%Z)
         end.
    all: intros b H; vm_compute in H; discriminate H.
  - intros [= -> -> -> ->].
    rewrite !bool_decide_eq_true_2 by done.
    rewrite !filter_cons_True by set_solver. done.
Qed.

Lemma get_feedback_victory_witness :
  Labyrinth.get_feedback (s_ "1234") (s_ "1234") = Ok "4A0B"%string
  ↔ s_ "1234" = s_ "1234".
Proof.
  apply (get_feedback_victory (s_ "1234") (s_ "1234")); reflexivity.
Defined.

Lemma singletons_join (l : list str) :
  Forall (λ x, length x = 1) l →
  length (mjoin l) = length l ∧ ∀ n, mjoin (take n l) = take n (mjoin l).
Proof.
  induction 1 as [|x l Hx Hl [IHlen IH]]; [by split; [|intros []]|].
  destruct x as [|c [|]]; try done.
  change (mjoin ([c] :: l)) with (c :: mjoin l).
  split; [cbn [length]; by rewrite IHlen|].
  intros [|n]; [done|].
  change (mjoin (take (S n) ([c] :: l))) with (c :: mjoin (take n l)).
  by rewrite IH.
Qed.

Lemma generate_code_perm (shuffle : list str → list str) :
  (∀ l, shuffle l ≡ₚ l) →
  ∃ cs, cs ≡ₚ s_ "123456" ∧ Labyrinth.generate_code shuffle = take 4 cs.
Proof.
  intros Hperm. unfold Labyrinth.generate_code.
  set (digits := (λ i : nat, s_ (pretty i)) <$> seq 1 6).
  assert (Forall (λ x : str, length x = 1) (shuffle digits)) as Hone.
  { rewrite Hperm. unfold digits. by vm_compute; repeat constructor. }
  destruct (singletons_join _ Hone) as [_ Htake].
  exists (mjoin (shuffle digits)). split; [|apply Htake].
  rewrite Hperm. unfold digits. by vm_compute.
Qed.

(** X22. Whatever rearrangement [random.shuffle] produces, [generate_code]
    returns 4 symbols without repeats, all of them among "123456". *)
Theorem generate_code_valid (shuffle : list str → list str) :
  (∀ l, shuffle l ≡ₚ l) →
  let code := Labyrinth.generate_code shuffle in
  length code = 4 ∧ NoDup code ∧ Forall (λ d, d ∈ s_ "123456") code.
Proof.
  intros Hperm code.
  destruct (generate_code_perm shuffle Hperm) as (cs & Hcs & Hcode).
  unfold code. rewrite Hcode. clear code Hcode.
  assert (length cs = 6) as Hlen by (by rewrite Hcs).
  assert (NoDup cs) as Hnd.
  { rewrite Hcs. by apply (bool_decide_unpack _). }
  split_and!.
  - rewrite length_take. lia.
  - apply (sublist_NoDup _ cs); [exact Hnd | apply sublist_take].
  - apply Forall_forall. intros d Hd%elem_of_take.
    destruct Hd as (i & Hd & _). apply list_elem_of_lookup_2 in Hd.
    by rewrite <-Hcs.
Qed.

Lemma generate_code_valid_witness :
  let code := Labyrinth.generate_code reverse in
  length code = 4 ∧ NoDup code ∧ Forall (λ d, d ∈ s_ "123456") code.
Proof.
  apply (generate_code_valid reverse). intros l. apply reverse_Permutation.
Defined.

Lemma loop_scores (choice : nat → str → char) (secret : str)
    (inputs : list str) (st : Labyrinth.locals) :
  length secret = 4 →
  Labyrinth.score st = (100 - 5 * Z.of_nat (Labyrinth.attempts st))%Z →
  Labyrinth.attempts st ≤ 10 →
  ∃ out status,
    Labyrinth.loop choice secret inputs st = Ok (out, status) ∧
    (∀ code k sc, Labyrinth.Victory code k sc ∈ out →
       1 ≤ k ≤ 10 ∧ sc = (110 - 10 * Z.of_nat k)%Z) ∧
    (∀ code sc, Labyrinth.GameOver code sc ∈ out → sc = 50%Z).
Proof.
  intros Hsecret. revert st.
  induction inputs as [|guess inputs IH]; intros st Hscore Hatt.
  - cbn [Labyrinth.loop]. unfold Labyrinth.max_attempts. case_decide.
    + eexists _, _. split; [done|]. split; intros *; by intros ?%elem_of_nil.
    + eexists _, _. split; [done|].
      split; intros *; intros Hin%list_elem_of_singleton; [done|].
      injection Hin as _ ->. lia.
  - cbn [Labyrinth.loop]. unfold Labyrinth.max_attempts. case_decide; last first.
    { eexists _, _. split; [done|].
      split; intros *; intros Hin%list_elem_of_singleton; [done|].
      injection Hin as _ ->. lia. }
    unfold Labyrinth.turn.
    destruct (decide (length guess ≠ 4 ∨ ¬ Labyrinth.isdigit guess))
      as [|Hfmt].
    { cbn [mbind result_bind mret result_ret snd fst].
      destruct (IH st Hscore Hatt) as (out & status & -> & HV & HG).
      cbn [mbind result_bind mret result_ret snd fst].
      eexists _, _. split; [done|].
      split; intros *; intros [[=]%list_elem_of_singleton|Hin]%elem_of_app;
        eauto. }
    assert (length guess = 4) as Hlen
      by (destruct (decide (length guess = 4)); tauto).
    case_decide.
    { cbn [mbind result_bind mret result_ret snd fst].
      destruct (IH st Hscore Hatt) as (out & status & -> & HV & HG).
      cbn [mbind result_bind mret result_ret snd fst].
      eexists _, _. split; [done|].
      split; intros *; intros [[=]%list_elem_of_singleton|Hin]%elem_of_app;
        eauto. }
    destruct guess as [|g0 [|g1 [|g2 [|g3 [|]]]]]; try done.
    destruct secret as [|s0 [|s1 [|s2 [|s3 [|]]]]]; try done.
    rewrite get_feedback_long.
    cbn [mbind result_bind mret result_ret snd fst]. case_decide.
    + cbn [mbind result_bind mret result_ret snd fst].
      eexists _, _. split; [done|].
      split; intros *; rewrite !elem_of_cons, elem_of_nil;
        intros [[=]|[[=]|[]]]; subst. lia.
    + cbn [mbind result_bind mret result_ret snd fst].
      edestruct (IH (Labyrinth.mkLocals (Labyrinth.score st - 5)
                       (Labyrinth.attempts st + 1)))
        as (out & status & -> & HV & HG); [cbn; lia..|].
      cbn [mbind result_bind mret result_ret snd fst].
      eexists _, _. split; [done|].
      split; intros *; rewrite elem_of_app, elem_of_cons;
        (intros [[[=]|Hin]|Hin]; [|by eauto]);
        case_decide;
        first [by apply list_elem_of_singleton in Hin
              |by apply elem_of_nil in Hin].
Qed.

(** X23. Whatever [random.shuffle] and [random.choice] do and whatever
    lines are entered, [play_game] never raises, and the scores it prints
    are fixed by the number of valid guesses: a victory at attempt [k]
    (between 1 and 10) prints 110 - 10 k, since the penalty of 5 per failed
    attempt is subtracted twice, and a lost game always prints 50. *)
Theorem play_game_scores (shuffle : list str → list str)
    (choice : nat → str → char) (inputs : list str) :
  (∀ l, shuffle l ≡ₚ l) →
  ∃ out status,
    Labyrinth.play_game shuffle choice inputs = Ok (out, status) ∧
    (∀ code k sc, Labyrinth.Victory code k sc ∈ out →
       1 ≤ k ≤ 10 ∧ sc = (110 - 10 * Z.of_nat k)%Z) ∧
    (∀ code sc, Labyrinth.GameOver code sc ∈ out → sc = 50%Z).
Proof.
  intros Hperm. unfold Labyrinth.play_game. apply loop_scores; [|done|cbn; lia].
  destruct (generate_code_perm shuffle Hperm) as (cs & Hcs & ->).
  rewrite length_take, Hcs. done.
Qed.

Lemma play_game_scores_witness :
  ∃ out status,
    Labyrinth.play_game reverse (λ _ _, "1"%char)
      [s_ "1234"; s_ "6543"] = Ok (out, status) ∧
    (∀ code k sc, Labyrinth.Victory code k sc ∈ out →
       1 ≤ k ≤ 10 ∧ sc = (110 - 10 * Z.of_nat k)%Z) ∧
    (∀ code sc, Labyrinth.GameOver code sc ∈ out → sc = 50%Z).
Proof.
  apply (play_game_scores reverse). intros l. apply reverse_Permutation.
Defined.

(** ** The tic-tac-toe board *)

Lemma elem_of_available_moves board m :
  m ∈ Board.available_moves board ↔ board !! m = Some Board.blank.
Proof.
  unfold Board.available_moves. rewrite list_elem_of_fmap. split.
  - intros ([i x] & -> & [Hx Hin]%list_elem_of_filter). cbn in *. subst x.
    apply list_elem_of_lookup in Hin as [j Hj].
    rewrite list_lookup_imap in Hj.
    destruct (board !! j) as [y|] eqn:Hy; [|done].
    cbn in Hj. by injection Hj as -> ->.
  - intros Hm. exists (m, Board.blank). split; [done|].
    apply list_elem_of_filter. split; [done|].
    apply list_elem_of_lookup. exists m.
    by rewrite list_lookup_imap, Hm.
Qed.

Lemma available_moves_nil board :
  Board.available_moves board = [] ↔ Board.blank ∉ board.
Proof.
  split.
  - intros Hnil [m Hm]%list_elem_of_lookup.
    apply elem_of_available_moves in Hm. rewrite Hnil in Hm.
    by apply elem_of_nil in Hm.
  - intros Hno. destruct (Board.available_moves board) as [|m l] eqn:Hl;
      [done|].
    assert (m ∈ Board.available_moves board) as Hm by (rewrite Hl; by left).
    apply elem_of_available_moves in Hm.
    by apply list_elem_of_lookup_2 in Hm.
Qed.

Lemma blanks_insert board m mark :
  board !! m = Some Board.blank → mark ≠ Board.blank →
  S (blanks (<[m := mark]> board)) = blanks board.
Proof.
  intros Hm Hmark. unfold blanks.
  rewrite <-(take_drop_middle board m Board.blank) at 2 by done.
  rewrite insert_take_drop by (by eapply lookup_lt_Some).
  rewrite !filter_app, !filter_cons, !length_app.
  destruct (decide (mark = Board.blank)); [done|].
  destruct (decide (Board.blank = Board.blank)); [|done].
  cbn [length]. lia.
Qed.

Lemma blanks_le board : blanks board ≤ length board.
Proof. apply length_filter. Qed.

Lemma first_line_Ok board ls :
  Forall (λ l : nat * nat * nat,
            l.1.1 < length board ∧ l.1.2 < length board
            ∧ l.2 < length board) ls →
  ∃ r, Board.first_line board ls = Ok r.
Proof.
  induction 1 as [|[[a b] c] ls (Ha & Hb & Hc) _ IH]; [by eexists|].
  cbn in Ha, Hb, Hc. cbn [Board.first_line]. unfold index.
  destruct (lookup_lt_is_Some_2 board a Ha) as [x ->].
  destruct (lookup_lt_is_Some_2 board b Hb) as [y ->].
  destruct (lookup_lt_is_Some_2 board c Hc) as [z ->].
  cbn [mbind result_bind]. repeat case_decide; try done.
  by eexists.
Qed.

Lemma check_winner_Ok board :
  length board = 9 → ∃ r, Board.check_winner board = Ok r.
Proof.
  intros Hlen. unfold Board.check_winner.
  destruct (first_line_Ok board Board.lines) as [r ->].
  { unfold Board.lines. rewrite Hlen. repeat constructor; cbn; lia. }
  destruct r; by eexists.
Qed.

(** ** The plain minimax search *)

Lemma for_each_pure {St A B} (l : list A) (f : B → A → B)
    (body : B → A → M St B) (s : St) (acc : B) :
  (∀ acc x, x ∈ l → body acc x s = (Ok (f acc x), s)) →
  for_each l acc body s = (Ok (foldl f acc l), s).
Proof.
  revert acc. induction l as [|x l IH]; intros acc Hbody; [done|].
  cbn [for_each foldl]. unfold mbind, M_bind.
  rewrite Hbody by (by left). apply IH. intros acc' y Hy.
  apply Hbody. by right.
Qed.

Lemma ttt_set_board_id (g : TicTacToe.game) :
  TicTacToe.set_board (TicTacToe.board g) g = g.
Proof. by destruct g. Qed.

Lemma ttt_board_set_run (g : TicTacToe.game) i mark :
  i < length (TicTacToe.board g) →
  TicTacToe.board_set i mark g
  = (Ok (), TicTacToe.set_board (<[i := mark]> (TicTacToe.board g)) g).
Proof.
  intros Hi. unfold TicTacToe.board_set, gets, lift, modify, setitem.
  step_M. by destruct (decide (i < length (TicTacToe.board g))).
Qed.

Lemma ttt_try_move (g : TicTacToe.game) m mark {A B}
    (search : M TicTacToe.game A) (v : A) (k : A → M TicTacToe.game B) r :
  TicTacToe.board g !! m = Some Board.blank →
  (let g1 := TicTacToe.set_board (<[m := mark]> (TicTacToe.board g)) g in
   search g1 = (Ok v, g1)) →
  k v g = r →
  (TicTacToe.board_set m mark;;
   score ← search;
   TicTacToe.board_set m Board.blank;; k score) g = r.
Proof.
  intros Hm Hsearch <-. pose proof (lookup_lt_Some _ _ _ Hm) as Hlt.
  unfold mbind at 1, M_bind at 1. rewrite ttt_board_set_run by done.
  unfold mbind at 1, M_bind at 1. cbn zeta in Hsearch. rewrite Hsearch.
  unfold mbind at 1, M_bind at 1.
  rewrite ttt_board_set_run by (cbn; by rewrite length_insert).
  cbn [TicTacToe.set_board TicTacToe.board TicTacToe.current_player
       TicTacToe.ai_player TicTacToe.player_stats TicTacToe.game_stats].
  rewrite list_insert_insert_eq, list_insert_id by done.
  by destruct g.
Qed.

Lemma bind_Ok {St A B} (m : M St A) (k : A → M St B) s a s' :
  m s = (Ok a, s') → (m ≫= k) s = k a s'.
Proof. intros Hm. unfold mbind, M_bind. by rewrite Hm. Qed.

Lemma bind_gets {St A B} (f : St → A) (k : A → M St B) s :
  (gets f ≫= k) s = k (f s) s.
Proof. done. Qed.

Lemma bind_modify {St B} (f : St → St) (k : () → M St B) s :
  (modify f ≫= k) s = k () (f s).
Proof. done. Qed.

Lemma ttt_check_winner_run (g : TicTacToe.game) r :
  Board.check_winner (TicTacToe.board g) = Ok r →
  TicTacToe.check_winner g = (Ok r, g).
Proof.
  intros Hr. unfold TicTacToe.check_winner. rewrite bind_gets.
  unfold lift. by rewrite Hr.
Qed.

Lemma minimax_rec_value fuel (g : TicTacToe.game) depth is_maximizing :
  length (TicTacToe.board g) = 9 →
  TicTacToe.ai_player g ≠ Board.blank →
  blanks (TicTacToe.board g) < fuel →
  TicTacToe.minimax_rec fuel depth is_maximizing g
  = (Ok (minimax_value fuel (TicTacToe.ai_player g) (TicTacToe.board g)
           depth is_maximizing), g).
Proof.
  revert g depth is_maximizing.
  induction fuel as [|fuel IH]; intros g depth is_max Hlen Hai Hfuel; [lia|].
  cbn [TicTacToe.minimax_rec minimax_value].
  destruct (check_winner_Ok _ Hlen) as [r Hr].
  rewrite (bind_Ok _ _ _ _ _ (ttt_check_winner_run g r Hr)).
  rewrite bind_gets, Hr.
  destruct (decide (r = Some (TicTacToe.ai_player g))); [done|].
  destruct (decide (r = Some (s_ "X"))); [done|].
  destruct (decide (r = Some (s_ "Draw"))); [done|].
  unfold TicTacToe.available_moves.
  destruct is_max.
  - rewrite bind_gets.
    apply for_each_pure. intros best move Hmove%elem_of_available_moves.
    rewrite bind_gets.
    eapply ttt_try_move; [done | | done].
    intros g1. apply (IH g1); unfold g1;
      cbn [TicTacToe.set_board TicTacToe.board TicTacToe.ai_player].
    + by rewrite length_insert.
    + done.
    + pose proof (blanks_insert _ _ _ Hmove Hai). lia.
  - rewrite bind_gets.
    apply for_each_pure. intros best move Hmove%elem_of_available_moves.
    eapply ttt_try_move; [done | | done].
    intros g1. apply (IH g1); unfold g1;
      cbn [TicTacToe.set_board TicTacToe.board TicTacToe.ai_player].
    + by rewrite length_insert.
    + done.
    + assert (s_ "X" ≠ Board.blank) as HX by done.
      pose proof (blanks_insert _ _ _ Hmove HX). lia.
Qed.

Lemma first_line_Some board ls w :
  Board.first_line board ls = Ok (Some w) → w ∈ board ∧ w ≠ Board.blank.
Proof.
  induction ls as [|[[a b] c] ls IH]; [done|].
  cbn [Board.first_line]. unfold index.
  destruct (board !! a) as [x|] eqn:Ha; [|done].
  destruct (board !! b) as [y|] eqn:Hb; [|done].
  cbn [mbind result_bind].
  destruct (decide (x = y)) as [->|]; [|done].
  destruct (board !! c) as [z|] eqn:Hc; [|done].
  cbn [mbind result_bind].
  destruct (decide (y = z)) as [->|]; [|done].
  destruct (decide (z ≠ Board.blank)); [|done].
  intros [= <-]. split; [|done]. by eapply list_elem_of_lookup_2.
Qed.

Lemma board_ok_insert ai board m mark :
  board_ok ai board → mark = s_ "X" ∨ mark = ai →
  board_ok ai (<[m := mark]> board).
Proof.
  intros (Hlen & Hai & Hcells) Hmark. split_and!; [|done|].
  - by rewrite length_insert.
  - apply Forall_insert; [done|]. tauto.
Qed.

Lemma check_winner_open ai board r :
  board_ok ai board → Board.check_winner board = Ok r →
  r ≠ Some ai → r ≠ Some (s_ "X") → r ≠ Some (s_ "Draw") →
  Board.available_moves board ≠ [].
Proof.
  intros (Hlen & Hai & Hcells) Hr Hnai HnX HnD.
  unfold Board.check_winner in Hr.
  destruct (Board.first_line board Board.lines) as [[w|]|] eqn:Hfl;
    cbn [mbind result_bind mret result_ret] in Hr; [| |done].
  - injection Hr as <-. apply first_line_Some in Hfl as [Hin Hw].
    rewrite Forall_forall in Hcells. destruct (Hcells w Hin) as [?|[?|?]];
      congruence.
  - injection Hr as <-. case_decide as Hb; [|done].
    intros Hnil%available_moves_nil. done.
Qed.

Ltac num_tac :=
  repeat match goal with
         | x : num |- _ => destruct x
         end;
  unfold num_max, num_min, num_le, num_lt in *; cbn in *;
  repeat case_bool_decide; simplify_eq; cbn in *;
  first [done | lia | (f_equal; lia) | idtac].

Lemma foldl_max_Int (c : nat → num) ms acc :
  (∀ m, m ∈ ms → ∃ z, c m = Int z) →
  acc ≠ PosInf → ms ≠ [] ∨ acc ≠ NegInf →
  ∃ z, foldl (λ best m, num_max (c m) best) acc ms = Int z.
Proof.
  revert acc. induction ms as [|m ms IH]; intros acc Hc Hacc Hne.
  - destruct acc; [by destruct Hne | by eexists | done].
  - cbn [foldl]. destruct (Hc m) as [z Hz]; [by left|]. rewrite Hz.
    apply IH.
    + intros m' Hm'. apply Hc. by right.
    + by num_tac.
    + right. by num_tac.
Qed.

Lemma foldl_min_Int (c : nat → num) ms acc :
  (∀ m, m ∈ ms → ∃ z, c m = Int z) →
  acc ≠ NegInf → ms ≠ [] ∨ acc ≠ PosInf →
  ∃ z, foldl (λ best m, num_min (c m) best) acc ms = Int z.
Proof.
  revert acc. induction ms as [|m ms IH]; intros acc Hc Hacc Hne.
  - destruct acc; [done | by eexists | by destruct Hne].
  - cbn [foldl]. destruct (Hc m) as [z Hz]; [by left|]. rewrite Hz.
    apply IH.
    + intros m' Hm'. apply Hc. by right.
    + by num_tac.
    + right. by num_tac.
Qed.

Lemma minimax_value_Int fuel ai board depth is_maximizing :
  board_ok ai board → blanks board < fuel →
  ∃ z, minimax_value fuel ai board depth is_maximizing = Int z.
Proof.
  revert board depth is_maximizing.
  induction fuel as [|fuel IH]; intros board depth is_max Hok Hfuel; [lia|].
  cbn [minimax_value].
  destruct (check_winner_Ok board) as [r Hr]; [apply Hok|]. rewrite Hr.
  destruct (decide (r = Some ai)); [by eexists|].
  destruct (decide (r = Some (s_ "X"))); [by eexists|].
  destruct (decide (r = Some (s_ "Draw"))); [by eexists|].
  pose proof (check_winner_open ai board r Hok Hr) as Hopen.
  destruct Hok as (Hlen & Hai & Hcells).
  destruct is_max.
  - apply foldl_max_Int; [|done|left; by apply Hopen].
    intros m Hm%elem_of_available_moves. apply IH.
    + apply board_ok_insert; [done|by right].
    + pose proof (blanks_insert _ _ _ Hm Hai). lia.
  - apply foldl_min_Int; [|done|left; by apply Hopen].
    intros m Hm%elem_of_available_moves. apply IH.
    + apply board_ok_insert; [done|by left].
    + assert (s_ "X" ≠ Board.blank) as HX by done.
      pose proof (blanks_insert _ _ _ Hm HX). lia.
Qed.

Lemma minimax_run (g : TicTacToe.game) depth is_maximizing :
  board_ok (TicTacToe.ai_player g) (TicTacToe.board g) →
  ∃ z, TicTacToe.minimax depth is_maximizing g = (Ok (Int z), g) ∧
       minimax_value (S (length (TicTacToe.board g))) (TicTacToe.ai_player g)
         (TicTacToe.board g) depth is_maximizing = Int z.
Proof.
  intros Hok. pose proof (blanks_le (TicTacToe.board g)) as Hle.
  destruct (minimax_value_Int (S (length (TicTacToe.board g)))
              (TicTacToe.ai_player g) (TicTacToe.board g) depth is_maximizing)
    as [z Hz]; [done | lia |].
  exists z. split; [|done]. unfold TicTacToe.minimax.
  rewrite minimax_rec_value; [by rewrite Hz | apply Hok.. | lia].
Qed.

Lemma minimax_Ok (g : TicTacToe.game) depth is_maximizing :
  board_ok (TicTacToe.ai_player g) (TicTacToe.board g) →
  ∃ z, TicTacToe.minimax depth is_maximizing g = (Ok (Int z), g).
Proof.
  intros Hok. destruct (minimax_run g depth is_maximizing Hok) as (z & ? & _).
  by exists z.
Qed.

(** X24. On a board of a game in progress, [minimax] never raises and
    returns an int, never an infinity, and when it returns the game is
    exactly as before the call: every square it tried is blank again. *)
Theorem minimax_restores_game (g : TicTacToe.game) (depth : Z)
    (is_maximizing : bool) :
  board_ok (TicTacToe.ai_player g) (TicTacToe.board g) →
  ∃ z, TicTacToe.minimax depth is_maximizing g = (Ok (Int z), g).
Proof.
  apply minimax_Ok.
Qed.

Lemma minimax_restores_game_witness :
  ∃ z, TicTacToe.minimax 0 true
         (TicTacToe.set_board
            [s_ "X"; s_ "O"; s_ "X"; s_ "O"; s_ "X"; s_ "O"; s_ " "; s_ " ";
             s_ " "] TicTacToe.init)
       = (Ok (Int z),
          TicTacToe.set_board
            [s_ "X"; s_ "O"; s_ "X"; s_ "O"; s_ "X"; s_ "O"; s_ " "; s_ " ";
             s_ " "] TicTacToe.init).
Proof.
  apply (minimax_restores_game
           (TicTacToe.set_board
              [s_ "X"; s_ "O"; s_ "X"; s_ "O"; s_ "X"; s_ "O"; s_ " ";
               s_ " "; s_ " "] TicTacToe.init) 0 true).
  split_and!; [done | done |]. cbn. repeat constructor; tauto.
Defined.

(** ** The move of the AI *)

Lemma pick_inv_step z bonus seen best move :
  (0 ≤ bonus ≤ 1)%Z →
  pick_inv z bonus seen best →
  pick_inv z bonus (seen ++ [move]) (pick z bonus best move).
Proof.
  intros Hbonus. unfold pick_inv, pick. destruct best as [bs [m|]]; cbn.
  - intros (s & -> & Hs & Hseen).
    destruct (decide (Some move = Some m)) as [[= ->]|Hne]; cbn.
    { exists s. split_and!; [done | lia.. |].
      intros m' [?| ->%list_elem_of_singleton]%elem_of_app; [by auto|lia]. }
    case_bool_decide; cbn.
    + eexists. split_and!; [done | lia.. |].
      intros m' [Hm'%Hseen| ->%list_elem_of_singleton]%elem_of_app; lia.
    + exists s. split_and!; [done | lia.. |].
      intros m' [?| ->%list_elem_of_singleton]%elem_of_app; [by auto|lia].
  - intros [-> ->]. cbn. eexists. split_and!; [done | lia.. |].
    intros m' ->%list_elem_of_singleton. lia.
Qed.

Lemma pick_inv_foldl z bonus ms seen best :
  (0 ≤ bonus ≤ 1)%Z →
  pick_inv z bonus seen best →
  pick_inv z bonus (seen ++ ms) (foldl (pick z bonus) best ms).
Proof.
  intros Hbonus. revert seen best.
  induction ms as [|m ms IH]; intros seen best Hinv.
  - by rewrite app_nil_r.
  - cbn [foldl]. rewrite (assoc_L _ seen [m] ms : seen ++ m :: ms = _).
    apply IH. by apply pick_inv_step.
Qed.

Lemma pick_from_moves z bonus (P : nat → Prop) ms best :
  (∀ m, best.2 = Some m → P m) → (∀ m, m ∈ ms → P m) →
  ∀ m, (foldl (pick z bonus) best ms).2 = Some m → P m.
Proof.
  revert best. induction ms as [|x ms IH]; intros best Hbest Hms m; [by auto|].
  cbn [foldl]. apply IH; [|intros m' Hm'; apply Hms; by right].
  intros m'. unfold pick.
  destruct (decide (Some x = best.2)); [by auto|].
  destruct (num_lt best.1 (Int (z x + bonus))); cbn; [|by auto].
  intros [= <-]. apply Hms. by left.
Qed.

Lemma bind_lift_Ok {St A B} (v : A) (k : A → M St B) s :
  (lift (Ok v) ≫= k) s = k v s.
Proof. done. Qed.

Lemma reply_run (g : TicTacToe.game) m :
  board_ok (TicTacToe.ai_player g) (TicTacToe.board g) →
  let g1 := TicTacToe.set_board
              (<[m := TicTacToe.ai_player g]> (TicTacToe.board g)) g in
  ∃ z, TicTacToe.minimax 0 false g1 = (Ok (Int z), g1).
Proof.
  intros Hok g1. apply (minimax_Ok g1). unfold g1. cbn.
  apply board_ok_insert; [done | by right].
Qed.

Lemma get_ai_move_run (g : TicTacToe.game) :
  board_ok (TicTacToe.ai_player g) (TicTacToe.board g) →
  ∃ r, TicTacToe.get_ai_move g = (Ok r, g) ∧
    match r with
    | None => Board.blank ∉ TicTacToe.board g
    | Some m =>
        TicTacToe.board g !! m = Some Board.blank ∧
        ∃ v, reply_score g m = Ok (Int v) ∧
          ∀ m', TicTacToe.board g !! m' = Some Board.blank →
            ∃ v', reply_score g m' = Ok (Int v') ∧ (v' ≤ v)%Z
    end.
Proof.
  intros Hok. pose proof Hok as (Hlen & Hai & Hcells).
  set (z := λ m, match reply_score g m with Ok (Int z) => z | _ => 0%Z end).
  assert (∀ m, let g1 := TicTacToe.set_board
                 (<[m := TicTacToe.ai_player g]> (TicTacToe.board g)) g in
               TicTacToe.minimax 0 false g1 = (Ok (Int (z m)), g1)) as Hz.
  { intros m g1. destruct (reply_run g m Hok) as [v Hv].
    fold g1 in Hv. rewrite Hv. unfold z, reply_score. fold g1.
    by rewrite Hv. }
  assert (∀ m, reply_score g m = Ok (Int (z m))) as Hreply.
  { intros m. unfold reply_score at 1. by rewrite (Hz m). }
  set (bonus := if decide (TicTacToe.aggressive (TicTacToe.player_stats g)
                           > TicTacToe.defensive (TicTacToe.player_stats g))%Z
                then 1%Z else 0%Z).
  assert (0 ≤ bonus ≤ 1)%Z as Hbonus by (unfold bonus; case_decide; lia).
  destruct (lookup_lt_is_Some_2 (TicTacToe.board g) 4) as [spot Hspot];
    [lia|].
  set (best1 := if decide (spot = Board.blank)
                then (Int (z 4), Some 4) else (NegInf, None)).
  set (moves := Board.available_moves (TicTacToe.board g)).
  assert (TicTacToe.get_ai_move g
          = (Ok (foldl (pick z bonus) best1 moves).2, g)) as Hrun.
  { unfold TicTacToe.get_ai_move. rewrite bind_gets.
    unfold index. rewrite Hspot, bind_lift_Ok.
    erewrite bind_Ok; last first.
    { instantiate (1 := g). instantiate (1 := best1). unfold best1.
      destruct (decide (spot = Board.blank)) as [->|]; [|done].
      rewrite bind_gets. eapply ttt_try_move; [done | apply Hz | done]. }
    unfold TicTacToe.available_moves. rewrite bind_gets. fold moves.
    erewrite bind_Ok; [reflexivity|].
    apply for_each_pure. intros best move Hmove%elem_of_available_moves.
    unfold pick. destruct (decide (Some move = best.2)); [done|].
    rewrite bind_gets. eapply ttt_try_move; [done | apply Hz |].
    rewrite bind_gets. fold bonus. unfold bonus.
    destruct (decide (_ > _)%Z); cbn [num_add];
      rewrite ?Z.add_0_r; by destruct (num_lt _ _). }
  rewrite Hrun. clear Hrun. eexists. split; [done|].
  assert (pick_inv z bonus (if decide (spot = Board.blank) then [4] else [])
            best1) as Hinv1.
  { unfold best1, pick_inv. case_decide; cbn; [|done].
    eexists. split_and!; [done | lia.. |].
    intros m' ->%list_elem_of_singleton. lia. }
  apply (pick_inv_foldl z bonus moves) in Hinv1; [|done].
  unfold pick_inv in Hinv1.
  destruct ((foldl (pick z bonus) best1 moves).2) as [m|] eqn:Hm.
  - destruct Hinv1 as (s & _ & _ & Hbest). split.
    + clear Hbest. revert m Hm. apply pick_from_moves.
      * unfold best1. intros m. case_decide; [|done]. intros [= <-].
        by subst spot.
      * intros m. apply elem_of_available_moves.
    + exists (z m). split; [done|]. intros m' Hm'. exists (z m').
      split; [done|]. apply Hbest, elem_of_app. right.
      by apply elem_of_available_moves.
  - destruct Hinv1 as [_ Hnil]. apply app_eq_nil in Hnil as [_ Hnil].
    by apply available_moves_nil.
Qed.


(** X25. On a board of a game in progress, [get_ai_move] never raises and
    leaves the game as it found it.  It returns None exactly when no
    square is blank; otherwise it returns a blank square whose [minimax]
    score is the largest among the blank squares, whatever the recorded
    style of the player: the bonus for an aggressive player never makes
    the AI choose a worse move. *)
Theorem get_ai_move_optimal (g : TicTacToe.game) :
  board_ok (TicTacToe.ai_player g) (TicTacToe.board g) →
  ∃ r, TicTacToe.get_ai_move g = (Ok r, g) ∧
    match r with
    | None => Board.blank ∉ TicTacToe.board g
    | Some m =>
        TicTacToe.board g !! m = Some Board.blank ∧
        ∃ v, reply_score g m = Ok (Int v) ∧
          ∀ m', TicTacToe.board g !! m' = Some Board.blank →
            ∃ v', reply_score g m' = Ok (Int v') ∧ (v' ≤ v)%Z
    end.
Proof.
  intros Hok. destruct (get_ai_move_run g Hok) as (r & Hrun & Hr).
  exists r. split; [exact Hrun|]. destruct r as [m|]; [|exact Hr].
  destruct Hr as (Hblank & v & Hv & Hbest). eauto.
Qed.

Lemma get_ai_move_optimal_witness :
  ∃ r, TicTacToe.get_ai_move TicTacToe.init = (Ok r, TicTacToe.init) ∧
    match r with
    | None => Board.blank ∉ TicTacToe.board TicTacToe.init
    | Some m =>
        TicTacToe.board TicTacToe.init !! m = Some Board.blank ∧
        ∃ v, reply_score TicTacToe.init m = Ok (Int v) ∧
          ∀ m', TicTacToe.board TicTacToe.init !! m' = Some Board.blank →
            ∃ v', reply_score TicTacToe.init m' = Ok (Int v') ∧ (v' ≤ v)%Z
    end.
Proof.
  apply (get_ai_move_optimal TicTacToe.init).
  split_and!; [done | done |]. cbn. repeat constructor; tauto.
Defined.

(** ** Alpha-beta pruning computes the minimax value *)

Lemma num_max_NegInf_l b : num_max NegInf b = b.
Proof. by destruct b. Qed.
Lemma num_max_NegInf_r a : num_max a NegInf = a.
Proof. by destruct a. Qed.
Lemma num_max_PosInf_l b : num_max PosInf b = PosInf.
Proof. by destruct b. Qed.
Lemma num_max_PosInf_r a : num_max a PosInf = PosInf.
Proof. by destruct a. Qed.
Lemma num_max_Int x y : num_max (Int x) (Int y) = Int (Z.max x y).
Proof. unfold num_max, num_lt. case_bool_decide; f_equal; lia. Qed.
Lemma num_min_NegInf_l b : num_min NegInf b = NegInf.
Proof. by destruct b. Qed.
Lemma num_min_NegInf_r a : num_min a NegInf = NegInf.
Proof. by destruct a. Qed.
Lemma num_min_PosInf_l b : num_min PosInf b = b.
Proof. by destruct b. Qed.
Lemma num_min_PosInf_r a : num_min a PosInf = a.
Proof. by destruct a. Qed.
Lemma num_min_Int x y : num_min (Int x) (Int y) = Int (Z.min x y).
Proof. unfold num_min, num_lt. case_bool_decide; f_equal; lia. Qed.
Lemma num_lt_Int x y : num_lt (Int x) (Int y) = true ↔ (x < y)%Z.
Proof. apply bool_decide_eq_true. Qed.
Lemma num_le_Int x y : num_le (Int x) (Int y) = true ↔ (x ≤ y)%Z.
Proof.
  unfold num_le, num_lt. rewrite negb_true_iff, bool_decide_eq_false. lia.
Qed.
Lemma Int_inj_iff x y : Int x = Int y ↔ x = y.
Proof. split; [by intros [=] | by intros ->]. Qed.

Lemma num_eq_false (a b : num) : a ≠ b → a = b ↔ False.
Proof. tauto. Qed.
Lemma eq_refl_True {A} (b : A) : b = b ↔ True.
Proof. tauto. Qed.
Lemma bool_eq_false (a b : bool) : a ≠ b → a = b ↔ False.
Proof. tauto. Qed.

Ltac num_norm :=
  rewrite ?num_max_NegInf_l, ?num_max_NegInf_r, ?num_max_PosInf_l,
    ?num_max_PosInf_r, ?num_max_Int, ?num_min_NegInf_l, ?num_min_NegInf_r,
    ?num_min_PosInf_l, ?num_min_PosInf_r, ?num_min_Int,
    ?num_lt_Int, ?num_le_Int, ?Int_inj_iff in *;
  cbn [num_le num_lt negb] in *;
  rewrite ?(eq_refl_True true), ?(eq_refl_True false),
    ?(bool_eq_false true false), ?(bool_eq_false false true),
    ?(eq_refl_True NegInf), ?(eq_refl_True PosInf),
    ?(num_eq_false NegInf PosInf), ?(num_eq_false PosInf NegInf),
    ?(λ z, num_eq_false NegInf (Int z)), ?(λ z, num_eq_false (Int z) NegInf),
    ?(λ z, num_eq_false PosInf (Int z)), ?(λ z, num_eq_false (Int z) PosInf)
    in * by done.

Ltac num_solve :=
  repeat match goal with
         | x : num |- _ => destruct x
         end;
  try done; num_norm;
  first [done | lia | tauto | intuition lia].

Lemma foldl_max_ge (c : nat → num) ms acc :
  num_le acc (foldl (λ best m, num_max (c m) best) acc ms) = true.
Proof.
  revert acc. induction ms as [|m ms IH]; intros acc; cbn [foldl].
  - by num_solve.
  - specialize (IH (num_max (c m) acc)).
    generalize dependent (foldl (λ best m, num_max (c m) best)
                            (num_max (c m) acc) ms).
    generalize (c m). intros. by num_solve.
Qed.

Lemma foldl_min_le (c : nat → num) ms acc :
  num_le (foldl (λ best m, num_min (c m) best) acc ms) acc = true.
Proof.
  revert acc. induction ms as [|m ms IH]; intros acc; cbn [foldl].
  - by num_solve.
  - specialize (IH (num_min (c m) acc)).
    generalize dependent (foldl (λ best m, num_min (c m) best)
                            (num_min (c m) acc) ms).
    generalize (c m). intros. by num_solve.
Qed.

Lemma alpha_beta_max_loop (cv : nat → num) (ca : nat → num → num)
    alpha beta ms max_eval al v0 :
  (∀ m al', m ∈ ms → num_lt al' beta = true →
     ∃ rz vz, ca m al' = Int rz ∧ cv m = Int vz ∧
              window_ok al' beta (Int rz) (Int vz)) →
  al = num_max alpha max_eval → num_lt al beta = true →
  (num_le max_eval alpha = true → num_le v0 max_eval = true) →
  (num_lt alpha max_eval = true → v0 = max_eval) →
  max_eval ≠ PosInf → v0 ≠ PosInf →
  let r := (loop_break ms (max_eval, al)
              (λ acc m,
                 let e := ca m acc.2 in
                 ((num_max acc.1 e, num_max acc.2 e),
                  num_le beta (num_max acc.2 e)))).1 in
  let v := foldl (λ best m, num_max (cv m) best) v0 ms in
  window_ok alpha beta r v ∧ r ≠ PosInf ∧
  (ms ≠ [] ∨ max_eval ≠ NegInf → r ≠ NegInf).
Proof.
  revert max_eval al v0.
  induction ms as [|m ms IH];
    intros max_eval al v0 Hchild -> Hal Hlow Hin Hme Hv0.
  - cbn [loop_break foldl fst]. clear Hchild. unfold window_ok.
    split_and!; [| | |done|by intros [?|?]]; by num_solve.
  - destruct (Hchild m (num_max alpha max_eval)) as (rz & vz & Hr & Hv & Hw);
      [by left | done |].
    assert (∀ m' al', m' ∈ ms → num_lt al' beta = true →
              ∃ rz vz, ca m' al' = Int rz ∧ cv m' = Int vz ∧
                       window_ok al' beta (Int rz) (Int vz)) as Hchild'
      by (intros m' al' Hm'; apply Hchild; by right).
    cbn [loop_break foldl fst snd]. cbn zeta. rewrite Hr, Hv.
    clear Hchild Hr Hv.
    destruct (num_le beta (num_max (num_max alpha max_eval) (Int rz)))
      eqn:Hbreak; cbn [fst snd].
    + pose proof (foldl_max_ge cv ms (num_max (Int vz) v0)) as Hge.
      generalize dependent (foldl (λ best m, num_max (cv m) best)
                              (num_max (Int vz) v0) ms).
      intros v Hge. clear IH Hchild'. unfold window_ok in *.
      split_and!; [| | | |intros _]; by num_solve.
    + apply not_true_iff_false in Hbreak.
      edestruct (IH (num_max max_eval (Int rz))
                   (num_max (num_max alpha max_eval) (Int rz))
                   (num_max (Int vz) v0)) as (Hw' & Hr1 & Hr2);
        [exact Hchild' | clear IH Hchild'; unfold window_ok in *.. |].
      * by num_solve.
      * by num_solve.
      * by num_solve.
      * by num_solve.
      * by num_solve.
      * by num_solve.
      * split_and!; [done | done |]. intros _. apply Hr2. right.
        clear. by num_solve.
Qed.

Lemma alpha_beta_min_loop (cv : nat → num) (ca : nat → num → num)
    alpha beta ms min_eval be v0 :
  (∀ m be', m ∈ ms → num_lt alpha be' = true →
     ∃ rz vz, ca m be' = Int rz ∧ cv m = Int vz ∧
              window_ok alpha be' (Int rz) (Int vz)) →
  be = num_min beta min_eval → num_lt alpha be = true →
  (num_le beta min_eval = true → num_le min_eval v0 = true) →
  (num_lt min_eval beta = true → v0 = min_eval) →
  min_eval ≠ NegInf → v0 ≠ NegInf →
  let r := (loop_break ms (min_eval, be)
              (λ acc m,
                 let e := ca m acc.2 in
                 ((num_min acc.1 e, num_min acc.2 e),
                  num_le (num_min acc.2 e) alpha))).1 in
  let v := foldl (λ best m, num_min (cv m) best) v0 ms in
  window_ok alpha beta r v ∧ r ≠ NegInf ∧
  (ms ≠ [] ∨ min_eval ≠ PosInf → r ≠ PosInf).
Proof.
  revert min_eval be v0.
  induction ms as [|m ms IH];
    intros min_eval be v0 Hchild -> Hbe Hhigh Hin Hme Hv0.
  - cbn [loop_break foldl fst]. clear Hchild. unfold window_ok.
    split_and!; [| | |done|by intros [?|?]]; by num_solve.
  - destruct (Hchild m (num_min beta min_eval)) as (rz & vz & Hr & Hv & Hw);
      [by left | done |].
    assert (∀ m' be', m' ∈ ms → num_lt alpha be' = true →
              ∃ rz vz, ca m' be' = Int rz ∧ cv m' = Int vz ∧
                       window_ok alpha be' (Int rz) (Int vz)) as Hchild'
      by (intros m' be' Hm'; apply Hchild; by right).
    cbn [loop_break foldl fst snd]. cbn zeta. rewrite Hr, Hv.
    clear Hchild Hr Hv.
    destruct (num_le (num_min (num_min beta min_eval) (Int rz)) alpha)
      eqn:Hbreak; cbn [fst snd].
    + pose proof (foldl_min_le cv ms (num_min (Int vz) v0)) as Hle.
      generalize dependent (foldl (λ best m, num_min (cv m) best)
                              (num_min (Int vz) v0) ms).
      intros v Hle. clear IH Hchild'. unfold window_ok in *.
      split_and!; [| | | |intros _]; by num_solve.
    + apply not_true_iff_false in Hbreak.
      edestruct (IH (num_min min_eval (Int rz))
                   (num_min (num_min beta min_eval) (Int rz))
                   (num_min (Int vz) v0)) as (Hw' & Hr1 & Hr2);
        [exact Hchild' | clear IH Hchild'; unfold window_ok in *.. |].
      * by num_solve.
      * by num_solve.
      * by num_solve.
      * by num_solve.
      * by num_solve.
      * by num_solve.
      * split_and!; [done | done |]. intros _. apply Hr2. right.
        clear. by num_solve.
Qed.

Lemma alpha_beta_window fuel ai board depth alpha beta is_maximizing :
  board_ok ai board → blanks board < fuel → num_lt alpha beta = true →
  ∃ rz vz,
    alpha_beta_value fuel ai board depth alpha beta is_maximizing = Int rz ∧
    minimax_value fuel ai board depth is_maximizing = Int vz ∧
    window_ok alpha beta (Int rz) (Int vz).
Proof.
  revert board depth alpha beta is_maximizing.
  induction fuel as [|fuel IH];
    intros board depth alpha beta is_max Hok Hfuel Hwin; [lia|].
  cbn [alpha_beta_value minimax_value].
  destruct (check_winner_Ok board) as [r Hr]; [apply Hok|]. rewrite Hr.
  assert (∀ z, window_ok alpha beta (Int z) (Int z)) as Hsame.
  { intros z. unfold window_ok. clear. split_and!; intros; by num_solve. }
  destruct (decide (r = Some ai)); [by eexists _, _|].
  destruct (decide (r = Some (s_ "X"))); [by eexists _, _|].
  destruct (decide (r = Some (s_ "Draw"))); [by eexists _, _|].
  pose proof (check_winner_open ai board r Hok Hr) as Hopen.
  pose proof Hok as (Hlen & Hai & Hcells).
  clear Hsame. destruct is_max.
  - edestruct (alpha_beta_max_loop
      (λ m, minimax_value fuel ai (<[m := ai]> board) (depth + 1) false)
      (λ m al, alpha_beta_value fuel ai (<[m := ai]> board) (depth + 1)
                 al beta false)
      alpha beta (Board.available_moves board) NegInf alpha NegInf)
      as (Hw & Hr1 & Hr2); [|by destruct alpha|done..|].
    { intros m al' Hm%elem_of_available_moves Hal'. apply IH; [| |done].
      - apply board_ok_insert; [done | by right].
      - pose proof (blanks_insert _ _ _ Hm Hai). lia. }
    edestruct (foldl_max_Int
      (λ m, minimax_value fuel ai (<[m := ai]> board) (depth + 1) false)
      (Board.available_moves board) NegInf) as [vz Hvz];
      [|done|left; by apply Hopen|].
    { intros m Hm%elem_of_available_moves. apply minimax_value_Int.
      - apply board_ok_insert; [done | by right].
      - pose proof (blanks_insert _ _ _ Hm Hai). lia. }
    cbn zeta in Hw, Hr1, Hr2. rewrite Hvz in Hw |- *.
    destruct (loop_break _ _ _).1 as [|rz|] eqn:Hl;
      [destruct Hr2; [left; by apply Hopen | done] | | done].
    by eexists _, _.
  - assert (s_ "X" ≠ Board.blank) as HX by done.
    edestruct (alpha_beta_min_loop
      (λ m, minimax_value fuel ai (<[m := s_ "X"]> board) (depth + 1) true)
      (λ m be, alpha_beta_value fuel ai (<[m := s_ "X"]> board) (depth + 1)
                 alpha be true)
      alpha beta (Board.available_moves board) PosInf beta PosInf)
      as (Hw & Hr1 & Hr2); [|by destruct beta|done..|].
    { intros m be' Hm%elem_of_available_moves Hbe'. apply IH; [| |done].
      - apply board_ok_insert; [done | by left].
      - pose proof (blanks_insert _ _ _ Hm HX). lia. }
    edestruct (foldl_min_Int
      (λ m, minimax_value fuel ai (<[m := s_ "X"]> board) (depth + 1) true)
      (Board.available_moves board) PosInf) as [vz Hvz];
      [|done|left; by apply Hopen|].
    { intros m Hm%elem_of_available_moves. apply minimax_value_Int.
      - apply board_ok_insert; [done | by left].
      - pose proof (blanks_insert _ _ _ Hm HX). lia. }
    cbn zeta in Hw, Hr1, Hr2. rewrite Hvz in Hw |- *.
    destruct (loop_break _ _ _).1 as [|rz|] eqn:Hl;
      [done | | destruct Hr2; [left; by apply Hopen | done]].
    by eexists _, _.
Qed.

Lemma alpha_beta_full_window fuel ai board depth is_maximizing :
  board_ok ai board → blanks board < fuel →
  alpha_beta_value fuel ai board depth NegInf PosInf is_maximizing
  = minimax_value fuel ai board depth is_maximizing.
Proof.
  intros Hok Hfuel.
  destruct (alpha_beta_window fuel ai board depth NegInf PosInf is_maximizing)
    as (rz & vz & -> & -> & _ & Heq & _); [done..|].
  symmetry. by apply Heq.
Qed.

(** ** The pruned search of Faster TicTacToe.py *)

Lemma for_each_inv {St A B} (P : St → Prop) (l : list A) (f : B → A → B)
    (body : B → A → M St B) :
  (∀ acc x s, x ∈ l → P s → ∃ s', body acc x s = (Ok (f acc x), s') ∧ P s') →
  ∀ acc s, P s → ∃ s', for_each l acc body s = (Ok (foldl f acc l), s') ∧ P s'.
Proof.
  induction l as [|x l IH]; intros Hbody acc s Hs; [by exists s|].
  cbn [for_each foldl].
  destruct (Hbody acc x s) as (s1 & Hrun & Hs1); [by left | done |].
  rewrite (bind_Ok _ _ _ _ _ Hrun). apply IH; [|done].
  intros acc' y s' Hy. apply Hbody. by right.
Qed.

Lemma for_each_break_inv {St A B} (P : St → Prop) (l : list A)
    (f : B → A → B * bool) (body : B → A → M St (B * bool)) :
  (∀ acc x s, x ∈ l → P s → ∃ s', body acc x s = (Ok (f acc x), s') ∧ P s') →
  ∀ acc s, P s →
    ∃ s', for_each_break l acc body s = (Ok (loop_break l acc f), s') ∧ P s'.
Proof.
  induction l as [|x l IH]; intros Hbody acc s Hs; [by exists s|].
  cbn [for_each_break loop_break].
  destruct (Hbody acc x s) as (s1 & Hrun & Hs1); [by left | done |].
  rewrite (bind_Ok _ _ _ _ _ Hrun).
  destruct (f acc x) as [acc' [|]]; cbn [fst snd]; [by exists s1|].
  apply IH; [|done]. intros acc'' y s' Hy. apply Hbody. by right.
Qed.

Lemma same_game_refl g : same_game g g.
Proof.
  exists (FasterTicTacToe.nodes_evaluated (FasterTicTacToe.game_stats g)).
  by destruct g as [? ? ? ? []].
Qed.

Lemma fttt_board_set_run (g : FasterTicTacToe.game) i mark :
  i < length (FasterTicTacToe.board g) →
  FasterTicTacToe.board_set i mark g
  = (Ok (), FasterTicTacToe.set_board
              (<[i := mark]> (FasterTicTacToe.board g)) g).
Proof.
  intros Hi. unfold FasterTicTacToe.board_set. rewrite bind_gets.
  unfold setitem. destruct (decide (i < length (FasterTicTacToe.board g)));
    done.
Qed.

Lemma fttt_check_winner_run (g : FasterTicTacToe.game) r :
  Board.check_winner (FasterTicTacToe.board g) = Ok r →
  FasterTicTacToe.check_winner g = (Ok r, g).
Proof.
  intros Hr. unfold FasterTicTacToe.check_winner. rewrite bind_gets.
  unfold lift. by rewrite Hr.
Qed.

Lemma fttt_try_move (g s : FasterTicTacToe.game) m mark {A B}
    (search : M FasterTicTacToe.game A) (v : A)
    (k : A → M FasterTicTacToe.game B) :
  FasterTicTacToe.board g !! m = Some Board.blank →
  same_game g s →
  (let s1 := FasterTicTacToe.set_board
               (<[m := mark]> (FasterTicTacToe.board g)) s in
   ∃ n, search s1 = (Ok v, FasterTicTacToe.set_nodes_evaluated n s1)) →
  ∃ s', same_game g s' ∧
    (FasterTicTacToe.board_set m mark;;
     score ← search;
     FasterTicTacToe.board_set m Board.blank;; k score) s = k v s'.
Proof.
  intros Hm [n0 ->] Hsearch.
  pose proof (lookup_lt_Some _ _ _ Hm) as Hlt.
  cbn zeta in Hsearch. destruct Hsearch as [n Hsearch].
  exists (FasterTicTacToe.set_nodes_evaluated n g).
  split; [by exists n|].
  erewrite bind_Ok; [|by apply fttt_board_set_run].
  cbn [FasterTicTacToe.set_nodes_evaluated FasterTicTacToe.board].
  erewrite bind_Ok; [|exact Hsearch].
  erewrite bind_Ok; [|apply fttt_board_set_run; cbn; by rewrite length_insert].
  cbn [FasterTicTacToe.set_nodes_evaluated FasterTicTacToe.set_board
       FasterTicTacToe.board FasterTicTacToe.current_player
       FasterTicTacToe.ai_player FasterTicTacToe.player_stats
       FasterTicTacToe.game_stats FasterTicTacToe.moves
       FasterTicTacToe.ai_wins].
  rewrite list_insert_insert_eq, list_insert_id by done. done.
Qed.

Lemma same_game_fields g s :
  same_game g s →
  FasterTicTacToe.board s = FasterTicTacToe.board g ∧
  FasterTicTacToe.ai_player s = FasterTicTacToe.ai_player g ∧
  FasterTicTacToe.player_stats s = FasterTicTacToe.player_stats g.
Proof. by intros [n ->]. Qed.

Lemma same_game_set_nodes g s n :
  same_game g s → same_game g (FasterTicTacToe.set_nodes_evaluated n s).
Proof. intros [n0 ->]. by exists n. Qed.

Lemma alpha_beta_rec_value fuel (g s : FasterTicTacToe.game) depth
    alpha beta is_maximizing :
  length (FasterTicTacToe.board g) = 9 →
  FasterTicTacToe.ai_player g ≠ Board.blank →
  blanks (FasterTicTacToe.board g) < fuel →
  same_game g s →
  ∃ s', same_game g s' ∧
    FasterTicTacToe.minimax_alpha_beta_rec fuel depth alpha beta
      is_maximizing s
    = (Ok (alpha_beta_value fuel (FasterTicTacToe.ai_player g)
             (FasterTicTacToe.board g) depth alpha beta is_maximizing), s').
Proof.
  revert g s depth alpha beta is_maximizing.
  induction fuel as [|fuel IH];
    intros g s depth alpha beta is_max Hlen Hai Hfuel Hs; [lia|].
  cbn [FasterTicTacToe.minimax_alpha_beta_rec alpha_beta_value].
  rewrite bind_modify.
  set (s0 := FasterTicTacToe.set_nodes_evaluated _ s).
  assert (same_game g s0) as Hs0 by (by apply same_game_set_nodes).
  clearbody s0. clear s Hs.
  destruct (same_game_fields g s0 Hs0) as (Hb0 & Hai0 & _).
  destruct (check_winner_Ok _ Hlen) as [r Hr].
  rewrite (bind_Ok _ _ _ _ _ (fttt_check_winner_run s0 r
                                (eq_ind_r (λ b, _ b = _) Hr Hb0))).
  rewrite bind_gets, Hr, Hai0.
  destruct (decide (r = Some (FasterTicTacToe.ai_player g)));
    [by exists s0|].
  destruct (decide (r = Some (s_ "X"))); [by exists s0|].
  destruct (decide (r = Some (s_ "Draw"))); [by exists s0|].
  unfold FasterTicTacToe.available_moves.
  destruct is_max; rewrite bind_gets, Hb0.
  - edestruct (for_each_break_inv (same_game g)
      (Board.available_moves (FasterTicTacToe.board g))
      (λ acc move,
         let eval_score :=
           alpha_beta_value fuel (FasterTicTacToe.ai_player g)
             (<[move := FasterTicTacToe.ai_player g]>
                (FasterTicTacToe.board g))
             (depth + 1) acc.2 beta false in
         ((num_max acc.1 eval_score, num_max acc.2 eval_score),
          num_le beta (num_max acc.2 eval_score))))
      as (s' & Hrun & Hs'); [|exact Hs0|].
    2: { exists s'. split; [done|]. by rewrite (bind_Ok _ _ _ _ _ Hrun). }
    intros acc move s Hmove%elem_of_available_moves Hs.
    destruct (same_game_fields g s Hs) as (Hb & Hais & _).
    rewrite bind_gets, Hais.
    edestruct (fttt_try_move g s move (FasterTicTacToe.ai_player g)
                 (FasterTicTacToe.minimax_alpha_beta_rec fuel (depth + 1)
                    acc.2 beta false)
                 (alpha_beta_value fuel (FasterTicTacToe.ai_player g)
                    (<[move := FasterTicTacToe.ai_player g]>
                       (FasterTicTacToe.board g)) (depth + 1) acc.2 beta
                    false)
                 (λ eval_score,
                    mret (num_max acc.1 eval_score, num_max acc.2 eval_score,
                          num_le beta (num_max acc.2 eval_score))))
      as (s1 & Hs1 & Hrun1); [done | done | | exists s1; by rewrite Hrun1].
    intros s1.
    edestruct (IH (FasterTicTacToe.set_board
                     (<[move := FasterTicTacToe.ai_player g]>
                        (FasterTicTacToe.board g)) g) s1)
      as (s2 & [k ->] & Hrun).
    + cbn. by rewrite length_insert.
    + done.
    + cbn [FasterTicTacToe.set_board FasterTicTacToe.board].
      pose proof (blanks_insert _ _ _ Hmove Hai). lia.
    + destruct Hs as [k ->]. by exists k.
    + exists k. rewrite Hrun. f_equal. destruct Hs as [k' ->]. done.
  - assert (s_ "X" ≠ Board.blank) as HX by done.
    edestruct (for_each_break_inv (same_game g)
      (Board.available_moves (FasterTicTacToe.board g))
      (λ acc move,
         let eval_score :=
           alpha_beta_value fuel (FasterTicTacToe.ai_player g)
             (<[move := s_ "X"]> (FasterTicTacToe.board g))
             (depth + 1) alpha acc.2 true in
         ((num_min acc.1 eval_score, num_min acc.2 eval_score),
          num_le (num_min acc.2 eval_score) alpha)))
      as (s' & Hrun & Hs'); [|exact Hs0|].
    2: { exists s'. split; [done|]. by rewrite (bind_Ok _ _ _ _ _ Hrun). }
    intros acc move s Hmove%elem_of_available_moves Hs.
    edestruct (fttt_try_move g s move (s_ "X")
                 (FasterTicTacToe.minimax_alpha_beta_rec fuel (depth + 1)
                    alpha acc.2 true)
                 (alpha_beta_value fuel (FasterTicTacToe.ai_player g)
                    (<[move := s_ "X"]> (FasterTicTacToe.board g))
                    (depth + 1) alpha acc.2 true)
                 (λ eval_score,
                    mret (num_min acc.1 eval_score, num_min acc.2 eval_score,
                          num_le (num_min acc.2 eval_score) alpha)))
      as (s1 & Hs1 & Hrun1); [done | done | | exists s1; by rewrite Hrun1].
    intros s1.
    edestruct (IH (FasterTicTacToe.set_board
                     (<[move := s_ "X"]> (FasterTicTacToe.board g)) g) s1)
      as (s2 & [k ->] & Hrun).
    + cbn. by rewrite length_insert.
    + done.
    + cbn [FasterTicTacToe.set_board FasterTicTacToe.board].
      pose proof (blanks_insert _ _ _ Hmove HX). lia.
    + destruct Hs as [k ->]. by exists k.
    + exists k. rewrite Hrun. f_equal. destruct Hs as [k' ->]. done.
Qed.

Lemma minimax_alpha_beta_run (g s : FasterTicTacToe.game) depth
    is_maximizing :
  board_ok (FasterTicTacToe.ai_player g) (FasterTicTacToe.board g) →
  same_game g s →
  ∃ z s', same_game g s' ∧
    FasterTicTacToe.minimax_alpha_beta depth NegInf PosInf is_maximizing s
    = (Ok (Int z), s') ∧
    minimax_value (S (length (FasterTicTacToe.board g)))
      (FasterTicTacToe.ai_player g) (FasterTicTacToe.board g) depth
      is_maximizing = Int z.
Proof.
  intros Hok Hs. pose proof Hok as (Hlen & Hai & _).
  pose proof (blanks_le (FasterTicTacToe.board g)) as Hle.
  destruct (same_game_fields g s Hs) as (Hb & _ & _).
  destruct (alpha_beta_rec_value (S (length (FasterTicTacToe.board g))) g s
              depth NegInf PosInf is_maximizing) as (s' & Hs' & Hrun);
    [done | done | lia | done |].
  rewrite alpha_beta_full_window in Hrun by (done || lia).
  destruct (minimax_value_Int (S (length (FasterTicTacToe.board g)))
              (FasterTicTacToe.ai_player g) (FasterTicTacToe.board g)
              depth is_maximizing) as [z Hz]; [done | lia |].
  exists z, s'. split_and!; [done | | done].
  unfold FasterTicTacToe.minimax_alpha_beta. by rewrite Hb, Hrun, Hz.
Qed.

(** X26. On a board of a game in progress, [minimax_alpha_beta] called
    with the full window (-inf, +inf) returns exactly what the unpruned
    [minimax] of TicTacToe.py returns for the same board, and of the game
    it changes nothing but the counter of evaluated nodes: pruning never
    changes the value of a position. *)
Theorem alpha_beta_agrees_with_minimax (fg : FasterTicTacToe.game)
    (g : TicTacToe.game) (depth : Z) (is_maximizing : bool) :
  FasterTicTacToe.board fg = TicTacToe.board g →
  FasterTicTacToe.ai_player fg = TicTacToe.ai_player g →
  board_ok (TicTacToe.ai_player g) (TicTacToe.board g) →
  (FasterTicTacToe.minimax_alpha_beta depth NegInf PosInf is_maximizing fg).1
  = (TicTacToe.minimax depth is_maximizing g).1 ∧
  same_game fg
    (FasterTicTacToe.minimax_alpha_beta depth NegInf PosInf is_maximizing
       fg).2.
Proof.
  intros Hb Hai Hok.
  destruct (minimax_alpha_beta_run fg fg depth is_maximizing)
    as (z & s' & Hs' & -> & Hz);
    [by rewrite Hb, Hai | apply same_game_refl |].
  destruct (minimax_run g depth is_maximizing Hok) as (z' & -> & Hz').
  rewrite Hb, Hai in Hz. split; [|done]. cbn. congruence.
Qed.

Lemma alpha_beta_agrees_with_minimax_witness :
  (FasterTicTacToe.minimax_alpha_beta 0 NegInf PosInf true
     FasterTicTacToe.init).1
  = (TicTacToe.minimax 0 true TicTacToe.init).1 ∧
  same_game FasterTicTacToe.init
    (FasterTicTacToe.minimax_alpha_beta 0 NegInf PosInf true
       FasterTicTacToe.init).2.
Proof.
  apply (alpha_beta_agrees_with_minimax FasterTicTacToe.init TicTacToe.init
           0 true); [done | done |].
  split_and!; [done | done |]. cbn. repeat constructor; tauto.
Defined.

Lemma available_moves_seq board :
  Board.available_moves board
  = filter (λ i, board !! i = Some Board.blank) (seq 0 (length board)).
Proof.
  induction board as [|x board IH] using rev_ind; [done|].
  unfold Board.available_moves in *.
  rewrite imap_app, filter_app, fmap_app, IH.
  rewrite length_app, seq_app, filter_app. cbn [length seq imap].
  f_equal.
  - apply filter_ext_elem. intros i Hi%elem_of_seq.
    by rewrite lookup_app_l by lia.
  - rewrite !filter_cons, !filter_nil. cbn [snd fst].
    rewrite Nat.add_0_r, list_lookup_middle by done.
    destruct (decide (x = Board.blank)) as [->|Hx].
    + by rewrite decide_True.
    + rewrite decide_False; [done|]. by intros [= ?].
Qed.

Lemma available_moves_sorted board :
  StronglySorted lt (Board.available_moves board).
Proof. rewrite available_moves_seq. apply StronglySorted_filter_seq. Qed.

Lemma fnum_gt_with_bonus bonus x y :
  FasterTicTacToe.fnum_gt (with_bonus bonus x) (with_bonus bonus y)
  = bool_decide (y < x)%Z.
Proof.
  unfold with_bonus. destruct bonus; cbn;
    destruct (QArith_base.Qlt_le_dec _ _) as [Hlt|Hle];
    unfold QArith_base.Qlt, QArith_base.Qle in *; cbn in *;
    case_bool_decide; first [done | lia].
Qed.

Lemma fpick_inv_step z bonus seen best move :
  fpick_inv z bonus seen best →
  fpick_inv z bonus (seen ++ [move]) (fpick z bonus best move).
Proof.
  unfold fpick_inv, fpick. destruct best as [bs [m|]]; cbn [fst snd].
  - intros (-> & before & after & -> & Hbefore & Hafter).
    rewrite fnum_gt_with_bonus. case_bool_decide; cbn [fst snd].
    + split; [done|]. exists (before ++ m :: after), [].
      split_and!; [done | | by intros ? ?%elem_of_nil].
      intros m' [?%Hbefore|[->|?%Hafter]%elem_of_cons]%elem_of_app; lia.
    + split; [done|]. exists before, (after ++ [move]).
      split_and!; [by rewrite <-app_assoc | done |].
      intros m' [?%Hafter| ->%list_elem_of_singleton]%elem_of_app; lia.
  - intros [-> ->]. destruct bonus; cbn.
    all: split; [done|]; exists [], []; split_and!; [done|..].
    all: by intros ? ?%elem_of_nil.
Qed.

Lemma fpick_inv_foldl z bonus ms seen best :
  fpick_inv z bonus seen best →
  fpick_inv z bonus (seen ++ ms) (foldl (fpick z bonus) best ms).
Proof.
  revert seen best. induction ms as [|m ms IH]; intros seen best Hinv.
  - by rewrite app_nil_r.
  - cbn [foldl]. rewrite (assoc_L _ seen [m] ms : seen ++ m :: ms = _).
    apply IH. by apply fpick_inv_step.
Qed.

(** X27. On a board of a game in progress, [get_ai_move] of Faster
    TicTacToe.py never raises and changes nothing of the game but the
    counter of evaluated nodes.  It returns None exactly when no square is
    blank; otherwise it returns the lowest-numbered blank square among
    those with the largest score: the bonus of 0.5 for an aggressive
    player is added to every score and never changes the choice. *)
Theorem faster_get_ai_move_first_best (g : FasterTicTacToe.game) :
  board_ok (FasterTicTacToe.ai_player g) (FasterTicTacToe.board g) →
  ∃ r s', FasterTicTacToe.get_ai_move g = (Ok r, s') ∧ same_game g s' ∧
    match r with
    | None => Board.blank ∉ FasterTicTacToe.board g
    | Some m =>
        FasterTicTacToe.board g !! m = Some Board.blank ∧
        ∃ v, pruned_reply_score g m = Ok (Int v) ∧
          ∀ m', FasterTicTacToe.board g !! m' = Some Board.blank →
            ∃ v', pruned_reply_score g m' = Ok (Int v') ∧
                  (v' ≤ v)%Z ∧ (m' < m → (v' < v)%Z)
    end.
Proof.
  intros Hok. pose proof Hok as (Hlen & Hai & Hcells).
  set (z := λ m, match pruned_reply_score g m with
                 | Ok (Int z) => z | _ => 0%Z end).
  assert (∀ m s, same_game g s →
            let s1 := FasterTicTacToe.set_board
                        (<[m := FasterTicTacToe.ai_player g]>
                           (FasterTicTacToe.board g)) s in
            ∃ n, FasterTicTacToe.minimax_alpha_beta 0 NegInf PosInf false s1
                 = (Ok (Int (z m)),
                    FasterTicTacToe.set_nodes_evaluated n s1)) as Hz.
  { intros m s Hs s1.
    set (g1 := FasterTicTacToe.set_board
                 (<[m := FasterTicTacToe.ai_player g]>
                    (FasterTicTacToe.board g)) g).
    assert (board_ok (FasterTicTacToe.ai_player g1)
              (FasterTicTacToe.board g1)) as Hok1
      by (apply board_ok_insert; [done | by right]).
    assert (same_game g1 s1) as Hs1 by (destruct Hs as [n ->]; by exists n).
    destruct (minimax_alpha_beta_run g1 s1 0 false Hok1 Hs1)
      as (v & s' & [n ->] & Hrun & Hv).
    destruct (minimax_alpha_beta_run g1 g1 0 false Hok1 (same_game_refl g1))
      as (v' & s'' & _ & Hrun' & Hv').
    assert (z m = v) as ->.
    { unfold z, pruned_reply_score. fold g1. rewrite Hrun'. cbn. congruence. }
    exists n. rewrite Hrun. f_equal. destruct Hs1 as [n' ->]. done. }
  assert (∀ m, pruned_reply_score g m = Ok (Int (z m))) as Hreply.
  { intros m. destruct (Hz m g (same_game_refl g)) as [n Hn].
    cbn zeta in Hn. unfold pruned_reply_score at 1. by rewrite Hn. }
  set (bonus := bool_decide
         (FasterTicTacToe.aggressive (FasterTicTacToe.player_stats g)
          > FasterTicTacToe.defensive (FasterTicTacToe.player_stats g))%Z).
  set (moves := Board.available_moves (FasterTicTacToe.board g)).
  assert (∃ s', same_game g s' ∧
            FasterTicTacToe.get_ai_move g
            = (Ok (foldl (fpick z bonus) (FasterTicTacToe.FNegInf, None)
                     moves).2, s')) as (s' & Hs' & Hrun).
  { unfold FasterTicTacToe.get_ai_move. rewrite bind_modify.
    set (s0 := FasterTicTacToe.set_nodes_evaluated 0 g).
    assert (same_game g s0) as Hs0 by (by exists 0%Z).
    clearbody s0.
    unfold FasterTicTacToe.available_moves. rewrite bind_gets.
    destruct (same_game_fields g s0 Hs0) as (-> & _ & _). fold moves.
    edestruct (for_each_inv (same_game g) moves (fpick z bonus))
      as (s' & Hrun & Hs'); [|exact Hs0|].
    2: { exists s'. split; [done|]. by rewrite (bind_Ok _ _ _ _ _ Hrun). }
    intros best move s Hmove%elem_of_available_moves Hs.
    destruct (same_game_fields g s Hs) as (_ & Hais & _).
    rewrite bind_gets, Hais.
    edestruct (fttt_try_move g s move (FasterTicTacToe.ai_player g)
                 (FasterTicTacToe.minimax_alpha_beta 0 NegInf PosInf false)
                 (Int (z move))
                 (λ board_score,
                    ps ← gets FasterTicTacToe.player_stats;
                    let board_score :=
                      if decide (FasterTicTacToe.aggressive ps
                                 > FasterTicTacToe.defensive ps)%Z
                      then FasterTicTacToe.fnum_add_half
                             (FasterTicTacToe.fnum_of board_score)
                      else FasterTicTacToe.fnum_of board_score in
                    if FasterTicTacToe.fnum_gt board_score best.1
                    then mret (board_score, Some move) else mret best))
      as (s1 & Hs1 & Hrun1); [done | done | by apply Hz |].
    exists s1. split; [|done]. etrans; [exact Hrun1|].
    cbn beta. rewrite bind_gets.
    destruct (same_game_fields g s1 Hs1) as (_ & _ & ->).
    unfold fpick, with_bonus, bonus.
    destruct (decide (_ > _)%Z) as [Hagg|Hagg].
    - rewrite bool_decide_eq_true_2 by done.
      by destruct (FasterTicTacToe.fnum_gt _ _).
    - rewrite bool_decide_eq_false_2 by done.
      by destruct (FasterTicTacToe.fnum_gt _ _). }
  rewrite Hrun. clear Hrun. eexists _, s'. split_and!; [done..|].
  assert (fpick_inv z bonus [] (FasterTicTacToe.FNegInf, None)) as Hinv
    by done.
  apply (fpick_inv_foldl z bonus moves) in Hinv. rewrite app_nil_l in Hinv.
  unfold fpick_inv in Hinv.
  destruct ((foldl (fpick z bonus) (FasterTicTacToe.FNegInf, None) moves).2)
    as [m|].
  - destruct Hinv as (_ & before & after & Hmoves & Hbefore & Hafter).
    assert (m ∈ moves) as Hm by (rewrite Hmoves; set_solver).
    split; [by apply elem_of_available_moves|].
    exists (z m). split; [done|]. intros m' Hm'. exists (z m').
    split; [done|]. apply elem_of_available_moves in Hm'. fold moves in Hm'.
    pose proof (available_moves_sorted (FasterTicTacToe.board g)) as Hsorted.
    fold moves in Hsorted. rewrite Hmoves in Hm', Hsorted.
    apply StronglySorted_app_1_r, StronglySorted_cons in Hsorted
      as [Hgt _].
    rewrite Forall_forall in Hgt.
    apply elem_of_app in Hm' as [Hb|[->|Ha]%elem_of_cons].
    + specialize (Hbefore m' Hb). lia.
    + lia.
    + specialize (Hafter m' Ha). specialize (Hgt m' Ha). lia.
  - destruct Hinv as [_ Hnil]. by apply available_moves_nil.
Qed.

Lemma faster_get_ai_move_first_best_witness :
  ∃ r s', FasterTicTacToe.get_ai_move FasterTicTacToe.init = (Ok r, s') ∧
    same_game FasterTicTacToe.init s' ∧
    match r with
    | None => Board.blank ∉ FasterTicTacToe.board FasterTicTacToe.init
    | Some m =>
        FasterTicTacToe.board FasterTicTacToe.init !! m = Some Board.blank ∧
        ∃ v, pruned_reply_score FasterTicTacToe.init m = Ok (Int v) ∧
          ∀ m', FasterTicTacToe.board FasterTicTacToe.init !! m'
                = Some Board.blank →
            ∃ v', pruned_reply_score FasterTicTacToe.init m' = Ok (Int v') ∧
                  (v' ≤ v)%Z ∧ (m' < m → (v' < v)%Z)
    end.
Proof.
  apply (faster_get_ai_move_first_best FasterTicTacToe.init).
  split_and!; [done | done |]. cbn. repeat constructor; tauto.
Defined.

(** ** The human never wins *)

Lemma make_move_run (g : TicTacToe.game) (position : Z) (player : str) :
  length (TicTacToe.board g) = 9 →
  TicTacToe.make_move position player g
  = if decide (-9 ≤ position < 9)%Z then
      let p := Z.to_nat (position `mod` 9) in
      if decide (TicTacToe.board g !! p = Some Board.blank) then
        (Ok true,
         TicTacToe.mkGame (<[p := player]> (TicTacToe.board g))
           (if decide (player = s_ "X") then s_ "O" else s_ "X")
           (TicTacToe.ai_player g) (TicTacToe.player_stats g)
           (TicTacToe.mkGameStats
              (TicTacToe.moves (TicTacToe.game_stats g) + 1)
              (TicTacToe.ai_wins (TicTacToe.game_stats g))))
      else (Ok false, g)
    else (Raise IndexError, g).
Proof.
  intros Hlen. unfold TicTacToe.make_move. rewrite bind_gets.
  unfold Board.position. rewrite Hlen.
  destruct (decide (-9 ≤ position < 9)%Z) as [Hin|Hout]; last first.
  { destruct (decide (0 ≤ position < Z.of_nat 9)%Z); [lia|].
    destruct (decide (- Z.of_nat 9 ≤ position < 0)%Z); [lia|]. done. }
  assert (∃ p, (if decide (0 ≤ position < Z.of_nat 9)%Z
                then Ok (Z.to_nat position)
                else if decide (- Z.of_nat 9 ≤ position < 0)%Z
                     then Ok (Z.to_nat (Z.of_nat 9 + position))
                     else Raise IndexError) = Ok p
               ∧ p = Z.to_nat (position `mod` 9) ∧ p < 9)
    as (p & -> & Hp & Hlt).
  { destruct (decide (0 ≤ position < Z.of_nat 9)%Z).
    - eexists. split; [done|]. rewrite Z.mod_small by lia. lia.
    - destruct (decide (- Z.of_nat 9 ≤ position < 0)%Z); [|lia].
      eexists. split; [done|].
      assert (position `mod` 9 = 9 + position)%Z as ->; [|lia].
      symmetry. apply (Z.mod_unique_pos _ _ (-1)); lia. }
  rewrite bind_lift_Ok. cbn zeta. rewrite <-Hp. unfold index.
  destruct (lookup_lt_is_Some_2 (TicTacToe.board g) p) as [spot Hspot];
    [lia|].
  rewrite Hspot, bind_lift_Ok.
  destruct (decide (spot = Board.blank)) as [->|Hne].
  - destruct (decide (Some Board.blank = Some Board.blank)); [|done].
    erewrite bind_Ok; [|apply ttt_board_set_run; lia].
    rewrite !bind_modify. done.
  - destruct (decide (Some spot = Some Board.blank)); [congruence|done].
Qed.

Lemma foldl_ext_elem {A B} (f g : B → A → B) (l : list A) (acc : B) :
  (∀ acc x, x ∈ l → f acc x = g acc x) → foldl f acc l = foldl g acc l.
Proof.
  revert acc. induction l as [|x l IH]; intros acc Hfg; [done|].
  cbn [foldl]. rewrite Hfg by (by left). apply IH.
  intros acc' y Hy. apply Hfg. by right.
Qed.

Lemma minimax_value_fuel f1 f2 ai board depth is_maximizing :
  board_ok ai board → blanks board < f1 → blanks board < f2 →
  minimax_value f1 ai board depth is_maximizing
  = minimax_value f2 ai board depth is_maximizing.
Proof.
  revert f2 board depth is_maximizing.
  induction f1 as [|f1 IH]; intros [|f2] board depth is_max Hok H1 H2;
    [lia..|].
  cbn [minimax_value]. pose proof Hok as (Hlen & Hai & Hcells).
  destruct (Board.check_winner board) as [r|]; [|done].
  repeat (case_decide; [done|]).
  assert (s_ "X" ≠ Board.blank) as HX by done.
  destruct is_max; apply foldl_ext_elem;
    intros best m Hm%elem_of_available_moves; f_equal.
  - pose proof (blanks_insert _ _ _ Hm Hai).
    apply IH; [apply board_ok_insert; [done | by right] | lia..].
  - pose proof (blanks_insert _ _ _ Hm HX).
    apply IH; [apply board_ok_insert; [done | by left] | lia..].
Qed.

Lemma foldl_max_same_sign (c c' : nat → num) ms (acc acc' : num) :
  (∀ m, m ∈ ms → ∃ z z', c m = Int z ∧ c' m = Int z' ∧ same_sign z z') →
  (acc = NegInf ∧ acc' = NegInf ∧ ms ≠ []) ∨
  (∃ z z', acc = Int z ∧ acc' = Int z' ∧ same_sign z z') →
  ∃ z z', foldl (λ best m, num_max (c m) best) acc ms = Int z ∧
          foldl (λ best m, num_max (c' m) best) acc' ms = Int z' ∧
          same_sign z z'.
Proof.
  revert acc acc'. induction ms as [|m ms IH]; intros acc acc' Hc Hacc.
  - destruct Hacc as [(_ & _ & ?)|?]; done.
  - cbn [foldl]. destruct (Hc m) as (z & z' & -> & -> & Hz); [by left|].
    apply IH; [intros m' Hm'; apply Hc; by right|]. right.
    destruct Hacc as [(-> & -> & _)|(a & a' & -> & -> & Ha)].
    + by exists z, z'.
    + rewrite !num_max_Int. eexists _, _. split_and!; [done..|].
      unfold same_sign in *. lia.
Qed.

Lemma foldl_min_same_sign (c c' : nat → num) ms (acc acc' : num) :
  (∀ m, m ∈ ms → ∃ z z', c m = Int z ∧ c' m = Int z' ∧ same_sign z z') →
  (acc = PosInf ∧ acc' = PosInf ∧ ms ≠ []) ∨
  (∃ z z', acc = Int z ∧ acc' = Int z' ∧ same_sign z z') →
  ∃ z z', foldl (λ best m, num_min (c m) best) acc ms = Int z ∧
          foldl (λ best m, num_min (c' m) best) acc' ms = Int z' ∧
          same_sign z z'.
Proof.
  revert acc acc'. induction ms as [|m ms IH]; intros acc acc' Hc Hacc.
  - destruct Hacc as [(_ & _ & ?)|?]; done.
  - cbn [foldl]. destruct (Hc m) as (z & z' & -> & -> & Hz); [by left|].
    apply IH; [intros m' Hm'; apply Hc; by right|]. right.
    destruct Hacc as [(-> & -> & _)|(a & a' & -> & -> & Ha)].
    + by exists z, z'.
    + rewrite !num_min_Int. eexists _, _. split_and!; [done..|].
      unfold same_sign in *. lia.
Qed.

Lemma minimax_value_same_sign fuel ai board d d' is_maximizing :
  board_ok ai board → blanks board < fuel →
  (d + Z.of_nat (blanks board) ≤ 9)%Z →
  (d' + Z.of_nat (blanks board) ≤ 9)%Z →
  ∃ z z', minimax_value fuel ai board d is_maximizing = Int z ∧
          minimax_value fuel ai board d' is_maximizing = Int z' ∧
          same_sign z z'.
Proof.
  revert board d d' is_maximizing.
  induction fuel as [|fuel IH]; intros board d d' is_max Hok Hfuel Hd Hd';
    [lia|].
  cbn [minimax_value].
  destruct (check_winner_Ok board) as [r Hr]; [apply Hok|]. rewrite Hr.
  destruct (decide (r = Some ai)).
  { eexists _, _. split_and!; [done..|]. unfold same_sign. lia. }
  destruct (decide (r = Some (s_ "X"))).
  { eexists _, _. split_and!; [done..|]. unfold same_sign. lia. }
  destruct (decide (r = Some (s_ "Draw"))).
  { eexists _, _. split_and!; [done..|]. unfold same_sign. lia. }
  pose proof (check_winner_open ai board r Hok Hr) as Hopen.
  pose proof Hok as (Hlen & Hai & Hcells).
  assert (s_ "X" ≠ Board.blank) as HX by done.
  destruct is_max.
  - apply foldl_max_same_sign; [|left; split_and!; [done..|by apply Hopen]].
    intros m Hm%elem_of_available_moves.
    pose proof (blanks_insert _ _ _ Hm Hai).
    apply IH; [apply board_ok_insert; [done | by right] | lia..].
  - apply foldl_min_same_sign; [|left; split_and!; [done..|by apply Hopen]].
    intros m Hm%elem_of_available_moves.
    pose proof (blanks_insert _ _ _ Hm HX).
    apply IH; [apply board_ok_insert; [done | by left] | lia..].
Qed.

Lemma foldl_min_elem (c : nat → num) ms acc m :
  m ∈ ms → num_le (foldl (λ best m, num_min (c m) best) acc ms) (c m) = true.
Proof.
  revert acc. induction ms as [|x ms IH]; intros acc Hm;
    [by apply elem_of_nil in Hm|].
  cbn [foldl]. apply elem_of_cons in Hm as [->|Hm]; [|by apply IH].
  pose proof (foldl_min_le c ms (num_min (c x) acc)) as Hle.
  generalize dependent (foldl (λ best m, num_min (c m) best)
                          (num_min (c x) acc) ms).
  generalize (c x). intros. clear IH. by num_solve.
Qed.

Lemma foldl_max_attained (c : nat → num) ms acc :
  foldl (λ best m, num_max (c m) best) acc ms = acc ∨
  ∃ m, m ∈ ms ∧ foldl (λ best m, num_max (c m) best) acc ms = c m.
Proof.
  revert acc. induction ms as [|x ms IH]; intros acc; [by left|].
  cbn [foldl]. destruct (IH (num_max (c x) acc)) as [->|(m & Hm & ->)].
  - unfold num_max. destruct (num_lt (c x) acc); [by left|].
    right. exists x. split; [by left | done].
  - right. exists m. split; [by right | done].
Qed.

Lemma check_winner_cases ai board r :
  board_ok ai board → Board.check_winner board = Ok r →
  (r = None ∧ Board.blank ∈ board) ∨
  r = Some (s_ "X") ∨ r = Some ai ∨ r = Some (s_ "Draw").
Proof.
  intros (Hlen & Hai & Hcells) Hr. unfold Board.check_winner in Hr.
  destruct (Board.first_line board Board.lines) as [[w|]|] eqn:Hfl;
    cbn [mbind result_bind mret result_ret] in Hr; [| |done].
  - injection Hr as <-. apply first_line_Some in Hfl as [Hin Hw].
    rewrite Forall_forall in Hcells.
    destruct (Hcells w Hin) as [?|[->| ->]]; [done | by auto..].
  - injection Hr as <-. case_decide; [by left | by auto].
Qed.

Lemma truthy_winner ai board r :
  board_ok ai board → ai ≠ [] → Board.check_winner board = Ok r →
  TicTacToePlay.truthy r = false → r = None.
Proof.
  intros Hok Hne Hr Htruthy.
  destruct (check_winner_cases ai board r Hok Hr)
    as [[-> _]|[->|[->| ->]]]; [done|..]; cbn in Htruthy;
    first [done | by rewrite bool_decide_eq_true_2 in Htruthy].
Qed.

Lemma init_safe : ai_safe TicTacToe.init.
Proof.
  assert (board_ok (s_ "O") (TicTacToe.board TicTacToe.init)) as Hok.
  { split_and!; [done | done |]. cbn. repeat constructor; tauto. }
  split_and!; [done | done | done |].
  exists 0%Z. split; [|done].
  rewrite <-alpha_beta_full_window by (done || (vm_compute; lia)).
  by vm_compute.
Qed.

Lemma player_input_run (g : TicTacToe.game) line :
  length (TicTacToe.board g) = 9 →
  TicTacToePlay.player_input line g = (Ok false, g) ∨
  ∃ m g1, TicTacToe.board g !! m = Some Board.blank ∧
    TicTacToePlay.player_input line g = (Ok true, g1) ∧
    TicTacToe.board g1 = <[m := s_ "X"]> (TicTacToe.board g) ∧
    TicTacToe.ai_player g1 = TicTacToe.ai_player g.
Proof.
  intros Hlen. destruct line as [move|]; [|by left].
  unfold TicTacToePlay.player_input.
  destruct (decide (0 ≤ move ≤ 8)%Z) as [Hmove|]; [|by left].
  destruct (decide (TicTacToe.board g !! Z.to_nat (move `mod` 9)
                    = Some Board.blank)) as [Hblank|Hblank].
  - right. eexists _, _. split; [exact Hblank|].
    erewrite bind_Ok; last first.
    { rewrite make_move_run by done.
      destruct (decide (-9 ≤ move < 9)%Z); [|lia]. cbn zeta.
      destruct (decide (_ = Some Board.blank)); [reflexivity | contradiction]. }
    unfold TicTacToe.update_player_stats. rewrite bind_modify.
    split; [reflexivity|]. done.
  - left. erewrite bind_Ok; last first.
    { rewrite make_move_run by done.
      destruct (decide (-9 ≤ move < 9)%Z); [|lia]. cbn zeta.
      destruct (decide (_ = Some Board.blank)); [contradiction | reflexivity]. }
    done.
Qed.

Lemma min_node_child fuel ai board depth m :
  Board.check_winner board = Ok None →
  board !! m = Some Board.blank →
  num_le (minimax_value (S fuel) ai board depth false)
    (minimax_value fuel ai (<[m := s_ "X"]> board) (depth + 1) true) = true.
Proof.
  intros Hopen Hm. cbn [minimax_value]. rewrite Hopen.
  destruct (decide (None = Some ai)); [done|].
  destruct (decide (None = Some (s_ "X"))); [done|].
  destruct (decide (None = Some (s_ "Draw"))); [done|].
  apply (foldl_min_elem
           (λ m, minimax_value fuel ai (<[m := s_ "X"]> board) (depth + 1)
                   true)).
  by apply elem_of_available_moves.
Qed.

Lemma max_node_attained fuel ai board depth :
  Board.check_winner board = Ok None →
  minimax_value (S fuel) ai board depth true = NegInf ∨
  ∃ m, board !! m = Some Board.blank ∧
    minimax_value (S fuel) ai board depth true
    = minimax_value fuel ai (<[m := ai]> board) (depth + 1) false.
Proof.
  intros Hopen. cbn [minimax_value]. rewrite Hopen.
  destruct (decide (None = Some ai)); [done|].
  destruct (decide (None = Some (s_ "X"))); [done|].
  destruct (decide (None = Some (s_ "Draw"))); [done|].
  destruct (foldl_max_attained
              (λ m, minimax_value fuel ai (<[m := ai]> board) (depth + 1)
                      false)
              (Board.available_moves board) NegInf)
    as [->|(m & Hm%elem_of_available_moves & ->)]; [by left|].
  right. by exists m.
Qed.

Lemma reply_score_value (g : TicTacToe.game) m :
  board_ok (TicTacToe.ai_player g) (TicTacToe.board g) →
  reply_score g m
  = Ok (minimax_value 10 (TicTacToe.ai_player g)
          (<[m := TicTacToe.ai_player g]> (TicTacToe.board g)) 0 false).
Proof.
  intros Hok. unfold reply_score.
  set (g1 := TicTacToe.set_board _ g).
  assert (board_ok (TicTacToe.ai_player g1) (TicTacToe.board g1)) as Hok1
    by (apply board_ok_insert; [done | by right]).
  destruct (minimax_run g1 0 false Hok1) as (z & -> & Hz).
  cbn [fst]. rewrite <-Hz. unfold g1.
  cbn [TicTacToe.set_board TicTacToe.board TicTacToe.ai_player].
  rewrite length_insert. by destruct Hok as (-> & _).
Qed.

Lemma after_player_move_safe (g g1 : TicTacToe.game) m :
  ai_safe g →
  TicTacToe.board g !! m = Some Board.blank →
  TicTacToe.board g1 = <[m := s_ "X"]> (TicTacToe.board g) →
  TicTacToe.ai_player g1 = TicTacToe.ai_player g →
  match TicTacToePlay.after_player_move g1 with
  | inl r => r.1 = TicTacToePlay.NameError ∨ r.1 = TicTacToePlay.AiWins
  | inr g2 => ai_safe g2
  end.
Proof.
  intros (Hai & Hok & Hopen & z & Hz & Hz0) Hm Hb1 Hai1.
  rewrite Hai in Hai1.
  assert (s_ "X" ≠ Board.blank) as HX by done.
  assert (s_ "O" ≠ Board.blank) as HO by done.
  assert (board_ok (s_ "O") (TicTacToe.board g1)) as Hok1
    by (rewrite Hb1; apply board_ok_insert; [done | by left]).
  pose proof (blanks_insert _ _ _ Hm HX) as Hbl1. rewrite <-Hb1 in Hbl1.
  pose proof (blanks_le (TicTacToe.board g)) as Hble.
  destruct Hok as (Hlen & _).
  (* the value after the player's move is not negative either *)
  pose proof (min_node_child 9 (s_ "O") _ 0 m Hopen Hm) as Hle.
  rewrite Hz, <-Hb1 in Hle.
  destruct (minimax_value_Int 9 (s_ "O") (TicTacToe.board g1) (0 + 1) true)
    as [z1 Hz1]; [done | lia |].
  rewrite Hz1 in Hle. apply num_le_Int in Hle.
  unfold TicTacToePlay.after_player_move.
  destruct (check_winner_Ok (TicTacToe.board g1)) as [r1 Hr1];
    [apply Hok1|].
  rewrite (ttt_check_winner_run g1 r1 Hr1).
  destruct (TicTacToePlay.truthy r1) eqn:Htruthy.
  { destruct (decide (r1 = Some (s_ "X"))) as [->|]; [|by left].
    exfalso. cbn [minimax_value] in Hz1. rewrite Hr1 in Hz1.
    destruct (decide (Some (s_ "X") = Some (s_ "O"))); [done|].
    destruct (decide (Some (s_ "X") = Some (s_ "X"))); [|done].
    injection Hz1 as <-. lia. }
  apply (truthy_winner (s_ "O") _ _ Hok1) in Htruthy as ->; [|done..].
  (* the AI's reply *)
  assert (board_ok (TicTacToe.ai_player g1) (TicTacToe.board g1)) as Hok1'
    by (by rewrite Hai1).
  destruct (get_ai_move_run g1 Hok1') as (r & -> & Hr).
  destruct r as [a|]; last first.
  { destruct (check_winner_cases _ _ _ Hok1 Hr1) as [[_ ?]|[?|[?|?]]]; done. }
  destruct Hr as (Ha & v & Hv & Hbest).
  assert (0 ≤ v)%Z as Hv0.
  { destruct (max_node_attained 8 (s_ "O") _ (0 + 1) Hr1)
      as [Hneg|(a' & Ha' & Hatt)]; [congruence|].
    rewrite Hz1 in Hatt.
    pose proof (blanks_insert _ _ _ Ha' HO) as Hbl2.
    assert (board_ok (s_ "O") (<[a' := s_ "O"]> (TicTacToe.board g1)))
      as Hok2 by (apply board_ok_insert; [done | by right]).
    rewrite (minimax_value_fuel 8 10) in Hatt by (done || lia).
    destruct (minimax_value_same_sign 10 (s_ "O") _ (0 + 1 + 1) 0 false Hok2)
      as (y & y' & Hy & Hy' & Hsign); [lia..|].
    rewrite Hy in Hatt. injection Hatt as ->.
    destruct (Hbest a' Ha') as (v' & Hv' & Hle').
    rewrite reply_score_value, Hai1, Hy' in Hv' by done.
    injection Hv' as ->. unfold same_sign in Hsign. lia. }
  rewrite reply_score_value, Hai1 in Hv by done.
  assert (minimax_value 10 (s_ "O")
            (<[a := s_ "O"]> (TicTacToe.board g1)) 0 false = Int v) as Hv2
    by congruence.
  clear Hv.
  (* the AI's move *)
  pose proof (lookup_lt_Some _ _ _ Ha) as Halt.
  destruct Hok1 as (Hlen1 & _). rewrite Hlen1 in Halt.
  rewrite make_move_run, Hai1 by done.
  destruct (decide (-9 ≤ Z.of_nat a < 9)%Z); [|lia]. cbn zeta.
  rewrite Z.mod_small, Nat2Z.id by lia.
  destruct (decide (TicTacToe.board g1 !! a = Some Board.blank)); [|done].
  set (g2 := TicTacToe.mkGame _ _ _ _ _).
  assert (board_ok (s_ "O") (TicTacToe.board g2)) as Hok2.
  { unfold g2. cbn [TicTacToe.board].
    apply board_ok_insert; [|by right]. by rewrite <-Hai1. }
  destruct (check_winner_Ok (TicTacToe.board g2)) as [r2 Hr2];
    [apply Hok2|].
  rewrite (ttt_check_winner_run g2 r2 Hr2).
  destruct (TicTacToePlay.truthy r2) eqn:Htruthy2; [by right|].
  apply (truthy_winner (s_ "O") _ _ Hok2) in Htruthy2 as ->; [|done..].
  split_and!; [done | done | done |]. exists v. split; [exact Hv2 | done].
Qed.

Lemma play_safe (inputs : list (option Z)) (g : TicTacToe.game) :
  ai_safe g →
  (TicTacToePlay.play inputs g).1 = TicTacToePlay.Waiting ∨
  (TicTacToePlay.play inputs g).1 = TicTacToePlay.AiWins ∨
  (TicTacToePlay.play inputs g).1 = TicTacToePlay.NameError.
Proof.
  revert g. induction inputs as [|line inputs IH]; intros g Hsafe;
    [by left|].
  cbn [TicTacToePlay.play].
  pose proof Hsafe as (_ & (Hlen & _) & _).
  destruct (player_input_run g line Hlen)
    as [->|(m & g1 & Hm & -> & Hb1 & Hai1)]; [by apply IH|].
  pose proof (after_player_move_safe g g1 m Hsafe Hm Hb1 Hai1) as Hround.
  destruct (TicTacToePlay.after_player_move g1) as [[o g2]|g2].
  - cbn [fst] in *. tauto.
  - by apply IH.
Qed.

(** X28. Whatever lines are entered, [play_game] of TicTacToe.py never
    prints "YOU WIN!": the minimax AI cannot be beaten.  A run waits for
    the next line, ends with "AI WINS!", or, when the player's move ends
    the game without a line of X (a draw), raises NameError, because the
    name [self] is not defined in [play_game]; "DRAW!" is never printed.
    No other exception is raised. *)
Theorem play_game_human_never_wins (inputs : list (option Z)) :
  (TicTacToePlay.play_game inputs).1 = TicTacToePlay.Waiting ∨
  (TicTacToePlay.play_game inputs).1 = TicTacToePlay.AiWins ∨
  (TicTacToePlay.play_game inputs).1 = TicTacToePlay.NameError.
Proof. unfold TicTacToePlay.play_game. apply play_safe, init_safe. Qed.

(** ** The library management system *)

Lemma first_match_Some {A} (P : A → Prop) `{∀ x, Decision (P x)} l i x :
  Library.first_match P l = Some (i, x) → l !! i = Some x ∧ P x.
Proof.
  unfold Library.first_match. intros (? & ? & _)%list_find_Some. done.
Qed.

Lemma first_match_id_Some {A} (f : A → Z) (l : list A) (id : Z) :
  id ∈ f <$> l → ∃ i x, Library.first_match (λ y, f y = id) l = Some (i, x).
Proof.
  intros (x & -> & Hx)%list_elem_of_fmap.
  destruct (list_find_elem_of (λ y, f y = f x) l x) as [[i y] Hfind];
    [done..|].
  by exists i, y.
Qed.

Lemma fmap_insert_same {A B} (f : A → B) (l : list A) i x y :
  l !! i = Some x → f y = f x → f <$> <[i := y]> l = f <$> l.
Proof.
  intros Hi Hf. rewrite list_fmap_insert, Hf.
  apply list_insert_id. by rewrite list_lookup_fmap, Hi.
Qed.

Lemma elem_of_insert_inv {A} (l : list A) i y z :
  z ∈ <[i := y]> l → z = y ∨ z ∈ l.
Proof.
  intros [j Hj]%list_elem_of_lookup.
  apply list_lookup_insert_Some in Hj as [(-> & -> & _)|[_ Hj]];
    [by left | right; by eapply list_elem_of_lookup_2].
Qed.

Lemma elem_of_remove_first x y l :
  y ∈ Library.remove_first x l → y ∈ l.
Proof.
  induction l as [|z l IH]; [done|]. cbn [Library.remove_first].
  case_decide; [by right|].
  intros [->|?]%elem_of_cons; [by left | right; by apply IH].
Qed.

Lemma lib_ok_init : lib_ok Library.init.
Proof. split; intros *; by intros ?%elem_of_nil. Qed.

Lemma lib_ok_run_call c lib :
  lib_ok lib → lib_ok (Library.run_call c lib).2.
Proof.
  intros [Htrans Hborrowed].
  destruct c as [title author isbn price | name email phone | uid bid
                 | tid | uid]; cbn [Library.run_call snd]; [| | | |done].
  - split; cbn [Library.add_book Library.books Library.users
                Library.transactions snd].
    + intros t [? ?]%Htrans. split; [done|]. rewrite fmap_app.
      apply elem_of_app. by left.
    + intros u bid' Hu ?. rewrite fmap_app. apply elem_of_app. left.
      by apply (Hborrowed u).
  - split; cbn [Library.register_user Library.books Library.users
                Library.transactions snd].
    + intros t [? ?]%Htrans. split; [|done]. rewrite fmap_app.
      apply elem_of_app. by left.
    + intros u bid' [Hu| ->%list_elem_of_singleton]%elem_of_app;
        [by apply Hborrowed | by intros ?%elem_of_nil].
  - unfold Library.issue_book.
    destruct (Library.first_match _ (Library.users lib))
      as [[iu user]|] eqn:Hu; [|done].
    destruct (Library.first_match _ (Library.books lib))
      as [[ib book]|] eqn:Hb; [|done].
    apply first_match_Some in Hu as [Hiu Huid].
    apply first_match_Some in Hb as [Hib Hbid].
    case_decide; [done|].
    split; cbn [Library.books Library.users Library.transactions snd];
      rewrite (fmap_insert_same Library.book_id _ ib book _) by done.
    + rewrite (fmap_insert_same Library.user_id _ iu user _) by done.
      intros t [?%Htrans| ->%list_elem_of_singleton]%elem_of_app; [done|].
      cbn. split.
      * apply list_elem_of_fmap. exists user. split; [done|].
        by eapply list_elem_of_lookup_2.
      * apply list_elem_of_fmap. exists book. split; [done|].
        by eapply list_elem_of_lookup_2.
    + intros u bid' [->|Hu]%elem_of_insert_inv; [|by apply Hborrowed].
      cbn. intros [?| ->%list_elem_of_singleton]%elem_of_app.
      * eapply Hborrowed; [|done]. by eapply list_elem_of_lookup_2.
      * apply list_elem_of_fmap. exists book. split; [done|].
        by eapply list_elem_of_lookup_2.
  - unfold Library.return_book.
    destruct (Library.first_match _ (Library.transactions lib))
      as [[it trans]|] eqn:Ht; [|done].
    destruct (Library.first_match _ (Library.books lib))
      as [[ib book]|] eqn:Hb; [|done].
    apply first_match_Some in Ht as [Hit _].
    apply first_match_Some in Hb as [Hib _].
    assert (∀ t, t ∈ <[it := Library.mkTransaction (Library.trans_id trans)
                  (Library.trans_user_id trans) (Library.trans_book_id trans)
                  (Library.issue_date trans) (Some (s_ "2026-02-05"))
                  (QArith_base.inject_Z 5)]> (Library.transactions lib) →
              Library.trans_user_id t ∈ Library.user_id <$> Library.users lib
              ∧ Library.trans_book_id t
                ∈ Library.book_id <$> Library.books lib) as Htrans'.
    { intros t [->|?]%elem_of_insert_inv; [|by apply Htrans].
      cbn. apply Htrans. by eapply list_elem_of_lookup_2. }
    destruct (Library.first_match _ (Library.users lib))
      as [[iu user]|] eqn:Hu.
    + apply first_match_Some in Hu as [Hiu _].
      split; cbn [Library.books Library.users Library.transactions snd];
        rewrite (fmap_insert_same Library.book_id _ ib book _) by done.
      * rewrite (fmap_insert_same Library.user_id _ iu user _)
          by (done || by case_decide).
        exact Htrans'.
      * intros u bid' [->|Hu]%elem_of_insert_inv; [|by apply Hborrowed].
        apply list_elem_of_lookup_2 in Hiu.
        case_decide; [|by apply Hborrowed].
        cbn. intros ?%elem_of_remove_first. by eapply Hborrowed.
    + split; cbn [Library.books Library.users Library.transactions snd];
        rewrite (fmap_insert_same Library.book_id _ ib book _) by done;
        [exact Htrans' | exact Hborrowed].
Qed.

Lemma lib_ok_after history : lib_ok (Library.after history).
Proof.
  unfold Library.after. induction history as [|c history IH] using rev_ind.
  - apply lib_ok_init.
  - rewrite foldl_app. by apply lib_ok_run_call.
Qed.

Lemma borrowed_lines_found bks ids printed :
  Forall (λ bid, bid ∈ Library.book_id <$> bks) ids →
  (Library.borrowed_lines bks ids printed).2 = true.
Proof.
  intros Hids. revert printed.
  induction Hids as [|bid ids Hbid _ IH]; intros printed; [done|].
  cbn [Library.borrowed_lines].
  destruct (first_match_id_Some Library.book_id bks bid Hbid)
    as (i & b & ->). apply IH.
Qed.

(** X29. After any sequence of calls on a new system, no call raises
    StopIteration: [return_book] always finds the user of the transaction
    and [show_user_books] always finds every borrowed book, although both
    look them up with [next] without a default. *)
Theorem library_never_stop_iteration (history : list Library.call)
    (c : Library.call) (lines : list Library.Book) :
  (Library.run_call c (Library.after history)).1
  ≠ Library.StopIteration lines.
Proof.
  destruct (lib_ok_after history) as [Htrans Hborrowed].
  destruct c as [title author isbn price | name email phone | uid bid
                 | tid | uid]; cbn [Library.run_call fst]; [done | done | | |].
  - unfold Library.issue_book. repeat case_match; done.
  - unfold Library.return_book.
    destruct (Library.first_match _ (Library.transactions _))
      as [[it trans]|] eqn:Ht; [|done].
    destruct (Library.first_match _ (Library.books _))
      as [[ib book]|] eqn:Hb; [|done].
    apply first_match_Some in Ht as [Hit%list_elem_of_lookup_2 _].
    destruct (Htrans trans Hit) as [Huser _].
    destruct (first_match_id_Some Library.user_id _ _ Huser)
      as (iu & user & ->). done.
  - unfold Library.show_user_books.
    destruct (Library.first_match _ (Library.users _))
      as [[iu user]|] eqn:Hu; [|done].
    apply first_match_Some in Hu as [Hiu%list_elem_of_lookup_2 _].
    rewrite borrowed_lines_found; [done|].
    apply Forall_forall. intros bid. by apply Hborrowed.
Qed.

Lemma first_match_insert_same {A} (f : A → Z) (l : list A) (id : Z) i x x' :
  Library.first_match (λ y, f y = id) l = Some (i, x) → f x' = f x →
  Library.first_match (λ y, f y = id) (<[i := x']> l) = Some (i, x').
Proof.
  unfold Library.first_match. intros (Hi & Hx & Hfirst)%list_find_Some Hf.
  apply list_find_Some. split_and!.
  - apply list_lookup_insert_eq. by eapply lookup_lt_Some.
  - congruence.
  - intros j y Hj Hlt. rewrite list_lookup_insert_ne in Hj by lia.
    by eapply Hfirst.
Qed.

(** X30. [return_book] looks neither at whether a transaction has been
    returned already nor at who holds the book now.  After any sequence
    of calls, for every transaction id on record it reports a return
    with the fine 5.0 and marks the book of that transaction Available,
    while the borrowed lists of all other users stay as they are and the
    transaction stays on record, so that the same return is accepted
    again. *)
Theorem return_book_ignores_holder (history : list Library.call) (tid : Z) :
  let lib := Library.after history in
  tid ∈ Library.trans_id <$> Library.transactions lib →
  ∃ it trans lib',
    Library.first_match (λ t, Library.trans_id t = tid)
      (Library.transactions lib) = Some (it, trans) ∧
    Library.return_book tid lib
    = (Library.BookReturned (QArith_base.inject_Z 5), lib') ∧
    (∃ ib book,
       Library.first_match (λ b, Library.book_id b = Library.trans_book_id trans)
         (Library.books lib') = Some (ib, book) ∧
       Library.status book = s_ "Available") ∧
    (∀ u, u ∈ Library.users lib →
       Library.user_id u ≠ Library.trans_user_id trans →
       u ∈ Library.users lib') ∧
    tid ∈ Library.trans_id <$> Library.transactions lib'.
Proof.
  intros lib Htid. destruct (lib_ok_after history) as [Htrans _].
  fold lib in Htrans.
  destruct (first_match_id_Some Library.trans_id _ _ Htid)
    as (it & trans & Ht).
  pose proof (first_match_Some _ _ _ _ Ht) as [Hit _].
  destruct (Htrans trans) as [Huser Hbook];
    [by eapply list_elem_of_lookup_2|].
  destruct (first_match_id_Some Library.book_id _ _ Hbook)
    as (ib & book & Hb).
  destruct (first_match_id_Some Library.user_id _ _ Huser)
    as (iu & user & Hu).
  pose proof (first_match_Some _ _ _ _ Hu) as [Hiu Huid].
  exists it, trans. eexists. split; [exact Ht|].
  unfold Library.return_book. rewrite Ht, Hb, Hu.
  split; [reflexivity|].
  cbn [Library.books Library.users Library.transactions]. split_and!.
  - eexists ib, _.
    split; [by apply (first_match_insert_same Library.book_id _ _ _ book)
           | done].
  - intros u [j Hj]%list_elem_of_lookup Hne.
    apply list_elem_of_lookup. exists j.
    rewrite list_lookup_insert_ne; [done|]. intros <-. congruence.
  - erewrite (fmap_insert_same Library.trans_id); [exact Htid | exact Hit|].
    done.
Qed.

Lemma return_book_ignores_holder_witness :
  let history := [Library.AddBook (s_ "Emma") (s_ "Austen") (s_ "1")
                    (QArith_base.inject_Z 9);
                  Library.RegisterUser (s_ "Ann") (s_ "a@b.c") (s_ "1");
                  Library.IssueBook 1 1; Library.ReturnBook 1] in
  let lib := Library.after history in
  ∃ it trans lib',
    Library.first_match (λ t, Library.trans_id t = 1%Z)
      (Library.transactions lib) = Some (it, trans) ∧
    Library.return_book 1 lib
    = (Library.BookReturned (QArith_base.inject_Z 5), lib') ∧
    (∃ ib book,
       Library.first_match (λ b, Library.book_id b = Library.trans_book_id trans)
         (Library.books lib') = Some (ib, book) ∧
       Library.status book = s_ "Available") ∧
    (∀ u, u ∈ Library.users lib →
       Library.user_id u ≠ Library.trans_user_id trans →
       u ∈ Library.users lib') ∧
    1%Z ∈ Library.trans_id <$> Library.transactions lib'.
Proof.
  intros history lib.
  apply (return_book_ignores_holder history 1). vm_compute. by left.
Defined.
